(** * NeonSudoku: the puzzle engine of [utils/sudokuLogic.ts]

    A shallow embedding of [isValid], [solveSudoku], [countSolutions] and
    [generateSudoku], followed by the properties of the engine.

    Conventions of the embedding.
    - A board [(number | null)[][]] is a list of rows, a cell is [option Z]
      ([None] is [null]).  Row and column indices are [nat].
    - The in-place writes [board[row][col] = v] are made explicit: every
      function that writes returns the board it leaves behind.
    - The recursive searches take a fuel argument; [solveSudoku] and
      [countSolutions] supply one more than the number of empty cells, which
      is shown to be enough.
    - [Math.floor(Math.random() * 9)] is an external source of numbers in
      [0..8]; the generator takes the list of the draws it will see, and
      answers [None] when the list is exhausted before it finishes.

    A later part shows that the board left by the seeding loops always has
    a valid completion, so that the solver call of the generator succeeds.
    The game of [App.tsx], which plays on the puzzles of the generator, is
    embedded in the module [App]; its properties come last. *)

From Stdlib Require Import List ZArith NArith Lia Bool Arith PeanoNat Permutation
  Sorted.
Import ListNotations.

(* ================================================================== *)
(** * The data model *)

Definition cell := option Z.
Definition grid := list (list cell).

(** [board[row][col]]: [None] stands for an index outside the board. *)
Definition get (board : grid) (row col : nat) : option cell :=
  match nth_error board row with
  | Some line => nth_error line col
  | None => None
  end.

(** [board[row][col] === num] *)
Definition holds (board : grid) (row col : nat) (num : Z) : bool :=
  match get board row col with
  | Some (Some v) => Z.eqb v num
  | _ => false
  end.

(** [board[row][col] === null] *)
Definition is_null (board : grid) (row col : nat) : bool :=
  match get board row col with
  | Some None => true
  | _ => false
  end.

Fixpoint update {A : Type} (l : list A) (i : nat) (x : A) : list A :=
  match l, i with
  | [], _ => []
  | _ :: t, O => x :: t
  | h :: t, S j => h :: update t j x
  end.

(** [board[row][col] = v], for a cell of the board (every write of the engine
    is to such a cell; outside the board the embedding leaves it alone). *)
Definition set (board : grid) (row col : nat) (v : cell) : grid :=
  match nth_error board row with
  | Some line => update board row (update line col v)
  | None => board
  end.

(** The loop [for (x = 0; x < n; x++)]. *)
Definition upto (n : nat) : list nat := seq 0 n.

(** The 81 cells in the order of the two nested loops (row-major). *)
Definition cells : list (nat * nat) :=
  flat_map (fun row => map (fun col => (row, col)) (upto 9)) (upto 9).

(** The candidates of [for (num = 1; num <= 9; num++)]. *)
Definition digits : list Z := [1; 2; 3; 4; 5; 6; 7; 8; 9]%Z.

(* ================================================================== *)
(** * [isValid] *)

Definition isValid (board : grid) (row col : nat) (num : Z) : bool :=
  if existsb (fun x => holds board row x num) (upto 9) then false
  else if existsb (fun x => holds board x col num) (upto 9) then false
  else
    let startRow := row - row mod 3 in
    let startCol := col - col mod 3 in
    if existsb
         (fun i => existsb
                     (fun j => holds board (i + startRow) (j + startCol) num)
                     (upto 3))
         (upto 3)
    then false
    else true.

(* ================================================================== *)
(** * [solveSudoku] *)

(** The first cell with [board[row][col] === null] met by the two loops. *)
Definition first_empty (board : grid) : option (nat * nat) :=
  find (fun rc => is_null board (fst rc) (snd rc)) cells.

Section Candidates.
(** The recursive call, and the cell being filled. *)
Variable rec : grid -> option (bool * grid).
Variables row col : nat.

(** The candidate loop of [solveSudoku] followed by its [return false]. *)
Fixpoint try_nums (nums : list Z) (board : grid) : option (bool * grid) :=
  match nums with
  | [] => Some (false, board)
  | num :: rest =>
      if isValid board row col num then
        match rec (set board row col (Some num)) with
        | None => None
        | Some (true, board') => Some (true, board')
        | Some (false, board') => try_nums rest (set board' row col None)
        end
      else try_nums rest board
  end.
End Candidates.

Fixpoint solve (fuel : nat) (board : grid) : option (bool * grid) :=
  match fuel with
  | O => None
  | S fuel' =>
      match first_empty board with
      | None => Some (true, board)
      | Some (row, col) => try_nums (solve fuel') row col digits board
      end
  end.

Definition empty_cells (board : grid) : list (nat * nat) :=
  filter (fun rc => is_null board (fst rc) (snd rc)) cells.

(** The call [solveSudoku(board)]: the result and the board afterwards. *)
Definition solveSudoku (board : grid) : option (bool * grid) :=
  solve (S (length (empty_cells board))) board.

(* ================================================================== *)
(** * [countSolutions] *)

Section CountCandidates.
(** The inner [solve] threads the board and the captured [count]. *)
Variable rec : grid -> nat -> option (grid * nat).
Variables row col : nat.

Fixpoint count_nums (nums : list Z) (b : grid) (count : nat)
  : option (grid * nat) :=
  match nums with
  | [] => Some (b, count)
  | num :: rest =>
      if isValid b row col num then
        match rec (set b row col (Some num)) count with
        | None => None
        | Some (b', count') =>
            let b'' := set b' row col None in
            if 1 <? count' then Some (b'', count')
            else count_nums rest b'' count'
        end
      else count_nums rest b count
  end.
End CountCandidates.

Fixpoint csolve (fuel : nat) (b : grid) (count : nat) : option (grid * nat) :=
  match fuel with
  | O => None
  | S fuel' =>
      match first_empty b with
      | None => Some (b, S count)
      | Some (row, col) => count_nums (csolve fuel') row col digits b count
      end
  end.

(** The call [countSolutions(board)]: the count, and the board afterwards. *)
Definition countSolutions (board : grid) : option (nat * grid) :=
  match csolve (S (length (empty_cells board))) board 0 with
  | Some (board', count) => Some (count, board')
  | None => None
  end.

(** The inner [solve] with an assertion at its entry, [count <= 1]: the
    search fails ([None]) if [solve] is entered again once the count has
    passed 1.  The loop over the candidates is [count_nums] itself. *)
Fixpoint csolve_asserting (fuel : nat) (b : grid) (count : nat)
  : option (grid * nat) :=
  match fuel with
  | O => None
  | S fuel' =>
      if 1 <? count then None
      else
        match first_empty b with
        | None => Some (b, S count)
        | Some (row, col) =>
            count_nums (csolve_asserting fuel') row col digits b count
        end
  end.

(* ================================================================== *)
(** * [generateSudoku] *)

Inductive Difficulty := EASY | MEDIUM | HARD | EXPERT.

Definition cellsToRemove (difficulty : Difficulty) : nat :=
  match difficulty with
  | EASY => 35
  | MEDIUM => 45
  | HARD => 55
  | EXPERT => 60
  end.

(** [Array(9).fill(null).map(() => Array(9).fill(null))] *)
Definition empty_board : grid := repeat (repeat None 9) 9.

(** [do { num = Math.floor(Math.random() * 9) + 1; }
     while (!isValid(board, row, col, num));] *)
Fixpoint pick_valid (board : grid) (row col : nat) (rnd : list nat)
  : option (Z * list nat) :=
  match rnd with
  | [] => None
  | x :: rest =>
      let num := (Z.of_nat x + 1)%Z in
      if isValid board row col num then Some (num, rest)
      else pick_valid board row col rest
  end.

(** The cells [(i + j, i + k)] of the three nested seeding loops, in order. *)
Definition diagonal_cells : list (nat * nat) :=
  flat_map
    (fun i => flat_map (fun j => map (fun k => (i + j, i + k)) (upto 3))
                       (upto 3))
    [0; 3; 6].

Fixpoint fill_diagonal (cs : list (nat * nat)) (board : grid) (rnd : list nat)
  : option (grid * list nat) :=
  match cs with
  | [] => Some (board, rnd)
  | (row, col) :: cs' =>
      match pick_valid board row col rnd with
      | None => None
      | Some (num, rnd') => fill_diagonal cs' (set board row col (Some num)) rnd'
      end
  end.

Section Removal.
(** The uniqueness check applied to the deep copy
    [JSON.parse(JSON.stringify(puzzle))]: it returns the count and the state
    in which it leaves the copy, which the loop never looks at. *)
Variable counter : grid -> option (nat * grid).

(** One turn of the removal loop on the cell [(r, c)]: the new value of
    [attempts] and the puzzle. *)
Definition remove_step (r c : nat) (attempts : nat) (puzzle : grid)
  : option (nat * grid) :=
  match get puzzle r c with
  | None => None
  | Some None => Some (attempts, puzzle)
  | Some (Some temp) =>
      let puzzle1 := set puzzle r c None in
      match counter puzzle1 with
      | None => None
      | Some (n, _) =>
          if n =? 1 then Some (S attempts, puzzle1)
          else Some (attempts, set puzzle1 r c (Some temp))
      end
  end.

(** [while (attempts < cellsToRemove) { ... }] *)
Fixpoint remove_cells (target : nat) (rnd : list nat) (attempts : nat)
         (puzzle : grid) : option grid :=
  if attempts <? target then
    match rnd with
    | r :: c :: rest =>
        match remove_step r c attempts puzzle with
        | None => None
        | Some (attempts', puzzle') => remove_cells target rest attempts' puzzle'
        end
    | _ => None
    end
  else Some puzzle.
End Removal.

(** The board after the seeding loops and the draws left. *)
Definition seed_board (rnd : list nat) : option (grid * list nat) :=
  fill_diagonal diagonal_cells empty_board rnd.

(** [generateSudoku(difficulty)] returns [{ puzzle, solution }]. *)
Definition generateSudoku (difficulty : Difficulty) (rnd : list nat)
  : option (grid * grid) :=
  match seed_board rnd with
  | None => None
  | Some (seeded, rnd1) =>
      match solveSudoku seeded with
      | None => None
      | Some (_, board) =>
          let solution := board in
          match remove_cells countSolutions (cellsToRemove difficulty)
                             rnd1 0 board with
          | None => None
          | Some puzzle => Some (puzzle, solution)
          end
      end
  end.

(* ================================================================== *)
(** * Vocabulary of the specification *)

(** A 9x9 board. *)
Definition shape (b : grid) : Prop :=
  length b = 9 /\ Forall (fun line => length line = 9) b.

(** Every number on the board is one of 1..9. *)
Definition in_range (b : grid) : Prop :=
  forall r c v, r < 9 -> c < 9 -> get b r c = Some (Some v) -> (1 <= v <= 9)%Z.

Definition in_row (b : grid) (row : nat) (num : Z) : Prop :=
  exists x, x < 9 /\ get b row x = Some (Some num).

Definition in_col (b : grid) (col : nat) (num : Z) : Prop :=
  exists x, x < 9 /\ get b x col = Some (Some num).

(** The box with origin [(row - row % 3, col - col % 3)]. *)
Definition in_box (b : grid) (row col : nat) (num : Z) : Prop :=
  exists i j, i < 3 /\ j < 3 /\
    get b (i + (row - row mod 3)) (j + (col - col mod 3)) = Some (Some num).

(** Two cells share a row, a column or a box. *)
Definition same_unit (r c r' c' : nat) : Prop :=
  r = r' \/ c = c' \/ (r / 3 = r' / 3 /\ c / 3 = c' / 3).

(** No number occurs twice in a row, a column or a box. *)
Definition consistent (b : grid) : Prop :=
  forall r c r' c' v,
    r < 9 -> c < 9 -> r' < 9 -> c' < 9 ->
    get b r c = Some (Some v) -> get b r' c' = Some (Some v) ->
    same_unit r c r' c' -> r = r' /\ c = c'.

(** No empty cell. *)
Definition full (b : grid) : Prop :=
  forall r c, r < 9 -> c < 9 -> exists v, get b r c = Some (Some v).

(** [s] keeps every number of [b]. *)
Definition extends (b s : grid) : Prop :=
  forall r c v, r < 9 -> c < 9 ->
    get b r c = Some (Some v) -> get s r c = Some (Some v).

(** A full valid grid. *)
Definition solved (s : grid) : Prop :=
  shape s /\ full s /\ in_range s /\ consistent s.

(** [s] is a valid completion of [b]. *)
Definition completion (b s : grid) : Prop := solved s /\ extends b s.

(** Executable forms of the predicates above. *)
Definition same_unitb (r c r' c' : nat) : bool :=
  (r =? r') || (c =? c') || ((r / 3 =? r' / 3) && (c / 3 =? c' / 3)).

Definition number_at (b : grid) (rc : nat * nat) : option Z :=
  match get b (fst rc) (snd rc) with
  | Some (Some v) => Some v
  | _ => None
  end.

Definition clashb (b : grid) (rc rc' : nat * nat) : bool :=
  match number_at b rc, number_at b rc' with
  | Some v, Some v' =>
      (v =? v')%Z && same_unitb (fst rc) (snd rc) (fst rc') (snd rc')
      && negb ((fst rc =? fst rc') && (snd rc =? snd rc'))
  | _, _ => false
  end.

Definition shapeb (b : grid) : bool :=
  (length b =? 9) && forallb (fun line => length line =? 9) b.

Definition in_rangeb (b : grid) : bool :=
  forallb (fun rc => match number_at b rc with
                     | Some v => (1 <=? v)%Z && (v <=? 9)%Z
                     | None => true
                     end) cells.

Definition consistentb (b : grid) : bool :=
  forallb (fun rc => forallb (fun rc' => negb (clashb b rc rc')) cells) cells.

Definition fullb (b : grid) : bool :=
  forallb (fun rc => match number_at b rc with
                     | Some _ => true
                     | None => false
                     end) cells.

Definition extendsb (b s : grid) : bool :=
  forallb (fun rc => match number_at b rc with
                     | Some v => holds s (fst rc) (snd rc) v
                     | None => true
                     end) cells.

Definition solvedb (s : grid) : bool :=
  shapeb s && fullb s && in_rangeb s && consistentb s.

Definition row_values (s : grid) (r : nat) : list (option cell) :=
  map (fun c => get s r c) (upto 9).

Definition col_values (s : grid) (c : nat) : list (option cell) :=
  map (fun r => get s r c) (upto 9).

(** The nine cells of box [k], boxes and cells numbered row-major. *)
Definition box_values (s : grid) (k : nat) : list (option cell) :=
  map (fun i => get s (3 * (k / 3) + i / 3) (3 * (k mod 3) + i mod 3)) (upto 9).

Definition perm_1_9 (l : list (option cell)) : Prop :=
  Permutation l (map (fun d => Some (Some d)) digits).

(** Every row, column and box is a permutation of 1..9. *)
Definition all_units_perm (s : grid) : Prop :=
  forall k, k < 9 ->
    perm_1_9 (row_values s k) /\ perm_1_9 (col_values s k) /\
    perm_1_9 (box_values s k).

(** Every draw is a value of [Math.floor(Math.random() * 9)]. *)
Definition draws_ok (rnd : list nat) : Prop := Forall (fun x => x < 9) rnd.

(** The cells holding a number. *)
Definition filled_cells (b : grid) : list (nat * nat) :=
  filter (fun rc => match get b (fst rc) (snd rc) with
                    | Some (Some _) => true
                    | _ => false
                    end) cells.

(** What the seeding loops maintain, with the cells [cs] still to fill. *)
Definition seeding (cs : list (nat * nat)) (b : grid) : Prop :=
  shape b /\ in_range b /\ consistent b /\
  (forall r c, In (r, c) cs -> get b r c = Some None) /\
  length (filled_cells b) + length cs = 27.

(** What the removal loop maintains: the puzzle is the solution with
    [attempts] cells cleared, and after the first removal the counter
    answers 1 on it. *)
Definition removal_inv (solution : grid) (attempts : nat) (puzzle : grid)
  : Prop :=
  shape puzzle /\ extends puzzle solution /\
  length (filled_cells puzzle) + attempts = length (filled_cells solution) /\
  (attempts = 0 \/ countSolutions puzzle = Some (1, puzzle)).

(** Row-major comparison of two boards on the cells after a common prefix:
    [s] is below [s'] when, at the first cell where they differ, [s] holds
    the smaller number. *)
Fixpoint lex_le (cs : list (nat * nat)) (s s' : grid) : Prop :=
  match cs with
  | [] => True
  | (r, c) :: cs' =>
      match get s r c, get s' r c with
      | Some (Some v), Some (Some v') =>
          (v < v')%Z \/ (v = v' /\ lex_le cs' s s')
      | _, _ => False
      end
  end.

(** The boards met at the terminal states of the search of [solveSudoku] and
    [countSolutions] when it is never cut short, in the order they are met. *)
Section Branches.
Variable rec : grid -> list grid.
Variables (b : grid) (row col : nat).

Definition branch (num : Z) : list grid :=
  if isValid b row col num then rec (set b row col (Some num)) else [].
End Branches.

Fixpoint completions (fuel : nat) (b : grid) : list grid :=
  match fuel with
  | O => []
  | S fuel' =>
      match first_empty b with
      | None => [b]
      | Some (row, col) =>
          flat_map (branch (completions fuel') b row col) digits
      end
  end.

(** The answer of [solveSudoku] on [b] when the uncut search meets [l]. *)
Definition outcome (l : list grid) (b : grid) : bool * grid :=
  match l with
  | [] => (false, b)
  | s :: _ => (true, s)
  end.

(* ================================================================== *)
(** * Example boards *)

(** A board written with [0] for an empty cell. *)
Definition board_of (rows : list (list Z)) : grid :=
  map (map (fun z => if Z.eqb z 0 then None else Some z)) rows.

(** A full board that breaks every constraint. *)
Definition all_ones : grid := repeat (repeat (Some 1%Z) 9) 9.

(** A full valid board. *)
Definition solved_board : grid :=
  board_of
    [[8; 6; 1; 2; 3; 4; 5; 7; 9];
     [2; 5; 4; 7; 9; 1; 3; 8; 6];
     [3; 9; 7; 6; 5; 8; 1; 4; 2];
     [4; 2; 6; 3; 1; 7; 8; 9; 5];
     [5; 3; 9; 8; 2; 6; 7; 1; 4];
     [1; 7; 8; 5; 4; 9; 2; 6; 3];
     [6; 1; 2; 9; 7; 3; 4; 5; 8];
     [9; 4; 3; 1; 8; 5; 6; 2; 7];
     [7; 8; 5; 4; 6; 2; 9; 3; 1]]%Z.

(** [solved_board] with 35 cells cleared. *)
Definition puzzle_board : grid :=
  board_of
    [[8; 6; 0; 2; 0; 4; 0; 7; 9];
     [2; 5; 4; 0; 9; 0; 0; 8; 0];
     [0; 9; 0; 6; 5; 0; 1; 4; 2];
     [4; 2; 0; 0; 1; 7; 0; 9; 5];
     [5; 0; 0; 8; 2; 6; 7; 0; 4];
     [1; 7; 0; 0; 4; 0; 2; 0; 0];
     [0; 0; 2; 9; 7; 3; 4; 0; 0];
     [0; 4; 3; 1; 0; 0; 6; 2; 0];
     [7; 8; 0; 0; 0; 0; 9; 0; 0]]%Z.

(** [solved_board] without the corners of a rectangle that holds 1 and 4
    crosswise: they can be put back in two ways. *)
Definition two_ways_board : grid :=
  set (set (set (set solved_board 0 2 None) 0 5 None) 1 2 None) 1 5 None.

(** No number fits the first empty cell, the last one of the first row. *)
Definition dead_end_board : grid :=
  board_of
    [[1; 2; 3; 4; 5; 6; 7; 8; 0];
     [0; 0; 0; 0; 0; 0; 0; 0; 9];
     [0; 0; 0; 0; 0; 0; 0; 0; 0];
     [0; 0; 0; 0; 0; 0; 0; 0; 0];
     [0; 0; 0; 0; 0; 0; 0; 0; 0];
     [0; 0; 0; 0; 0; 0; 0; 0; 0];
     [0; 0; 0; 0; 0; 0; 0; 0; 0];
     [0; 0; 0; 0; 0; 0; 0; 0; 0];
     [0; 0; 0; 0; 0; 0; 0; 0; 0]]%Z.

(** Draws that make [generateSudoku] produce [puzzle_board]: 27 for the
    diagonal boxes, then 35 pairs of a row and a column. *)
Definition easy_draws : list nat :=
  [
    7; 5; 0; 1; 4; 3; 2; 8; 6; 2; 0; 6; 7; 1; 5; 4; 3; 8; 3; 4; 7; 5; 1; 6;
    8; 2; 0; 1; 5; 0; 6; 2; 0; 1; 6; 1; 3; 7; 5; 6; 8; 2; 5; 8; 2; 6; 7; 3;
    6; 8; 3; 4; 1; 3; 3; 8; 7; 0; 2; 5; 3; 5; 7; 7; 0; 7; 8; 8; 4; 2; 2; 8;
    5; 6; 0; 1; 8; 5; 2; 6; 1; 7; 4; 0; 4; 8; 8; 3; 2; 5; 5; 4; 2; 5; 8; 4;
    7 ].

(* ================================================================== *)
(** * Frames: the vocabulary for completing a seeded board *)

(** The seeding loops fill the three diagonal boxes and [solveSudoku] has to
    find the six others.  That some completion always exists is proved on a
    description of a grid by _frames_.  The nine digits are numbered 0..8 by
    their place in the first box; a frame gives, for each digit, a position
    0..2: its row inside a box (a row frame) or its column inside a box (a
    column frame).  A box is a row frame and a column frame that are
    orthogonal: every place of the box is taken by some digit. *)
Definition frame := list nat.

Definition at_ (x : frame) (d : nat) : nat := nth d x 0.

(** The position left free by two different positions. *)
Definition third1 (k v : nat) : nat := 3 - k - v.

(** The frame of the third box of a band (or stack), from the two others. *)
Fixpoint third (k z : frame) : frame :=
  match k, z with
  | a :: k', b :: z' => third1 a b :: third k' z'
  | _, _ => []
  end.

(** The place [(x, y)] of a box as one bit of a 9-bit mask. *)
Definition bit (x y : nat) : N :=
  match x, y with
  | O, O => 1%N | O, S O => 2%N | O, S (S O) => 4%N
  | S O, O => 8%N | S O, S O => 16%N | S O, S (S O) => 32%N
  | S (S O), O => 64%N | S (S O), S O => 128%N | S (S O), S (S O) => 256%N
  | _, _ => 0%N
  end.

Fixpoint codes (x y : frame) (m : N) : N :=
  match x, y with
  | a :: x', b :: y' => codes x' y' (N.lor m (bit a b))
  | _, _ => m
  end.

(** The digits of the frames [x] and [y] take all nine places. *)
Definition orthb (x y : frame) : bool := N.eqb (codes x y 0%N) 511%N.

Definition succ3 (k : nat) : nat := match k with O => 1 | S O => 2 | _ => 0 end.

Definition pred3 (k : nat) : nat := match k with O => 2 | S O => 0 | _ => 1 end.

(** The frames that differ from [k] at every digit. *)
Fixpoint variants (k : frame) : list frame :=
  match k with
  | [] => [[]]
  | a :: k' => let r := variants k' in
               map (cons (succ3 a)) r ++ map (cons (pred3 a)) r
  end.

(** Three digits at each position. *)
Definition balancedb (z : frame) : bool :=
  (count_occ Nat.eq_dec z 0 =? 3) && (count_occ Nat.eq_dec z 1 =? 3)
  && (count_occ Nat.eq_dec z 2 =? 3).

(** The frames a box may have next to a box of frame [k] in the same band
    (or stack). *)
Definition D (k : frame) : list frame := filter balancedb (variants k).

(** The row frame and the column frame of the first box. *)
Definition a0 : frame := [0;0;0;1;1;1;2;2;2].

Definition a0c : frame := [0;1;2;0;1;2;0;1;2].

Definition orth (x y : frame) : Prop :=
  forall r c, r < 3 -> c < 3 -> exists d, d < 9 /\ at_ x d = r /\ at_ y d = c.

Definition inD (k z : frame) : Prop :=
  length z = 9 /\ forall d, d < 9 -> at_ z d < 3 /\ at_ z d <> at_ k d.

(** ** The search for two neighbouring boxes *)

(** Sets of candidates are masks over the fixed lists [Xs0] and [Ys0]. *)
Fixpoint orb_list (l1 l2 : list bool) : list bool :=
  match l1, l2 with
  | a :: l1', b :: l2' => (a || b) :: orb_list l1' l2'
  | _, _ => []
  end.

Fixpoint count_true (l : list bool) : nat :=
  match l with
  | [] => 0
  | true :: l' => S (count_true l')
  | false :: l' => count_true l'
  end.

Fixpoint select {A : Type} (m : list bool) (l : list A) : list A :=
  match m, l with
  | b :: m', a :: l' => if b then a :: select m' l' else select m' l'
  | _, _ => []
  end.

(** The row frames of the box right of the first one, and the column frames
    of the box below it. *)
Definition Xs0 : list frame := D a0.

Definition Ys0 : list frame := D a0c.

Definition falses : list bool := repeat false 56.

(** For each [t] next to [g]: the frame left to the third box, and the
    frames of [Ys0] orthogonal to [t]. *)
Definition gtab (g : frame) : list (frame * list bool) :=
  map (fun t => (third g t, map (fun y => orthb t y) Ys0)) (D g).

(** For each [u] next to [b]: the frame left to the third box, and the
    frames of [Xs0] orthogonal to [u]. *)
Definition btab (b : frame) : list (frame * list bool) :=
  map (fun u => (third b u, map (fun x => orthb x u) Xs0)) (D b).

(** The frames of [Ys0] linked to [u'] through some [t]. *)
Fixpoint ymask (u' : frame) (tg : list (frame * list bool)) (acc : list bool)
  : list bool :=
  match tg with
  | [] => acc
  | (t', ym) :: tg' =>
      if orthb u' t' then ymask u' tg' (orb_list acc ym) else ymask u' tg' acc
  end.

(** At least 29 frames of [Xs0] are linked, each through one [u], to at
    least [th] frames of [Ys0]. *)
Fixpoint enough (th : nat) (tb tg : list (frame * list bool)) (acc : list bool)
  : bool :=
  if 29 <=? count_true acc then true
  else
    match tb with
    | [] => false
    | (u', xm) :: tb' =>
        if existsb (fun b => b) xm then
          if th <=? count_true (ymask u' tg falses)
          then enough th tb' tg (orb_list acc xm)
          else enough th tb' tg acc
        else enough th tb' tg acc
    end.

(** What a successful search establishes. *)
Definition reaches (th : nat) (b g x : frame) : Prop :=
  exists u, inD b u /\ orth x u /\
    exists Ys, NoDup Ys /\ th <= length Ys /\ incl Ys Ys0 /\
      forall y, In y Ys ->
        exists t, inD g t /\ orth (third b u) (third g t) /\ orth t y.

Definition plenty (th : nat) (b g : frame) : Prop :=
  exists Xs, NoDup Xs /\ 29 <= length Xs /\ incl Xs Xs0 /\
    forall x, In x Xs -> reaches th b g x.

(** ** Frames up to symmetry *)

(** The balanced frames whose positions appear in the order 0, 1, 2. *)
Fixpoint gen (n : nat) (c0 c1 c2 used : nat) : list frame :=
  match n with
  | 0 => [[]]
  | S n' =>
     (if c0 <? 3 then map (cons 0) (gen n' (S c0) c1 c2 (Nat.max used 1))
      else []) ++
     (if (c1 <? 3) && (1 <=? used)
      then map (cons 1) (gen n' c0 (S c1) c2 (Nat.max used 2)) else []) ++
     (if (c2 <? 3) && (2 <=? used)
      then map (cons 2) (gen n' c0 c1 (S c2) 3) else [])
  end.

Definition canon_frames : list frame := gen 9 0 0 0 0.

Fixpoint eqb_frame (x y : frame) : bool :=
  match x, y with
  | [], [] => true
  | a :: x', b :: y' => (a =? b) && eqb_frame x' y'
  | _, _ => false
  end.

(** Renaming the digits by [pi], and the positions by [l]. *)
Definition rel (pi : list nat) (x : frame) : frame := map (at_ x) pi.

Definition relab (l : list nat) (x : frame) : frame := map (at_ l) x.

Fixpoint index_of (v : nat) (l : list nat) : nat :=
  match l with
  | [] => 0
  | a :: l' => if a =? v then 0 else S (index_of v l')
  end.

Definition inverse (n : nat) (l : list nat) : list nat :=
  map (fun v => index_of v l) (seq 0 n).

Definition perms3 : list (list nat) :=
  [[0;1;2]; [0;2;1]; [1;0;2]; [1;2;0]; [2;0;1]; [2;1;0]].

(** The renamings of the digits that permute the rows and the columns of the
    first box. *)
Definition stab : list (list nat) :=
  flat_map
    (fun rho =>
       map (fun chi => map (fun d => 3 * at_ rho (d / 3) + at_ chi (d mod 3))
                           (seq 0 9))
           perms3)
    perms3.

Definition memb (x : frame) (l : list frame) : bool := existsb (eqb_frame x) l.

Fixpoint nodupb (l : list frame) : bool :=
  match l with
  | [] => true
  | x :: l' => negb (memb x l') && nodupb l'
  end.

(** One frame in each class of [canon_frames] under [stab]. *)
Fixpoint pick_reps (fuel : nat) (todo : list frame) : list frame :=
  match fuel with
  | 0 => []
  | S fuel' =>
      match todo with
      | [] => []
      | x :: _ =>
          let orbit :=
            flat_map (fun pi => map (fun l => relab l (rel pi x)) perms3) stab in
          x :: pick_reps fuel' (filter (fun y => negb (memb y orbit)) todo)
      end
  end.

Definition reps : list frame := pick_reps 280 canon_frames.

(** The search succeeds for every [b] of [rs] and [g] of [cfs], the pair
    [(a0c, a0c)] apart when [exceptions] is set. *)
Definition check_all_on (th : nat) (exceptions : bool) (rs cfs : list frame)
  : bool :=
  let tgs := map (fun g => (g, gtab g)) cfs in
  forallb
    (fun b =>
       let tb := btab b in
       forallb
         (fun gt => (exceptions && eqb_frame b a0c && eqb_frame (fst gt) a0c)
                    || enough th tb (snd gt) falses)
         tgs)
    rs.

Definition digit_perm (f : nat -> nat) : Prop :=
  (forall d, d < 9 -> f d < 9) /\ (forall e, e < 9 -> exists d, d < 9 /\ f d = e).

Definition label_perm (l : nat -> nat) : Prop :=
  (forall v, v < 3 -> l v < 3) /\
  (forall v w, v < 3 -> w < 3 -> l v = l w -> v = w).

(** How a renaming acts on one of the two fixed lists of candidates. *)
Definition acts (f : nat -> nat) (fx : frame -> frame) (l0 : list frame)
  : Prop :=
  NoDup (map fx l0) /\
  exists lx, label_perm lx /\
    forall x, In x l0 ->
      In (fx x) l0 /\ forall d, d < 9 -> at_ (fx x) d = lx (at_ x (f d)).

(** [b'] is [b] with its digits renamed by [f] and its positions by [l]. *)
Definition renamed (f l : nat -> nat) (b b' : frame) : Prop :=
  length b' = 9 /\ (forall d, d < 9 -> at_ b (f d) < 3) /\
  forall d, d < 9 -> at_ b' d = l (at_ b (f d)).

Definition acts_b (pi lam : list nat) (l0 : list frame) : bool :=
  let img := map (fun x => relab lam (rel pi x)) l0 in
  forallb (fun x => memb x l0) img && nodupb img.

Definition perm9b (pi : list nat) : bool :=
  (length pi =? 9) &&
  forallb (fun d => (at_ pi d <? 9) && (at_ (inverse 9 pi) d <? 9) &&
                    (at_ (inverse 9 pi) (at_ pi d) =? d) &&
                    (at_ pi (at_ (inverse 9 pi) d) =? d) &&
                    ((at_ pi d) mod 3 =? (at_ pi (d mod 3)) mod 3))
          (seq 0 9).

(** A renaming of the digits with the renamings of the positions that keep
    [Xs0] and [Ys0]. *)
Definition sym_of (pi : list nat) : list (list nat * list nat * list nat) :=
  match find (fun l => acts_b pi l Xs0) perms3,
        find (fun l => acts_b pi l Ys0) perms3 with
  | Some lx, Some ly => if perm9b pi then [(pi, lx, ly)] else []
  | _, _ => []
  end.

Definition syms : list (list nat * list nat * list nat) := flat_map sym_of stab.

(** Some symmetry takes [b] into [rs]. *)
Definition norm_b (ss : list (list nat * list nat * list nat)) (rs : list frame)
  (b : frame) : bool :=
  existsb
    (fun s =>
       existsb (fun l => memb (relab l (rel (inverse 9 (fst (fst s))) b)) rs)
               perms3)
    ss.

Definition reps_check_on (ss : list (list nat * list nat * list nat))
  (rs cfs : list frame) : bool :=
  forallb (norm_b ss rs) cfs.

Fixpoint lists3 (n : nat) : list frame :=
  match n with
  | 0 => [[]]
  | S n' => flat_map (fun z => [0 :: z; 1 :: z; 2 :: z]) (lists3 n')
  end.

(** Every balanced frame of [ls] is in [cf] up to the names of its
    positions. *)
Definition canon_check_on (cf ls : list frame) : bool :=
  forallb (fun z => if balancedb z
                    then existsb (fun l => memb (relab l z) cf) perms3
                    else true)
          ls.

(** [third k] maps [l0] into itself, one to one. *)
Definition closed_b (k : frame) (l0 : list frame) : bool :=
  let img := map (third k) l0 in
  forallb (fun x => memb x l0) img && nodupb img.

Definition frame_ok (z : frame) : Prop :=
  length z = 9 /\ (forall d, d < 9 -> at_ z d < 3) /\ balancedb z = true.

(** The frame is the column frame of the first box up to the names of the
    positions. *)
Definition colike (z : frame) : Prop :=
  forall d, d < 9 -> at_ z d = at_ z (d mod 3).

Definition perm9 (s : list nat) : Prop :=
  length s = 9 /\ (forall d, d < 9 -> at_ s d < 9) /\
  (forall d e, d < 9 -> e < 9 -> at_ s d = at_ s e -> d = e).

Ltac three v H := destruct v as [|[|[|v]]]; [| | |exfalso; lia].

(** ** From a seeded board to frames and back *)

(** The number of a cell, 0 for an empty one. *)
Definition value_at (g : grid) (r c : nat) : Z :=
  match number_at g (r, c) with
  | Some v => v
  | None => 0%Z
  end.

(** The numbers of the [k]-th diagonal box, its cells row-major. *)
Definition box_digits (g : grid) (k : nat) : list Z :=
  map (fun i => value_at g (3 * k + i / 3) (3 * k + i mod 3)) (seq 0 9).

Fixpoint position (v : Z) (l : list Z) : nat :=
  match l with
  | [] => 0
  | a :: l' => if (a =? v)%Z then 0 else S (position v l')
  end.

(** Where the numbers of [vs] are in [ws]. *)
Definition places (vs ws : list Z) : list nat :=
  map (fun v => position v ws) vs.

(** The digit at the place [(i, j)] of a box with frames [rho], [kappa]. *)
Definition digit_at (rho kappa : frame) (i j : nat) : option nat :=
  find (fun d => (at_ rho d =? i) && (at_ kappa d =? j)) (seq 0 9).

(** The board whose box [(R, C)] has the frames [fr R C], the digits named
    by [vals]. *)
Definition assemble (fr : nat -> nat -> frame * frame) (vals : list Z) : grid :=
  map (fun r =>
         map (fun c =>
                match digit_at (fst (fr (r / 3) (c / 3)))
                               (snd (fr (r / 3) (c / 3)))
                               (r mod 3) (c mod 3) with
                | Some d => Some (nth d vals 0%Z)
                | None => None
                end)
             (seq 0 9))
      (seq 0 9).

(** The nine boxes: the diagonal ones are given ([a0], [a0c]; [b], [bc];
    [c], [cc]), the frames [p], [u], [t], [w], [s], [v] fix the six others. *)
Definition box_frames (b bc c cc p u t w s v : frame) (R C : nat)
  : frame * frame :=
  match R, C with
  | 0, 0 => (a0, a0c)
  | 0, 1 => (p, u)
  | 0, _ => (third a0 p, v)
  | 1, 0 => (s, w)
  | 1, 1 => (b, bc)
  | 1, _ => (third b s, third cc v)
  | _, 0 => (t, third a0c w)
  | _, 1 => (third c t, third bc u)
  | _, _ => (c, cc)
  end.

(** The frames of nine boxes that make a valid grid. *)
Definition latin (fr : nat -> nat -> frame * frame) : Prop :=
  (forall R C, R < 3 -> C < 3 -> orth (fst (fr R C)) (snd (fr R C))) /\
  (forall R C C' d, R < 3 -> C < 3 -> C' < 3 -> d < 9 ->
     at_ (fst (fr R C)) d = at_ (fst (fr R C')) d -> C = C') /\
  (forall R R' C d, R < 3 -> R' < 3 -> C < 3 -> d < 9 ->
     at_ (snd (fr R C)) d = at_ (snd (fr R' C)) d -> R = R').

(* ================================================================== *)
(** * The removal loop and the seeding: vocabulary and examples *)

(** No filled cell can be cleared with the counter still answering 1. *)
Definition saturated (counter : grid -> option (nat * grid)) (puzzle : grid)
  : Prop :=
  forall r c v n scratch,
    get puzzle r c = Some (Some v) ->
    counter (set puzzle r c None) = Some (n, scratch) -> n <> 1.

(** The executable form, on the 81 cells. *)
Definition saturatedb (counter : grid -> option (nat * grid)) (puzzle : grid)
  : bool :=
  forallb (fun rc =>
             match get puzzle (fst rc) (snd rc) with
             | Some (Some _) =>
                 match counter (set puzzle (fst rc) (snd rc) None) with
                 | Some (n, _) => negb (n =? 1)
                 | None => true
                 end
             | _ => true
             end) cells.

(** [solved_board] with 53 cells cleared, one after the other, each time
    with one solution left; clearing any of the 28 others leaves two. *)
Definition stuck_board : grid :=
  board_of
    [[0; 6; 0; 2; 0; 0; 5; 0; 0];
     [0; 0; 0; 0; 9; 1; 0; 0; 6];
     [3; 0; 7; 0; 0; 0; 1; 0; 2];
     [4; 0; 0; 0; 1; 7; 0; 0; 0];
     [0; 0; 0; 8; 0; 0; 0; 0; 0];
     [1; 0; 8; 5; 4; 9; 2; 0; 0];
     [0; 1; 0; 0; 7; 3; 4; 0; 0];
     [0; 0; 0; 0; 8; 0; 0; 0; 0];
     [0; 0; 5; 0; 0; 2; 0; 3; 0]]%Z.

(** The 53 cells, row then column, in the order in which they are
    cleared. *)
Definition stuck_order : list nat :=
  [8; 4; 8; 1; 7; 8; 1; 7; 2; 3; 7; 1; 4; 2; 2; 7; 3; 6; 6; 7; 7; 0; 1; 6;
   0; 7; 6; 8; 6; 0; 3; 2; 2; 4; 8; 8; 2; 5; 3; 3; 6; 3; 7; 2; 1; 0; 4; 4;
   0; 2; 5; 1; 5; 7; 0; 5; 3; 8; 4; 0; 4; 8; 2; 1; 6; 2; 4; 1; 7; 6; 4; 6;
   3; 7; 1; 3; 8; 0; 4; 5; 8; 3; 4; 7; 7; 3; 8; 6; 0; 0; 7; 7; 5; 8; 3; 1;
   0; 8; 0; 4; 1; 1; 1; 2; 7; 5].

(** The board that the seeding loops make of [easy_draws], and the board
    when they reach the cell (1, 1). *)
Definition easy_seeded : grid :=
  match seed_board easy_draws with
  | Some (seeded, _) => seeded
  | None => empty_board
  end.

Definition easy_seeding : grid :=
  match fill_diagonal (firstn 4 diagonal_cells) empty_board easy_draws with
  | Some (b, _) => b
  | None => empty_board
  end.

(* ================================================================== *)
(** * The game: [App.tsx] *)

(** The state of the [App] component and its handlers, as functions on the
    state.  Presentation is left out: the [settings] (colours, highlights,
    their copy in [localStorage]) and the JSX.

    - [useState]: the four pieces of state are the fields of [AppState];
      [setGameState(prev => ...)] is the function applied to the state.
      Every event finds the state as the last one left it: the component
      is rendered between two events, so that [prev] is the [gameState]
      the handler closed over.
    - A handler that can hit [undefined] (a cell outside the board) has a
      [result]: [Throws] is the TypeError of the script.
    - [notes: Set<number>] is a list without repetition, in insertion order.
    - [startNewGame] calls the generator: it takes the draws and answers
      [None] when they run out, like [generateSudoku]. *)
Module App.

(** [types.ts] *)
Record CellData := {
  value : option Z;
  fixed : bool;
  notes : list Z;
  error : bool
}.

(** What [JSON.parse(JSON.stringify(cell))] gives for a cell: the three
    plain fields as they are, and for the [notes] the empty object [{}]
    ([JSON.stringify] writes a [Set], which has no enumerable property of
    its own, as [{}]). *)
Inductive SavedNotes := EmptyObject.

Record SavedCell := {
  saved_value : option Z;
  saved_fixed : bool;
  saved_notes : SavedNotes;
  saved_error : bool
}.

Record GameState := {
  board : list (list CellData);
  solution : grid;
  difficulty : Difficulty;
  time : nat;
  errors : nat;
  maxErrors : nat;
  isPaused : bool;
  selectedCell : option (nat * nat);
  history : list (list (list SavedCell));
  zenMode : bool;
  focusMode : bool;
  noteMode : bool;
  isGameOver : bool;
  isWon : bool
}.

Record AppState := {
  gameState : option GameState;
  completedNumbers : list Z;
  isNewGameModalOpen : bool;
  showConfirmReset : option Difficulty
}.

(** The state before the first effect runs. *)
Definition initial : AppState :=
  {| gameState := None; completedNumbers := [];
     isNewGameModalOpen := false; showConfirmReset := None |}.

Inductive result (A : Type) : Type :=
| Done (a : A)
| Throws
| Beyond.
Arguments Done {A} a.
Arguments Throws {A}.
Arguments Beyond {A}.

Definition bind {A B : Type} (x : result A) (f : A -> result B) : result B :=
  match x with
  | Done a => f a
  | Throws => Throws
  | Beyond => Beyond
  end.

Fixpoint map_result {A B : Type} (f : A -> result B) (l : list A)
  : result (list B) :=
  match l with
  | [] => Done []
  | a :: l' => bind (f a) (fun b => bind (map_result f l') (fun bs => Done (b :: bs)))
  end.

(** [board[r][c]], [None] for [undefined]. *)
Definition cell_at {A : Type} (b : list (list A)) (r c : nat) : option A :=
  match nth_error b r with
  | Some line => nth_error line c
  | None => None
  end.

(** [board[r][c] = x] for a cell of the board. *)
Definition put_cell {A : Type} (b : list (list A)) (r c : nat) (x : A)
  : list (list A) :=
  match nth_error b r with
  | Some line => update b r (update line c x)
  | None => b
  end.

(** [{ ...prev, field: v }] *)
Definition with_game (st : AppState) (gs : GameState) : AppState :=
  {| gameState := Some gs; completedNumbers := completedNumbers st;
     isNewGameModalOpen := isNewGameModalOpen st;
     showConfirmReset := showConfirmReset st |}.

Definition with_selectedCell (gs : GameState) (rc : nat * nat) : GameState :=
  {| board := board gs; solution := solution gs; difficulty := difficulty gs;
     time := time gs; errors := errors gs; maxErrors := maxErrors gs;
     isPaused := isPaused gs; selectedCell := Some rc; history := history gs;
     zenMode := zenMode gs; focusMode := focusMode gs; noteMode := noteMode gs;
     isGameOver := isGameOver gs; isWon := isWon gs |}.

Definition with_isPaused (gs : GameState) (p : bool) : GameState :=
  {| board := board gs; solution := solution gs; difficulty := difficulty gs;
     time := time gs; errors := errors gs; maxErrors := maxErrors gs;
     isPaused := p; selectedCell := selectedCell gs; history := history gs;
     zenMode := zenMode gs; focusMode := focusMode gs; noteMode := noteMode gs;
     isGameOver := isGameOver gs; isWon := isWon gs |}.

Definition with_noteMode (gs : GameState) (n : bool) : GameState :=
  {| board := board gs; solution := solution gs; difficulty := difficulty gs;
     time := time gs; errors := errors gs; maxErrors := maxErrors gs;
     isPaused := isPaused gs; selectedCell := selectedCell gs;
     history := history gs; zenMode := zenMode gs; focusMode := focusMode gs;
     noteMode := n; isGameOver := isGameOver gs; isWon := isWon gs |}.

Definition with_time (gs : GameState) (t : nat) : GameState :=
  {| board := board gs; solution := solution gs; difficulty := difficulty gs;
     time := t; errors := errors gs; maxErrors := maxErrors gs;
     isPaused := isPaused gs; selectedCell := selectedCell gs;
     history := history gs; zenMode := zenMode gs; focusMode := focusMode gs;
     noteMode := noteMode gs; isGameOver := isGameOver gs; isWon := isWon gs |}.

(** [{ ...prev, isWon: true, isGameOver: true }] *)
Definition with_won (gs : GameState) : GameState :=
  {| board := board gs; solution := solution gs; difficulty := difficulty gs;
     time := time gs; errors := errors gs; maxErrors := maxErrors gs;
     isPaused := isPaused gs; selectedCell := selectedCell gs;
     history := history gs; zenMode := zenMode gs; focusMode := focusMode gs;
     noteMode := noteMode gs; isGameOver := true; isWon := true |}.

(** [{ ...prev, board, errors, isGameOver, history }] *)
Definition with_input (gs : GameState) (b : list (list CellData))
  (e : nat) (over : bool) (h : list (list (list SavedCell))) : GameState :=
  {| board := b; solution := solution gs; difficulty := difficulty gs;
     time := time gs; errors := e; maxErrors := maxErrors gs;
     isPaused := isPaused gs; selectedCell := selectedCell gs; history := h;
     zenMode := zenMode gs; focusMode := focusMode gs; noteMode := noteMode gs;
     isGameOver := over; isWon := isWon gs |}.

(** [{ ...prev, board, history }] *)
Definition with_board (gs : GameState) (b : list (list CellData))
  (h : list (list (list SavedCell))) : GameState :=
  with_input gs b (errors gs) (isGameOver gs) h.

(** ** [startNewGame] *)

Definition initialBoard (puzzle : grid) : list (list CellData) :=
  map (fun row =>
         map (fun val =>
                {| value := val;
                   fixed := match val with Some _ => true | None => false end;
                   notes := [];
                   error := false |})
             row)
      puzzle.

Definition startNewGame (difficulty : Difficulty) (zen : bool)
  (rnd : list nat) : option AppState :=
  match generateSudoku difficulty rnd with
  | None => None
  | Some (puzzle, solution) =>
      Some {| gameState :=
                Some {| board := initialBoard puzzle;
                        solution := solution;
                        difficulty := difficulty;
                        time := 0;
                        errors := 0;
                        maxErrors := if zen then 999 else 3;
                        isPaused := false;
                        selectedCell := None;
                        history := [];
                        zenMode := zen;
                        focusMode := false;
                        noteMode := false;
                        isGameOver := false;
                        isWon := false |};
              completedNumbers := [];
              isNewGameModalOpen := false;
              showConfirmReset := None |}
  end.

(** ** The effect on [gameState.board] *)

(** [counts[num]] after the two [forEach]. *)
Definition count_value (b : list (list CellData)) (num : Z) : nat :=
  length (filter (fun x => match value x with
                           | Some v => Z.eqb v num
                           | None => false
                           end)
                 (concat b)).

(** The numbers with [count === 9]; index 0 of [counts] is never
    incremented. *)
Definition completed (b : list (list CellData)) : list Z :=
  filter (fun num => count_value b num =? 9) digits.

(** [cell.value === w] *)
Definition same_value (v w : option Z) : bool :=
  match v, w with
  | None, None => true
  | Some a, Some b => Z.eqb a b
  | _, _ => false
  end.

(** [row.every((cell, c) => cell.value === gameState.solution[r][c])],
    from column [c] on; [solrow] is [gameState.solution[r]]. *)
Fixpoint every_cell (solrow : option (list cell)) (row : list CellData)
  (c : nat) : result bool :=
  match row with
  | [] => Done true
  | x :: row' =>
      match solrow with
      | None => Throws
      | Some line =>
          if match nth_error line c with
             | Some w => same_value (value x) w
             | None => false
             end
          then every_cell solrow row' (S c)
          else Done false
      end
  end.

Fixpoint every_row (sol : grid) (rows : list (list CellData)) (r : nat)
  : result bool :=
  match rows with
  | [] => Done true
  | row :: rows' =>
      match every_cell (nth_error sol r) row 0 with
      | Done true => every_row sol rows' (S r)
      | other => other
      end
  end.

Definition isComplete (gs : GameState) : result bool :=
  every_row (solution gs) (board gs) 0.

Definition completionEffect (st : AppState) : result AppState :=
  match gameState st with
  | None => Done st
  | Some gs =>
      bind (isComplete gs)
           (fun complete =>
              Done {| gameState :=
                        Some (if complete && negb (isWon gs) then with_won gs
                              else gs);
                      completedNumbers := completed (board gs);
                      isNewGameModalOpen := isNewGameModalOpen st;
                      showConfirmReset := showConfirmReset st |})
  end.

(** ** [handleInput] *)

(** [JSON.stringify(gameState.board)], read back by [JSON.parse]. *)
Definition saved (b : list (list CellData)) : list (list SavedCell) :=
  map (map (fun x => {| saved_value := value x; saved_fixed := fixed x;
                        saved_notes := EmptyObject;
                        saved_error := error x |}))
      b.

(** [notes.has(num)] *)
Definition has (ns : list Z) (num : Z) : bool := existsb (Z.eqb num) ns.

(** [notes.delete(num)] *)
Definition delete (ns : list Z) (num : Z) : list Z :=
  filter (fun n => negb (Z.eqb num n)) ns.

(** [if (notes.has(num)) notes.delete(num); else notes.add(num);] *)
Definition toggle (ns : list Z) (num : Z) : list Z :=
  if has ns num then delete ns num else ns ++ [num].

(** [newBoard[r][c].notes.delete(num)] *)
Definition delete_note (num : Z) (b : list (list CellData)) (rc : nat * nat)
  : result (list (list CellData)) :=
  match cell_at b (fst rc) (snd rc) with
  | Some x =>
      Done (put_cell b (fst rc) (snd rc)
                     {| value := value x; fixed := fixed x;
                        notes := delete (notes x) num; error := error x |})
  | None => Throws
  end.

Fixpoint delete_notes (num : Z) (cs : list (nat * nat))
  (b : list (list CellData)) : result (list (list CellData)) :=
  match cs with
  | [] => Done b
  | rc :: cs' => bind (delete_note num b rc) (delete_notes num cs')
  end.

(** The cells visited by the loop [for (let i = 0; i < 9; i++)]: those of
    the row, the column and the box of [(r, c)]. *)
Definition swept (r c : nat) : list (nat * nat) :=
  flat_map (fun i => [(r, i); (i, c);
                      (r - r mod 3 + i / 3, c - c mod 3 + i mod 3)])
           (upto 9).

(** [num !== prev.solution[r][c]] for a number [num]. *)
Definition differs (sol : grid) (r c : nat) (num : Z) : result bool :=
  match nth_error sol r with
  | None => Throws
  | Some line =>
      Done (match nth_error line c with
            | Some (Some v) => negb (Z.eqb num v)
            | _ => true
            end)
  end.

(** The function given to [setGameState] by [handleInput]. *)
Definition input_update (r c : nat) (num : option Z)
  (historySnapshot : list (list SavedCell)) (prev : GameState)
  : result GameState :=
  match cell_at (board prev) r c with
  | None => Throws
  | Some cell =>
      bind
        (match noteMode prev, num with
         | true, Some n =>
             Done (put_cell (board prev) r c
                            {| value := None; fixed := fixed cell;
                               notes := toggle (notes cell) n;
                               error := error cell |})
         | _, _ =>
             bind (match num with
                   | Some n => differs (solution prev) r c n
                   | None => Done false
                   end)
                  (fun isError =>
                     let newBoard :=
                       put_cell (board prev) r c
                                {| value := num; fixed := fixed cell;
                                   notes := []; error := isError |} in
                     match num, isError with
                     | Some n, false => delete_notes n (swept r c) newBoard
                     | _, _ => Done newBoard
                     end)
         end)
        (fun newBoard =>
           bind (match noteMode prev, num with
                 | false, Some n => differs (solution prev) r c n
                 | _, _ => Done false
                 end)
                (fun wrong =>
                   let newErrors :=
                     if wrong then errors prev + 1 else errors prev in
                   Done (with_input prev newBoard newErrors
                                    (maxErrors prev <=? newErrors)
                                    (firstn 20 (historySnapshot :: history prev)))))
  end.

(** The cell [handleInput] will write: [Done None] when it returns at
    once. *)
Definition input_target (st : AppState)
  : result (option (nat * nat * GameState)) :=
  match gameState st with
  | None => Done None
  | Some gs =>
      match selectedCell gs with
      | None => Done None
      | Some (r, c) =>
          if isPaused gs || isGameOver gs || isNewGameModalOpen st
          then Done None
          else
            match cell_at (board gs) r c with
            | None => Throws
            | Some cell =>
                if fixed cell then Done None else Done (Some (r, c, gs))
            end
      end
  end.

Definition handleInput (num : option Z) (st : AppState) : result AppState :=
  bind (input_target st)
       (fun target =>
          match target with
          | None => Done st
          | Some (r, c, gs) =>
              bind (input_update r c num (saved (board gs)) gs)
                   (fun gs' => Done (with_game st gs'))
          end).

(** ** [undo] *)

(** [new Set(x)] for the object [{}], which is not iterable. *)
Definition new_Set (x : SavedNotes) : result (list Z) :=
  match x with
  | EmptyObject => Throws
  end.

(** [{ ...cell, notes: new Set(cell.notes) }] *)
Definition restore_cell (s : SavedCell) : result CellData :=
  bind (new_Set (saved_notes s))
       (fun ns => Done {| value := saved_value s; fixed := saved_fixed s;
                          notes := ns; error := saved_error s |}).

Definition undo (st : AppState) : result AppState :=
  match gameState st with
  | None => Done st
  | Some prev =>
      match history prev with
      | [] => Done st
      | lastBoard :: rest =>
          bind (map_result (map_result restore_cell) lastBoard)
               (fun restoredBoard =>
                  Done (with_game st (with_board prev restoredBoard rest)))
      end
  end.

(** ** The other handlers *)

(** [handleInput(gameState.solution[r][c])]; [Beyond] when the cell read is
    [undefined]. *)
Definition hint (st : AppState) : result AppState :=
  match gameState st with
  | None => Done st
  | Some gs =>
      match selectedCell gs with
      | None => Done st
      | Some (r, c) =>
          if isGameOver gs then Done st
          else
            match nth_error (solution gs) r with
            | None => Throws
            | Some line =>
                match nth_error line c with
                | None => Beyond
                | Some num => handleInput num st
                end
            end
      end
  end.

Definition handleCellSelect (r c : nat) (st : AppState) : AppState :=
  match gameState st with
  | None => st
  | Some gs =>
      if isPaused gs || isGameOver gs || isNewGameModalOpen st then st
      else with_game st (with_selectedCell gs (r, c))
  end.

Definition hasProgress (st : AppState) : bool :=
  match gameState st with
  | None => false
  | Some gs =>
      existsb
        (fun row =>
           existsb (fun cell =>
                      negb (fixed cell) &&
                      (match value cell with Some _ => true | None => false end
                       || (0 <? length (notes cell))))
                   row)
        (board gs)
  end.

(** [handleDifficultyClick(d)]: ask for a confirmation, or start at once
    with the draws [rnd]. *)
Definition handleDifficultyClick (d : Difficulty) (rnd : list nat)
  (st : AppState) : option AppState :=
  if hasProgress st then
    Some {| gameState := gameState st;
            completedNumbers := completedNumbers st;
            isNewGameModalOpen := isNewGameModalOpen st;
            showConfirmReset := Some d |}
  else
    startNewGame d (match gameState st with
                    | Some gs => zenMode gs
                    | None => false
                    end) rnd.

(** The button [Pausar]/[Resumir], the button of the pause screen, and the
    button and the key for the notes. *)
Definition togglePause (st : AppState) : AppState :=
  match gameState st with
  | None => st
  | Some gs => with_game st (with_isPaused gs (negb (isPaused gs)))
  end.

Definition resume (st : AppState) : AppState :=
  match gameState st with
  | None => st
  | Some gs => with_game st (with_isPaused gs false)
  end.

Definition toggleNoteMode (st : AppState) : AppState :=
  match gameState st with
  | None => st
  | Some gs => with_game st (with_noteMode gs (negb (noteMode gs)))
  end.

Definition setIsNewGameModalOpen (open : bool) (st : AppState) : AppState :=
  {| gameState := gameState st; completedNumbers := completedNumbers st;
     isNewGameModalOpen := open; showConfirmReset := showConfirmReset st |}.

Definition setShowConfirmReset (d : option Difficulty) (st : AppState)
  : AppState :=
  {| gameState := gameState st; completedNumbers := completedNumbers st;
     isNewGameModalOpen := isNewGameModalOpen st; showConfirmReset := d |}.

(** One tick of the interval, which runs while the game does. *)
Definition tick (st : AppState) : AppState :=
  match gameState st with
  | None => st
  | Some gs =>
      if negb (isPaused gs) && negb (isGameOver gs) && negb (isWon gs)
         && negb (zenMode gs) && negb (isNewGameModalOpen st)
      then with_game st (with_time gs (time gs + 1))
      else st
  end.

Definition isRelated (gs : GameState) (r c : nat) : bool :=
  match selectedCell gs with
  | None => false
  | Some (sr, sc) =>
      (r =? sr) || (c =? sc) ||
      ((sr - sr mod 3 =? r - r mod 3) && (sc - sc mod 3 =? c - c mod 3))
  end.

Definition isIdentical (gs : GameState) (val : option Z) : result bool :=
  match selectedCell gs, val with
  | Some (sr, sc), Some v =>
      match cell_at (board gs) sr sc with
      | Some x => Done (same_value (value x) (Some v))
      | None => Throws
      end
  | _, _ => Done false
  end.

(** ** Runs of the game *)

(** What the user and the clock can do; a new game comes with the draws its
    generator will see. *)
Inductive event :=
| NewGame (d : Difficulty) (zen : bool) (rnd : list nat)
| DifficultyClick (d : Difficulty) (rnd : list nat)
| Input (num : option Z)
| Hint
| Undo
| Select (r c : nat)
| TogglePause
| Resume
| ToggleNoteMode
| OpenModal (open : bool)
| ConfirmReset (d : option Difficulty)
| Tick.

(** The handler of the event, then the effect when the handler has put a
    new board in the state.  [None]: the generator ran out of draws. *)
Definition dispatch (e : event) (st : AppState) : option (result AppState) :=
  match e with
  | NewGame d zen rnd =>
      option_map completionEffect (startNewGame d zen rnd)
  | DifficultyClick d rnd =>
      if hasProgress st then option_map Done (handleDifficultyClick d rnd st)
      else option_map completionEffect (handleDifficultyClick d rnd st)
  | Input num =>
      Some (match input_target st with
            | Done None => Done st
            | _ => bind (handleInput num st) completionEffect
            end)
  | Hint =>
      Some (match input_target st with
            | Done None => hint st
            | _ => bind (hint st) completionEffect
            end)
  | Undo =>
      Some (match gameState st with
            | Some gs =>
                match history gs with
                | [] => Done st
                | _ => bind (undo st) completionEffect
                end
            | None => Done st
            end)
  | Select r c => Some (Done (handleCellSelect r c st))
  | TogglePause => Some (Done (togglePause st))
  | Resume => Some (Done (resume st))
  | ToggleNoteMode => Some (Done (toggleNoteMode st))
  | OpenModal open => Some (Done (setIsNewGameModalOpen open st))
  | ConfirmReset d => Some (Done (setShowConfirmReset d st))
  | Tick => Some (Done (tick st))
  end.

(** The draws of an event are values of [Math.floor(Math.random() * 9)]. *)
Definition event_ok (e : event) : Prop :=
  match e with
  | NewGame _ _ rnd => draws_ok rnd
  | DifficultyClick _ rnd => draws_ok rnd
  | _ => True
  end.

(** The states of the game after any number of events. *)
Inductive reachable : AppState -> Prop :=
| reach_initial : reachable initial
| reach_step e st st' :
    reachable st -> event_ok e -> dispatch e st = Some (Done st') ->
    reachable st'.

(** The numbers on the board. *)
Definition values (b : list (list CellData)) : grid := map (map value) b.

(** The numbers of the fixed cells. *)
Definition givens (b : list (list CellData)) : grid :=
  map (map (fun x => if fixed x then value x else None)) b.

(** A board of 9 rows of 9 cells. *)
Definition rect9 {A : Type} (b : list (list A)) : Prop :=
  length b = 9 /\ Forall (fun row => length row = 9) b.

(** What every state of a run satisfies: the board and the solution are
    9x9; the fixed cells are a puzzle whose only completion is the solution;
    a number without the error flag is the solution's, a number with the
    flag is not; the errors stay within their limit, 3 or 999; the history
    keeps at most 20 boards... *)
Definition board_inv (gs : GameState) : Prop :=
  rect9 (board gs) /\
  solved (solution gs) /\
  extends (givens (board gs)) (solution gs) /\
  (forall s, completion (givens (board gs)) s -> s = solution gs) /\
  (forall r c x, cell_at (board gs) r c = Some x ->
     (fixed x = true ->
      error x = false /\ value x <> None /\ notes x = []) /\
     (forall v, value x = Some v ->
        (error x = false <-> get (solution gs) r c = Some (Some v)))) /\
  errors gs <= maxErrors gs /\
  maxErrors gs = (if zenMode gs then 999 else 3) /\
  isGameOver gs = isWon gs || (maxErrors gs <=? errors gs) /\
  length (history gs) <= 20 /\ Forall rect9 (history gs).

(** ... and the effect has compared the board with the solution. *)
Definition game_inv (gs : GameState) : Prop :=
  board_inv gs /\ isComplete gs = Done (isWon gs).

Definition app_inv (st : AppState) : Prop :=
  match gameState st with
  | None => True
  | Some gs => game_inv gs /\ completedNumbers st = completed (board gs)
  end.

(** The fixed cells of a board. *)
Definition fixed_cells (b : list (list CellData)) : list (nat * nat) :=
  filter (fun rc => match cell_at b (fst rc) (snd rc) with
                    | Some x => fixed x
                    | None => false
                    end) cells.

(** ** Example runs *)

(** The state after the events [es], each one accepted; [None] when an
    event throws or a generator runs out of draws. *)
Fixpoint run (es : list event) (st : AppState) : option AppState :=
  match es with
  | [] => Some st
  | e :: es' =>
      match dispatch e st with
      | Some (Done st') => run es' st'
      | _ => None
      end
  end.

Definition event_okb (e : event) : bool :=
  match e with
  | NewGame _ _ rnd => forallb (fun x => x <? 9) rnd
  | DifficultyClick _ rnd => forallb (fun x => x <? 9) rnd
  | _ => true
  end.

(** The game that [startNewGame] makes of [puzzle_board]. *)
Definition easy_game : GameState :=
  {| board := initialBoard puzzle_board; solution := solved_board;
     difficulty := EASY; time := 0; errors := 0; maxErrors := 3;
     isPaused := false; selectedCell := None; history := [];
     zenMode := false; focusMode := false; noteMode := false;
     isGameOver := false; isWon := false |}.

Definition state_after (es : list event) : AppState :=
  match run es initial with
  | Some st => st
  | None => initial
  end.

Definition game_after (es : list event) : GameState :=
  match gameState (state_after es) with
  | Some gs => gs
  | None => easy_game
  end.

(** A new game, with the first empty cell selected. *)
Definition opening : list event :=
  [NewGame EASY false easy_draws; Select 0 2].

(** The same with note mode on and the note 5 on the cell. *)
Definition noting : list event :=
  opening ++ [ToggleNoteMode; Input (Some 5%Z)].

(** A wrong number on the cell. *)
Definition erring : list event := opening ++ [Input (Some 9%Z)].

(** Three wrong numbers on the cell: the game is lost. *)
Definition losing : list event :=
  opening ++ [Input (Some 9%Z); Input (Some 9%Z); Input (Some 9%Z)].

(** A hint on every cell: the game is won. *)
Definition winning : list event :=
  NewGame EASY false easy_draws ::
  flat_map (fun rc => [Select (fst rc) (snd rc); Hint]) cells.

End App.

(* ================================================================== *)
(** * Lists and boards *)

Lemma update_length (A : Type) (l : list A) i x :
  length (update l i x) = length l.
Proof.
  revert i; induction l as [|h t IH]; intros [|i]; simpl; auto.
Qed.

Lemma nth_error_update_eq (A : Type) (l : list A) i x :
  i < length l -> nth_error (update l i x) i = Some x.
Proof.
  revert i; induction l as [|h t IH]; intros [|i] H; simpl in *; try lia; auto.
  apply IH; lia.
Qed.

Lemma nth_error_update_ne (A : Type) (l : list A) i j x :
  i <> j -> nth_error (update l i x) j = nth_error l j.
Proof.
  revert i j; induction l as [|h t IH]; intros [|i] [|j] H; simpl; auto.
  congruence.
Qed.

Lemma update_update (A : Type) (l : list A) i x y :
  update (update l i x) i y = update l i y.
Proof.
  revert i; induction l as [|h t IH]; intros [|i]; simpl; auto.
  now rewrite IH.
Qed.

Lemma update_same (A : Type) (l : list A) i x :
  nth_error l i = Some x -> update l i x = l.
Proof.
  revert i; induction l as [|h t IH]; intros [|i] H; simpl in *; auto.
  - congruence.
  - now rewrite IH.
Qed.

Lemma get_set_eq b r c v0 v :
  get b r c = Some v0 -> get (set b r c v) r c = Some v.
Proof.
  unfold get, set. destruct (nth_error b r) as [line|] eqn:E; [|discriminate].
  intros H. rewrite nth_error_update_eq.
  - apply nth_error_update_eq. apply nth_error_Some. congruence.
  - apply nth_error_Some. congruence.
Qed.

Lemma get_set_ne b r c v r' c' :
  (r, c) <> (r', c') -> get (set b r c v) r' c' = get b r' c'.
Proof.
  intros H. unfold get, set.
  destruct (nth_error b r) as [line|] eqn:E; auto.
  destruct (Nat.eq_dec r r') as [->|Hr].
  - rewrite nth_error_update_eq by (apply nth_error_Some; congruence).
    rewrite E. apply nth_error_update_ne. congruence.
  - now rewrite nth_error_update_ne.
Qed.

Lemma set_set b r c x y :
  set (set b r c x) r c y = set b r c y.
Proof.
  unfold set. destruct (nth_error b r) as [line|] eqn:E.
  - rewrite nth_error_update_eq by (apply nth_error_Some; congruence).
    now rewrite !update_update.
  - now rewrite E.
Qed.

Lemma set_same b r c v :
  get b r c = Some v -> set b r c v = b.
Proof.
  unfold get, set. destruct (nth_error b r) as [line|] eqn:E; auto.
  intros H. rewrite (update_same _ _ _ _ H). now apply update_same.
Qed.

(** Writing a cell and writing back what it held restores the board. *)
Lemma set_restore b r c v0 v :
  get b r c = Some v0 -> set (set b r c v) r c v0 = b.
Proof.
  intros H. rewrite set_set. now apply set_same.
Qed.

Lemma set_shape b r c v : shape b -> shape (set b r c v).
Proof.
  intros [Hl Hf]. unfold set.
  destruct (nth_error b r) as [line|] eqn:E; [|now split].
  split; [now rewrite update_length|].
  apply Forall_forall. intros l Hin.
  apply In_nth_error in Hin. destruct Hin as [k Hk].
  destruct (Nat.eq_dec r k) as [->|Hne].
  - rewrite nth_error_update_eq in Hk by (apply nth_error_Some; congruence).
    inversion Hk; subst. rewrite update_length.
    rewrite Forall_forall in Hf. apply Hf. eapply nth_error_In; eauto.
  - rewrite nth_error_update_ne in Hk by auto.
    rewrite Forall_forall in Hf. apply Hf. eapply nth_error_In; eauto.
Qed.

Lemma shape_get b r c :
  shape b -> r < 9 -> c < 9 -> exists v, get b r c = Some v.
Proof.
  intros [Hl Hf] Hr Hc. unfold get.
  destruct (nth_error b r) as [line|] eqn:E.
  - assert (Hlen : length line = 9).
    { rewrite Forall_forall in Hf. apply Hf. eapply nth_error_In; eauto. }
    destruct (nth_error line c) eqn:E2; eauto.
    apply nth_error_None in E2. lia.
  - apply nth_error_None in E. lia.
Qed.

Lemma in_cells r c : In (r, c) cells <-> r < 9 /\ c < 9.
Proof.
  unfold cells, upto. rewrite in_flat_map. split.
  - intros (x & Hx & Hin). apply in_map_iff in Hin.
    destruct Hin as (y & Heq & Hy). inversion Heq; subst.
    apply in_seq in Hx. apply in_seq in Hy. lia.
  - intros [Hr Hc]. exists r. split; [apply in_seq; lia|].
    apply in_map_iff. exists c. split; auto. apply in_seq; lia.
Qed.

Lemma NoDup_cells : NoDup cells.
Proof.
  unfold cells. repeat constructor; simpl; intuition congruence.
Qed.

(* ================================================================== *)
(** * The constraint checker *)

Lemma holds_iff b r c num :
  holds b r c num = true <-> get b r c = Some (Some num).
Proof.
  unfold holds. destruct (get b r c) as [[v|]|]; split; try discriminate.
  - intros H. apply Z.eqb_eq in H. now subst.
  - intros H. inversion H. apply Z.eqb_refl.
Qed.

Lemma in_upto x n : In x (upto n) <-> x < n.
Proof. unfold upto. rewrite in_seq. lia. Qed.

Lemma row_scan b row num :
  existsb (fun x => holds b row x num) (upto 9) = true <-> in_row b row num.
Proof.
  rewrite existsb_exists. unfold in_row.
  split; intros (x & Hx & H); exists x;
    rewrite in_upto, holds_iff in *; auto.
Qed.

Lemma col_scan b col num :
  existsb (fun x => holds b x col num) (upto 9) = true <-> in_col b col num.
Proof.
  rewrite existsb_exists. unfold in_col.
  split; intros (x & Hx & H); exists x;
    rewrite in_upto, holds_iff in *; auto.
Qed.

Lemma box_scan b row col num :
  existsb
    (fun i => existsb
                (fun j => holds b (i + (row - row mod 3))
                                (j + (col - col mod 3)) num)
                (upto 3))
    (upto 3) = true <-> in_box b row col num.
Proof.
  rewrite existsb_exists. unfold in_box. split.
  - intros (i & Hi & H). apply existsb_exists in H.
    destruct H as (j & Hj & H). exists i, j.
    rewrite in_upto in *. rewrite holds_iff in H. auto.
  - intros (i & j & Hi & Hj & H). exists i. rewrite in_upto. split; auto.
    apply existsb_exists. exists j. rewrite in_upto, holds_iff. auto.
Qed.

Lemma isValid_false_iff b row col num :
  isValid b row col num = false <->
  in_row b row num \/ in_col b col num \/ in_box b row col num.
Proof.
  unfold isValid.
  rewrite <- row_scan, <- col_scan, <- box_scan.
  destruct (existsb _ (upto 9)); [intuition|].
  destruct (existsb _ (upto 9)); [intuition|].
  destruct (existsb _ (upto 3)); intuition discriminate.
Qed.

Lemma isValid_true_iff b row col num :
  isValid b row col num = true <->
  ~ (in_row b row num \/ in_col b col num \/ in_box b row col num).
Proof.
  rewrite <- isValid_false_iff.
  destruct (isValid b row col num); intuition discriminate.
Qed.

(** The box of a cell, by origin and by quotient. *)
Lemma box_origin r : r - r mod 3 = 3 * (r / 3).
Proof. pose proof (Nat.div_mod_eq r 3). lia. Qed.

Lemma same_box_iff r r' :
  r / 3 = r' / 3 <-> exists i, i < 3 /\ r' = i + (r - r mod 3).
Proof.
  rewrite box_origin. split.
  - intros H. exists (r' mod 3). split.
    + apply Nat.mod_upper_bound. lia.
    + rewrite H. pose proof (Nat.div_mod_eq r' 3). lia.
  - intros (i & Hi & ->).
    rewrite Nat.add_comm, Nat.mul_comm, Nat.div_add_l by lia.
    rewrite (Nat.div_small i 3) by lia. lia.
Qed.

(** A number is rejected exactly when it is already in a unit of the cell. *)
Lemma isValid_false_unit b row col num :
  row < 9 -> col < 9 ->
  (isValid b row col num = false <->
   exists r' c', r' < 9 /\ c' < 9 /\ get b r' c' = Some (Some num) /\
                 same_unit row col r' c').
Proof.
  intros Hr Hc. rewrite isValid_false_iff. split.
  - intros [(x & Hx & H) | [(x & Hx & H) | (i & j & Hi & Hj & H)]].
    + exists row, x. unfold same_unit. auto.
    + exists x, col. unfold same_unit. auto 6.
    + exists (i + (row - row mod 3)), (j + (col - col mod 3)).
      pose proof (Nat.mod_upper_bound row 3).
      pose proof (Nat.mod_upper_bound col 3).
      pose proof (Nat.div_mod_eq row 3). pose proof (Nat.div_mod_eq col 3).
      repeat split; try lia; auto.
      right; right. split; apply same_box_iff; eauto.
  - intros (r' & c' & Hr' & Hc' & H & [-> | [-> | [Hb1 Hb2]]]).
    + left. exists c'. auto.
    + right; left. exists r'. auto.
    + right; right. apply same_box_iff in Hb1, Hb2.
      destruct Hb1 as (i & Hi & ->). destruct Hb2 as (j & Hj & ->).
      exists i, j. auto.
Qed.

(* ================================================================== *)
(** * The scan for the first empty cell *)

Lemma find_hd_filter (A : Type) (f : A -> bool) l :
  find f l = hd_error (filter f l).
Proof.
  induction l as [|a l IH]; simpl; auto. destruct (f a); auto.
Qed.

Lemma first_empty_hd b : first_empty b = hd_error (empty_cells b).
Proof. apply find_hd_filter. Qed.

Lemma is_null_iff b r c : is_null b r c = true <-> get b r c = Some None.
Proof.
  unfold is_null. destruct (get b r c) as [[v|]|]; split; intros H;
    try discriminate H; reflexivity.
Qed.

Lemma first_empty_Some b r c :
  first_empty b = Some (r, c) -> get b r c = Some None /\ r < 9 /\ c < 9.
Proof.
  intros H. apply find_some in H. destruct H as [Hin H].
  apply in_cells in Hin. apply is_null_iff in H. auto.
Qed.

Lemma first_empty_None b r c :
  first_empty b = None -> r < 9 -> c < 9 -> get b r c <> Some None.
Proof.
  intros H Hr Hc Hg.
  pose proof (find_none _ _ H (r, c)) as Hn. simpl in Hn.
  rewrite (proj2 (is_null_iff b r c) Hg) in Hn.
  discriminate Hn. now apply in_cells.
Qed.

Lemma filter_switch_off (A : Type) (f g : A -> bool) x l rest :
  NoDup l -> (forall y, y <> x -> g y = f y) -> g x = false ->
  filter f l = x :: rest -> filter g l = rest.
Proof.
  intros Hnd Hfg Hgx. revert rest.
  induction Hnd as [|a l Hna Hnd IH]; simpl; intros rest H; [discriminate|].
  destruct (f a) eqn:Efa.
  - inversion H; subst. rewrite Hgx.
    apply filter_ext_in. intros y Hy. apply Hfg. intros ->. contradiction.
  - assert (Hax : a <> x).
    { intros ->. assert (Hin : In x (filter f l)) by (rewrite H; simpl; auto).
      apply filter_In in Hin. tauto. }
    rewrite Hfg by auto. rewrite Efa. now apply IH.
Qed.

Lemma is_null_set_other b r c v r' c' :
  (r', c') <> (r, c) -> is_null (set b r c v) r' c' = is_null b r' c'.
Proof.
  intros H. unfold is_null. rewrite get_set_ne; auto.
Qed.

(** Filling the first empty cell removes it from the empty cells. *)
Lemma empty_cells_fill b r c num :
  first_empty b = Some (r, c) ->
  empty_cells b = (r, c) :: empty_cells (set b r c (Some num)).
Proof.
  intros H. pose proof (first_empty_Some _ _ _ H) as (Hg & _ & _).
  rewrite first_empty_hd in H.
  destruct (empty_cells b) as [|x rest] eqn:E; [discriminate|].
  simpl in H. inversion H; subst x. f_equal. symmetry.
  unfold empty_cells in *.
  eapply filter_switch_off; [apply NoDup_cells | | | exact E].
  - intros [r' c'] Hne. simpl. now apply is_null_set_other.
  - simpl. unfold is_null. now rewrite (get_set_eq _ _ _ _ _ Hg).
Qed.

Lemma fuel_fill b r c num fuel :
  first_empty b = Some (r, c) ->
  length (empty_cells b) < S fuel ->
  length (empty_cells (set b r c (Some num))) < fuel.
Proof.
  intros H. rewrite (empty_cells_fill _ _ _ num H). simpl. lia.
Qed.

(* ================================================================== *)
(** * The searches, in terms of the uncut enumeration *)

Lemma try_nums_outcome rec enum b r c :
  get b r c = Some None ->
  (forall num, rec (set b r c (Some num)) =
               Some (outcome (enum (set b r c (Some num)))
                             (set b r c (Some num)))) ->
  forall nums,
    try_nums rec r c nums b =
    Some (outcome (flat_map (branch enum b r c) nums) b).
Proof.
  intros Hg Hrec. induction nums as [|num rest IH]; simpl; auto.
  unfold branch at 1. destruct (isValid b r c num); auto.
  rewrite Hrec. destruct (enum (set b r c (Some num))) as [|s l]; simpl; auto.
  rewrite (set_restore _ _ _ _ _ Hg). apply IH.
Qed.

Lemma solve_S fuel b :
  solve (S fuel) b =
  match first_empty b with
  | None => Some (true, b)
  | Some (row, col) => try_nums (solve fuel) row col digits b
  end.
Proof. reflexivity. Qed.

Lemma csolve_S fuel b count :
  csolve (S fuel) b count =
  match first_empty b with
  | None => Some (b, S count)
  | Some (row, col) => count_nums (csolve fuel) row col digits b count
  end.
Proof. reflexivity. Qed.

Lemma completions_S fuel b :
  completions (S fuel) b =
  match first_empty b with
  | None => [b]
  | Some (row, col) => flat_map (branch (completions fuel) b row col) digits
  end.
Proof. reflexivity. Qed.

Lemma solve_outcome fuel : forall b,
  length (empty_cells b) < fuel ->
  solve fuel b = Some (outcome (completions fuel b) b).
Proof.
  induction fuel as [|fuel IH]; intros b Hf; [lia|].
  rewrite solve_S, completions_S.
  destruct (first_empty b) as [[r c]|] eqn:E; auto.
  apply try_nums_outcome.
  - now apply first_empty_Some in E.
  - intros num. apply IH. eapply fuel_fill; eauto.
Qed.

Lemma count_nums_length rec enum b r c :
  get b r c = Some None ->
  (forall num count, count <= 1 ->
     rec (set b r c (Some num)) count =
     Some (set b r c (Some num),
           Nat.min 2 (count + length (enum (set b r c (Some num)))))) ->
  forall nums count, count <= 1 ->
    count_nums rec r c nums b count =
    Some (b, Nat.min 2 (count + length (flat_map (branch enum b r c) nums))).
Proof.
  intros Hg Hrec.
  induction nums as [|num rest IH]; cbn [count_nums flat_map length];
    intros count Hc.
  - f_equal. f_equal. lia.
  - unfold branch at 1. destruct (isValid b r c num); [|now apply IH].
    rewrite Hrec by auto. rewrite (set_restore _ _ _ _ _ Hg).
    rewrite length_app.
    set (n := length (enum (set b r c (Some num)))).
    destruct (1 <? Nat.min 2 (count + n)) eqn:E.
    + apply Nat.ltb_lt in E. f_equal. f_equal. lia.
    + apply Nat.ltb_ge in E. rewrite IH by lia. f_equal. f_equal. lia.
Qed.

Lemma csolve_length fuel : forall b count,
  length (empty_cells b) < fuel -> count <= 1 ->
  csolve fuel b count =
  Some (b, Nat.min 2 (count + length (completions fuel b))).
Proof.
  induction fuel as [|fuel IH]; intros b count Hf Hc; [lia|].
  rewrite csolve_S, completions_S.
  destruct (first_empty b) as [[r c]|] eqn:E.
  - apply count_nums_length; auto.
    + now apply first_empty_Some in E.
    + intros num k Hk. apply IH; auto. eapply fuel_fill; eauto.
  - cbn [length]. f_equal. f_equal. lia.
Qed.

Lemma count_nums_step rec row col num rest b count b' count' :
  isValid b row col num = true ->
  rec (set b row col (Some num)) count = Some (b', count') ->
  (1 < count' ->
   count_nums rec row col (num :: rest) b count =
   Some (set b' row col None, count')) /\
  (count' <= 1 ->
   count_nums rec row col (num :: rest) b count =
   count_nums rec row col rest (set b' row col None) count').
Proof.
  intros Hv Hrec. cbn [count_nums]. rewrite Hv, Hrec. split; intros H.
  - replace (1 <? count') with true by (symmetry; now apply Nat.ltb_lt).
    reflexivity.
  - replace (1 <? count') with false by (symmetry; apply Nat.ltb_ge; lia).
    reflexivity.
Qed.

Lemma count_nums_agree rec rec' row col :
  (forall b count, count <= 1 -> rec' b count = rec b count) ->
  forall nums b count, count <= 1 ->
    count_nums rec' row col nums b count = count_nums rec row col nums b count.
Proof.
  intros Hrec. induction nums as [|num rest IH]; intros b count Hc;
    cbn [count_nums]; [reflexivity|].
  destruct (isValid b row col num); [|now apply IH].
  rewrite (Hrec _ _ Hc).
  destruct (rec (set b row col (Some num)) count) as [[b' count']|];
    [|reflexivity].
  destruct (1 <? count') eqn:E; [reflexivity|].
  apply IH. apply Nat.ltb_ge in E. lia.
Qed.

Lemma csolve_asserting_csolve fuel : forall b count,
  count <= 1 -> csolve_asserting fuel b count = csolve fuel b count.
Proof.
  induction fuel as [|fuel IH]; intros b count Hc; [reflexivity|].
  cbn [csolve_asserting csolve].
  replace (1 <? count) with false by (symmetry; apply Nat.ltb_ge; lia).
  destruct (first_empty b) as [[row col]|]; [|reflexivity].
  now apply count_nums_agree.
Qed.

(* ================================================================== *)
(** * What the uncut enumeration enumerates *)

Lemma in_digits num : In num digits <-> (1 <= num <= 9)%Z.
Proof.
  unfold digits. simpl. split.
  - intros H. repeat (destruct H as [H|H]; [lia|]). contradiction.
  - intros H.
    assert (num = 1 \/ num = 2 \/ num = 3 \/ num = 4 \/ num = 5 \/ num = 6 \/
            num = 7 \/ num = 8 \/ num = 9)%Z by lia.
    intuition.
Qed.

Lemma grid_ext b s :
  shape b -> shape s ->
  (forall r c, r < 9 -> c < 9 -> get b r c = get s r c) -> b = s.
Proof.
  intros [Hlb Hfb] [Hls Hfs] H. apply nth_error_ext. intros n.
  destruct (Nat.lt_ge_cases n 9) as [Hn|Hn].
  - destruct (nth_error b n) as [l1|] eqn:E1;
      [|apply nth_error_None in E1; lia].
    destruct (nth_error s n) as [l2|] eqn:E2;
      [|apply nth_error_None in E2; lia].
    f_equal. apply nth_error_ext. intros m.
    assert (H1 : length l1 = 9).
    { rewrite Forall_forall in Hfb. apply Hfb. eapply nth_error_In; eauto. }
    assert (H2 : length l2 = 9).
    { rewrite Forall_forall in Hfs. apply Hfs. eapply nth_error_In; eauto. }
    destruct (Nat.lt_ge_cases m 9) as [Hm|Hm].
    + specialize (H n m Hn Hm). unfold get in H. now rewrite E1, E2 in H.
    + rewrite (proj2 (nth_error_None l1 m)) by lia.
      rewrite (proj2 (nth_error_None l2 m)) by lia. reflexivity.
  - rewrite (proj2 (nth_error_None b n)) by lia.
    rewrite (proj2 (nth_error_None s n)) by lia. reflexivity.
Qed.

Lemma extends_refl b : extends b b.
Proof. intros r c v _ _ H. exact H. Qed.

Lemma extends_fill b r c num s :
  get b r c = Some None -> extends (set b r c (Some num)) s -> extends b s.
Proof.
  intros Hg He r' c' v Hr Hc H. apply He; auto.
  rewrite get_set_ne; auto. intros Heq. inversion Heq; subst.
  rewrite Hg in H. discriminate.
Qed.

Lemma full_of_no_empty b : shape b -> first_empty b = None -> full b.
Proof.
  intros Hs Hn r c Hr Hc.
  destruct (shape_get b r c Hs Hr Hc) as [[v|] Hv]; [now exists v|].
  exfalso. exact (first_empty_None b r c Hn Hr Hc Hv).
Qed.

Lemma same_unit_sym r c r' c' : same_unit r c r' c' -> same_unit r' c' r c.
Proof. unfold same_unit. intuition. Qed.

Lemma in_range_fill b r c num :
  in_range b -> (1 <= num <= 9)%Z -> get b r c = Some None ->
  in_range (set b r c (Some num)).
Proof.
  intros Hb Hn Hg r' c' v Hr' Hc' H.
  destruct (Nat.eq_dec r r') as [<-|Hr]; [destruct (Nat.eq_dec c c') as [<-|Hc]|].
  - rewrite (get_set_eq _ _ _ _ _ Hg) in H. inversion H; subst. exact Hn.
  - rewrite get_set_ne in H by congruence. eauto.
  - rewrite get_set_ne in H by congruence. eauto.
Qed.

Lemma get_set_cases b r c v0 v r' c' :
  get b r c = Some v0 ->
  (r' = r /\ c' = c /\ get (set b r c v) r' c' = Some v) \/
  ((r, c) <> (r', c') /\ get (set b r c v) r' c' = get b r' c').
Proof.
  intros Hg.
  destruct (Nat.eq_dec r r') as [<-|Hr]; [destruct (Nat.eq_dec c c') as [<-|Hc]|].
  - left. rewrite (get_set_eq _ _ _ _ _ Hg). auto.
  - right. split; [congruence|]. apply get_set_ne. congruence.
  - right. split; [congruence|]. apply get_set_ne. congruence.
Qed.

Lemma consistent_fill b r c num :
  consistent b -> get b r c = Some None -> r < 9 -> c < 9 ->
  isValid b r c num = true -> consistent (set b r c (Some num)).
Proof.
  intros Hb Hg Hr Hc Hv r1 c1 r2 c2 v Hr1 Hc1 Hr2 Hc2 H1 H2 Hu.
  assert (Hclash : forall r' c', r' < 9 -> c' < 9 ->
                     get b r' c' = Some (Some num) ->
                     same_unit r c r' c' -> False).
  { intros r' c' Hr' Hc' Hg' Hu'.
    assert (isValid b r c num = false); [|congruence].
    apply isValid_false_unit; auto. exists r', c'. auto. }
  destruct (get_set_cases b r c None (Some num) r1 c1 Hg) as [(-> & -> & G1)|(N1 & G1)];
    destruct (get_set_cases b r c None (Some num) r2 c2 Hg) as [(-> & -> & G2)|(N2 & G2)];
    rewrite G1 in H1; rewrite G2 in H2.
  - split; reflexivity.
  - exfalso. inversion H1; subst v. eapply (Hclash r2 c2); eauto.
  - exfalso. inversion H2; subst v.
    eapply (Hclash r1 c1); eauto using same_unit_sym.
  - eapply Hb; eauto.
Qed.

Lemma completions_sound fuel : forall b s,
  shape b -> in_range b -> consistent b ->
  In s (completions fuel b) -> completion b s.
Proof.
  induction fuel as [|fuel IH]; intros b s Hs Hr Hc Hin; [contradiction|].
  rewrite completions_S in Hin.
  destruct (first_empty b) as [[r c]|] eqn:E.
  - apply in_flat_map in Hin. destruct Hin as (num & Hnum & Hin).
    unfold branch in Hin. destruct (isValid b r c num) eqn:Ev; [|contradiction].
    destruct (first_empty_Some _ _ _ E) as (Hg & Hlr & Hlc).
    apply in_digits in Hnum.
    apply IH in Hin.
    + destruct Hin as [Hsol Hext]. split; auto. eapply extends_fill; eauto.
    + now apply set_shape.
    + now apply in_range_fill.
    + now apply consistent_fill.
  - destruct Hin as [<-|[]].
    split; [|apply extends_refl].
    split; [exact Hs|]. split; [now apply full_of_no_empty|]. now split.
Qed.

Lemma completions_complete fuel : forall b s,
  shape b -> length (empty_cells b) < fuel ->
  completion b s -> In s (completions fuel b).
Proof.
  induction fuel as [|fuel IH]; intros b s Hs Hf Hc; [lia|].
  rewrite completions_S.
  destruct Hc as [(Hss & Hfull & Hrange & Hcons) Hext].
  destruct (first_empty b) as [[r c]|] eqn:E.
  - destruct (first_empty_Some _ _ _ E) as (Hg & Hlr & Hlc).
    destruct (Hfull r c Hlr Hlc) as [v Hv].
    apply in_flat_map. exists v. split; [apply in_digits; eauto|].
    unfold branch.
    destruct (isValid b r c v) eqn:Ev.
    + apply IH.
      * now apply set_shape.
      * eapply fuel_fill; eauto.
      * split; [split; [|split; [|split]]; assumption|].
        intros r' c' w Hr' Hc' H.
        destruct (Nat.eq_dec r r') as [<-|Hr];
          [destruct (Nat.eq_dec c c') as [<-|Hcc]|].
        -- rewrite (get_set_eq _ _ _ _ _ Hg) in H. congruence.
        -- rewrite get_set_ne in H by congruence. auto.
        -- rewrite get_set_ne in H by congruence. auto.
    + exfalso. apply isValid_false_unit in Ev; auto.
      destruct Ev as (r' & c' & Hr' & Hc' & Hg' & Hu).
      destruct (Hcons r c r' c' v Hlr Hlc Hr' Hc' Hv (Hext _ _ _ Hr' Hc' Hg') Hu)
        as [-> ->].
      rewrite Hg in Hg'. discriminate.
  - left. apply grid_ext; auto. intros r c Hr Hc.
    destruct (full_of_no_empty b Hs E r c Hr Hc) as [v Hv].
    rewrite Hv. symmetry. auto.
Qed.

Lemma completions_extends fuel : forall b s,
  In s (completions fuel b) -> extends b s.
Proof.
  induction fuel as [|fuel IH]; intros b s Hin; [contradiction|].
  rewrite completions_S in Hin.
  destruct (first_empty b) as [[r c]|] eqn:E.
  - apply in_flat_map in Hin. destruct Hin as (num & _ & Hin).
    unfold branch in Hin. destruct (isValid b r c num); [|contradiction].
    destruct (first_empty_Some _ _ _ E) as (Hg & _ & _).
    eapply extends_fill; eauto.
  - destruct Hin as [<-|[]]. apply extends_refl.
Qed.

(** A board met in the branch of [num] holds [num] in the cell filled. *)
Lemma branch_value fuel b r c num s :
  first_empty b = Some (r, c) ->
  In s (branch (completions fuel) b r c num) ->
  isValid b r c num = true /\
  In s (completions fuel (set b r c (Some num))) /\
  get s r c = Some (Some num).
Proof.
  intros E Hin. unfold branch in Hin.
  destruct (isValid b r c num); [|contradiction].
  destruct (first_empty_Some _ _ _ E) as (Hg & Hr & Hc).
  repeat split; auto.
  apply (completions_extends _ _ _ Hin); auto.
  apply (get_set_eq _ _ _ _ _ Hg).
Qed.

Lemma completions_full fuel : forall b s,
  shape b -> In s (completions fuel b) -> shape s /\ full s.
Proof.
  induction fuel as [|fuel IH]; intros b s Hs Hin; [contradiction|].
  rewrite completions_S in Hin.
  destruct (first_empty b) as [[r c]|] eqn:E.
  - apply in_flat_map in Hin. destruct Hin as (num & _ & Hin).
    apply (branch_value _ _ _ _ _ _ E) in Hin. destruct Hin as (_ & Hin & _).
    apply IH in Hin; auto. now apply set_shape.
  - destruct Hin as [<-|[]]. split; auto. now apply full_of_no_empty.
Qed.

Lemma NoDup_flat_map (A B : Type) (g : A -> list B) l :
  NoDup l -> (forall x, In x l -> NoDup (g x)) ->
  (forall x y s, In x l -> In y l -> In s (g x) -> In s (g y) -> x = y) ->
  NoDup (flat_map g l).
Proof.
  induction 1 as [|a l Hna Hnd IH]; intros Hg Hdis; simpl; [constructor|].
  apply NoDup_app.
  - apply Hg. now left.
  - apply IH.
    + intros x Hx. apply Hg. now right.
    + intros x y s Hx Hy. apply Hdis; now right.
  - intros s Hs Hin. apply in_flat_map in Hin. destruct Hin as (y & Hy & Hin).
    apply Hna. rewrite (Hdis a y s); auto; simpl; auto.
Qed.

Lemma NoDup_digits : NoDup digits.
Proof. unfold digits. repeat constructor; simpl; intuition lia. Qed.

Lemma completions_NoDup fuel : forall b, NoDup (completions fuel b).
Proof.
  induction fuel as [|fuel IH]; intros b; [constructor|].
  rewrite completions_S.
  destruct (first_empty b) as [[r c]|] eqn:E.
  - apply NoDup_flat_map.
    + apply NoDup_digits.
    + intros x _. unfold branch. destruct (isValid b r c x); auto. constructor.
    + intros x y s _ _ Hx Hy.
      apply (branch_value _ _ _ _ _ _ E) in Hx, Hy.
      destruct Hx as (_ & _ & Hx). destruct Hy as (_ & _ & Hy).
      congruence.
  - repeat constructor. simpl. tauto.
Qed.

(* ================================================================== *)
(** * The order in which boards are met *)

Lemma find_split (A : Type) (f : A -> bool) l x :
  find f l = Some x ->
  exists l1 l2, l = l1 ++ x :: l2 /\ forall y, In y l1 -> f y = false.
Proof.
  induction l as [|a l IH]; simpl; [discriminate|].
  destruct (f a) eqn:Ea.
  - intros H. inversion H; subst. exists [], l. simpl. tauto.
  - intros H. destruct (IH H) as (l1 & l2 & -> & Hl1).
    exists (a :: l1), l2. split; auto.
    intros y [<-|Hy]; auto.
Qed.

Lemma flat_map_head (A B : Type) (g : A -> list B) l s0 rest :
  flat_map g l = s0 :: rest ->
  exists l1 x l2 t,
    l = l1 ++ x :: l2 /\ (forall y, In y l1 -> g y = []) /\ g x = s0 :: t.
Proof.
  induction l as [|a l IH]; simpl; [discriminate|].
  destruct (g a) as [|s1 t] eqn:Ea; simpl.
  - intros H. destruct (IH H) as (l1 & x & l2 & t & -> & Hl1 & Hx).
    exists (a :: l1), x, l2, t. repeat split; auto.
    intros y [<-|Hy]; auto.
  - intros H. inversion H; subst. exists [], a, l, t. simpl. tauto.
Qed.

Lemma sorted_split (l1 : list Z) x l2 y :
  StronglySorted Z.lt (l1 ++ x :: l2) -> In y l2 -> (x < y)%Z.
Proof.
  induction l1 as [|a l1 IH]; simpl; intros H Hy.
  - inversion H as [|? ? _ Hall]; subst.
    rewrite Forall_forall in Hall. auto.
  - inversion H; subst. auto.
Qed.

Lemma digits_sorted : StronglySorted Z.lt digits.
Proof. unfold digits. repeat constructor. Qed.

Lemma lex_le_refl cs s :
  (forall r c, In (r, c) cs -> exists v, get s r c = Some (Some v)) ->
  lex_le cs s s.
Proof.
  induction cs as [|[r c] cs IH]; simpl; intros H; auto.
  destruct (H r c (or_introl eq_refl)) as [v ->]. right. split; auto.
Qed.

Lemma lex_le_prefix l1 rest s s' :
  (forall r c, In (r, c) l1 ->
     exists v, get s r c = Some (Some v) /\ get s' r c = Some (Some v)) ->
  lex_le rest s s' -> lex_le (l1 ++ rest) s s'.
Proof.
  induction l1 as [|[r c] l1 IH]; simpl; intros H Hrest; auto.
  destruct (H r c (or_introl eq_refl)) as (v & -> & ->). right. split; auto.
Qed.

Lemma branch_keeps fuel b r c num s :
  first_empty b = Some (r, c) ->
  In s (branch (completions fuel) b r c num) -> extends b s.
Proof.
  intros E Hin. destruct (first_empty_Some _ _ _ E) as (Hg & _ & _).
  apply (branch_value _ _ _ _ _ _ E) in Hin. destruct Hin as (_ & Hin & _).
  eapply extends_fill; eauto. eapply completions_extends; eauto.
Qed.

(** The boards are met in increasing row-major order: the first one is the
    least. *)
Lemma completions_lex fuel : forall b s0 t s,
  shape b -> completions fuel b = s0 :: t -> In s (completions fuel b) ->
  lex_le cells s0 s.
Proof.
  induction fuel as [|fuel IH]; intros b s0 t s Hs Hc Hin; [discriminate|].
  rewrite completions_S in Hc, Hin.
  destruct (first_empty b) as [[r c]|] eqn:E.
  - destruct (flat_map_head _ _ _ _ _ _ Hc) as (l1 & x & l2 & t' & Hd & Hl1 & Hx).
    apply in_flat_map in Hin. destruct Hin as (y & Hy & Hin).
    assert (Hx0 : In s0 (branch (completions fuel) b r c x))
      by (rewrite Hx; now left).
    pose proof (branch_keeps _ _ _ _ _ _ E Hx0) as Hk0.
    pose proof (branch_keeps _ _ _ _ _ _ E Hin) as Hk.
    apply (branch_value _ _ _ _ _ _ E) in Hx0.
    destruct Hx0 as (Hvx & Hinx & Hgx).
    rewrite Hd in Hy. apply in_app_or in Hy.
    destruct Hy as [Hy|[<-|Hy]].
    + rewrite (Hl1 y Hy) in Hin. contradiction.
    + unfold branch in Hx, Hin. rewrite Hvx in Hx, Hin.
      eapply IH; [| exact Hx | exact Hin]. now apply set_shape.
    + assert (Hlt : (x < y)%Z).
      { eapply sorted_split; [|exact Hy]. rewrite <- Hd. apply digits_sorted. }
      apply (branch_value _ _ _ _ _ _ E) in Hin.
      destruct Hin as (_ & _ & Hgy).
      unfold first_empty in E. apply find_split in E.
      destruct E as (c1 & c2 & Hcells & Hc1).
      rewrite Hcells. apply lex_le_prefix.
      * intros r' c' Hrc.
        assert (Hlt' : r' < 9 /\ c' < 9).
        { apply in_cells. rewrite Hcells. apply in_or_app. now left. }
        destruct Hlt' as [Hr' Hc'].
        specialize (Hc1 _ Hrc). simpl in Hc1. unfold is_null in Hc1.
        destruct (shape_get b r' c' Hs Hr' Hc') as [[v|] Hv];
          rewrite Hv in Hc1; [|discriminate].
        exists v. split; [apply Hk0 | apply Hk]; auto.
      * simpl. rewrite Hgx, Hgy. now left.
  - inversion Hc; subst. destruct Hin as [<-|[]].
    apply lex_le_refl. intros r c Hrc. apply in_cells in Hrc.
    now apply full_of_no_empty.
Qed.

(* ================================================================== *)
(** * [solveSudoku] and [countSolutions] on a board *)

Lemma fuel_enough b : length (empty_cells b) < S (length (empty_cells b)).
Proof. lia. Qed.

Lemma solveSudoku_outcome b :
  solveSudoku b =
  Some (outcome (completions (S (length (empty_cells b))) b) b).
Proof. apply solve_outcome, fuel_enough. Qed.

Lemma countSolutions_length b :
  countSolutions b =
  Some (Nat.min 2 (length (completions (S (length (empty_cells b))) b)), b).
Proof.
  unfold countSolutions. rewrite csolve_length by (auto using fuel_enough).
  reflexivity.
Qed.

Lemma no_empty_first b :
  (forall r c, r < 9 -> c < 9 -> get b r c <> Some None) ->
  first_empty b = None.
Proof.
  intros H. destruct (first_empty b) as [[r c]|] eqn:E; auto.
  destruct (first_empty_Some _ _ _ E) as (Hg & Hr & Hc).
  exfalso. exact (H r c Hr Hc Hg).
Qed.

Lemma full_no_empty b r c : full b -> r < 9 -> c < 9 -> get b r c <> Some None.
Proof.
  intros H Hr Hc Hg. destruct (H r c Hr Hc) as [v Hv]. congruence.
Qed.

Lemma completions_of_full fuel b :
  (forall r c, r < 9 -> c < 9 -> get b r c <> Some None) ->
  completions (S fuel) b = [b].
Proof.
  intros H. rewrite completions_S. now rewrite (no_empty_first b H).
Qed.

(** The valid completions of a board without duplicates, listed. *)
Lemma completions_spec b :
  shape b -> in_range b -> consistent b ->
  forall s, In s (completions (S (length (empty_cells b))) b) <->
            completion b s.
Proof.
  intros Hs Hr Hc s. split.
  - now apply completions_sound.
  - apply completions_complete; auto.
Qed.

Lemma completion_of_full_unique b s : solved b -> completion b s -> s = b.
Proof.
  intros (Hs & Hf & _) [(Hss & _) Hext]. symmetry. apply grid_ext; auto.
  intros r c Hr Hc. destruct (Hf r c Hr Hc) as [v Hv].
  rewrite Hv. symmetry. auto.
Qed.

Lemma length_le_1_unique (A : Type) (l : list A) x :
  NoDup l -> In x l -> (forall y, In y l -> y = x) -> length l = 1.
Proof.
  intros Hnd Hx Hall. destruct l as [|a [|a' l]]; simpl in *.
  - contradiction.
  - reflexivity.
  - exfalso. inversion Hnd as [|? ? Hna _]; subst. apply Hna.
    rewrite (Hall a (or_introl eq_refl)).
    rewrite <- (Hall a' (or_intror (or_introl eq_refl))). now left.
Qed.

Lemma length_ge_2_distinct (A : Type) (l : list A) x y :
  In x l -> In y l -> x <> y -> 2 <= length l.
Proof.
  intros Hx Hy Hne. destruct l as [|a [|a' l]]; simpl in *.
  - contradiction.
  - destruct Hx as [<-|[]], Hy as [<-|[]]. congruence.
  - lia.
Qed.

(* ================================================================== *)
(** * Properties of the constraint checker and of the two searches *)

Lemma shape_all_ones : shape all_ones.
Proof. split; [reflexivity | repeat constructor]. Qed.

Lemma shape_board_of_9 rows :
  length rows = 9 -> forallb (fun r => length r =? 9) rows = true ->
  shape (board_of rows).
Proof.
  intros Hl Hf. unfold board_of. split; [now rewrite length_map|].
  apply Forall_forall. intros line Hin. apply in_map_iff in Hin.
  destruct Hin as (r & <- & Hr). rewrite length_map.
  rewrite forallb_forall in Hf. apply Nat.eqb_eq. auto.
Qed.

Lemma shape_solved_board : shape solved_board.
Proof. now apply shape_board_of_9. Qed.

Lemma shape_puzzle_board : shape puzzle_board.
Proof. now apply shape_board_of_9. Qed.

Lemma shape_dead_end_board : shape dead_end_board.
Proof. now apply shape_board_of_9. Qed.

Lemma shape_two_ways_board : shape two_ways_board.
Proof. unfold two_ways_board. auto using set_shape, shape_solved_board. Qed.

(** C4. On a 9x9 board, for a cell of the board and a value in 1..9,
    [isValid] answers false exactly when the value already occurs in the row,
    in the column, or in the 3x3 box with origin [(row - row % 3,
    col - col % 3)], and true otherwise.  It only reads the board: its
    embedding has no board to return. *)
Theorem isValid_correct board row col value :
  shape board -> row < 9 -> col < 9 -> (1 <= value <= 9)%Z ->
  (isValid board row col value = false <->
   in_row board row value \/ in_col board col value \/
   in_box board row col value) /\
  (isValid board row col value = true <->
   ~ (in_row board row value \/ in_col board col value \/
      in_box board row col value)).
Proof.
  intros _ _ _ _. split.
  - apply isValid_false_iff.
  - apply isValid_true_iff.
Qed.

Lemma isValid_correct_witness :
  shape puzzle_board /\ 0 < 9 /\ 2 < 9 /\ (1 <= 1 <= 9)%Z /\
  ((isValid puzzle_board 0 2 1 = false <->
    in_row puzzle_board 0 1 \/ in_col puzzle_board 2 1 \/
    in_box puzzle_board 0 2 1) /\
   (isValid puzzle_board 0 2 1 = true <->
    ~ (in_row puzzle_board 0 1 \/ in_col puzzle_board 2 1 \/
       in_box puzzle_board 0 2 1))).
Proof.
  split; [apply shape_puzzle_board|].
  split; [lia|]. split; [lia|]. split; [lia|].
  apply (isValid_correct puzzle_board 0 2 1);
    [apply shape_puzzle_board | lia | lia | lia].
Defined.

(** C7. When [solveSudoku] answers false, the board is the one it was given:
    every placement of the failed search has been taken back. *)
Theorem solveSudoku_false_restores board board' :
  shape board -> solveSudoku board = Some (false, board') -> board' = board.
Proof.
  intros _ H. rewrite solveSudoku_outcome in H.
  destruct (completions _ board); simpl in H; congruence.
Qed.

Lemma solveSudoku_false_restores_witness :
  shape dead_end_board /\
  solveSudoku dead_end_board = Some (false, dead_end_board) /\
  dead_end_board = dead_end_board.
Proof.
  split; [apply shape_dead_end_board|].
  split; [vm_compute; reflexivity|].
  apply (solveSudoku_false_restores dead_end_board dead_end_board).
  - apply shape_dead_end_board.
  - vm_compute; reflexivity.
Defined.

(** C10. Cells that are already filled are never checked: on a 9x9 board
    without empty cells, whatever it holds, [solveSudoku] answers true and
    leaves the board as it is, and [countSolutions] answers 1. *)
Theorem full_board_accepted board :
  shape board ->
  (forall r c, r < 9 -> c < 9 -> get board r c <> Some None) ->
  solveSudoku board = Some (true, board) /\
  countSolutions board = Some (1, board).
Proof.
  intros _ H. rewrite solveSudoku_outcome, countSolutions_length.
  rewrite (completions_of_full _ board H). split; reflexivity.
Qed.

Lemma all_ones_no_empty :
  forall r c, r < 9 -> c < 9 -> get all_ones r c <> Some None.
Proof.
  intros r c Hr Hc.
  do 9 (destruct r as [|r]; [do 9 (destruct c as [|c]; [discriminate|]); lia|]).
  lia.
Qed.

Lemma full_board_accepted_witness :
  shape all_ones /\
  (forall r c, r < 9 -> c < 9 -> get all_ones r c <> Some None) /\
  solveSudoku all_ones = Some (true, all_ones) /\
  countSolutions all_ones = Some (1, all_ones).
Proof.
  split; [apply shape_all_ones|]. split; [apply all_ones_no_empty|].
  apply (full_board_accepted all_ones shape_all_ones all_ones_no_empty).
Defined.

(* ================================================================== *)
(** * The executable predicates are sound *)

Lemma number_at_iff b r c v :
  number_at b (r, c) = Some v <-> get b r c = Some (Some v).
Proof.
  unfold number_at. simpl. destruct (get b r c) as [[w|]|]; split; intros H;
    try discriminate H; inversion H; reflexivity.
Qed.

Lemma same_unitb_iff r c r' c' :
  same_unitb r c r' c' = true <-> same_unit r c r' c'.
Proof.
  unfold same_unitb, same_unit.
  rewrite !orb_true_iff, andb_true_iff, !Nat.eqb_eq. tauto.
Qed.

Lemma shapeb_sound b : shapeb b = true -> shape b.
Proof.
  unfold shapeb. rewrite andb_true_iff, Nat.eqb_eq, forallb_forall.
  intros [Hl Hf]. split; auto. apply Forall_forall.
  intros line Hin. apply Nat.eqb_eq. auto.
Qed.

Lemma in_rangeb_sound b : in_rangeb b = true -> in_range b.
Proof.
  unfold in_rangeb. rewrite forallb_forall. intros H r c v Hr Hc Hg.
  specialize (H (r, c) (proj2 (in_cells r c) (conj Hr Hc))).
  rewrite (proj2 (number_at_iff b r c v) Hg) in H.
  apply andb_true_iff in H. destruct H as [H1 H2].
  apply Z.leb_le in H1, H2. lia.
Qed.

Lemma consistentb_sound b : consistentb b = true -> consistent b.
Proof.
  unfold consistentb. rewrite forallb_forall.
  intros H r c r' c' v Hr Hc Hr' Hc' H1 H2 Hu.
  specialize (H (r, c) (proj2 (in_cells r c) (conj Hr Hc))).
  rewrite forallb_forall in H.
  specialize (H (r', c') (proj2 (in_cells r' c') (conj Hr' Hc'))).
  unfold clashb in H.
  rewrite (proj2 (number_at_iff b r c v) H1) in H.
  rewrite (proj2 (number_at_iff b r' c' v) H2) in H.
  simpl in H. rewrite Z.eqb_refl in H.
  rewrite (proj2 (same_unitb_iff r c r' c') Hu) in H. simpl in H.
  rewrite negb_involutive in H. apply andb_true_iff in H.
  rewrite !Nat.eqb_eq in H. exact H.
Qed.

Lemma fullb_sound b : fullb b = true -> full b.
Proof.
  unfold fullb. rewrite forallb_forall. intros H r c Hr Hc.
  specialize (H (r, c) (proj2 (in_cells r c) (conj Hr Hc))).
  destruct (number_at b (r, c)) as [v|] eqn:E; [|discriminate].
  exists v. now apply number_at_iff.
Qed.

Lemma extendsb_sound b s : extendsb b s = true -> extends b s.
Proof.
  unfold extendsb. rewrite forallb_forall. intros H r c v Hr Hc Hg.
  specialize (H (r, c) (proj2 (in_cells r c) (conj Hr Hc))).
  rewrite (proj2 (number_at_iff b r c v) Hg) in H. simpl in H.
  now apply holds_iff.
Qed.

Lemma solvedb_sound s : solvedb s = true -> solved s.
Proof.
  unfold solvedb. rewrite !andb_true_iff. intros [[[H1 H2] H3] H4].
  split; [now apply shapeb_sound|]. split; [now apply fullb_sound|].
  split; [now apply in_rangeb_sound | now apply consistentb_sound].
Qed.

Lemma solved_completion s : solved s -> completion s s.
Proof. intros H. split; auto using extends_refl. Qed.

Lemma solved_board_solved : solved solved_board.
Proof. apply solvedb_sound. vm_compute. reflexivity. Qed.

Lemma puzzle_board_consistent : in_range puzzle_board /\ consistent puzzle_board.
Proof.
  split; [apply in_rangeb_sound | apply consistentb_sound];
    vm_compute; reflexivity.
Qed.

Lemma two_ways_board_consistent :
  in_range two_ways_board /\ consistent two_ways_board.
Proof.
  split; [apply in_rangeb_sound | apply consistentb_sound];
    vm_compute; reflexivity.
Qed.

(* ================================================================== *)
(** * The contract of the two searches *)

(** C5 as stated fails: on the full board of ones [solveSudoku] answers
    true, although the board has no valid completion. *)
Lemma solveSudoku_true_without_completion :
  shape all_ones /\
  solveSudoku all_ones = Some (true, all_ones) /\
  ~ (exists s, completion all_ones s).
Proof.
  split; [apply shape_all_ones|]. split; [vm_compute; reflexivity|].
  intros (s & (_ & _ & _ & Hc) & Hext).
  assert (H0 : get s 0 0 = Some (Some 1%Z)) by (apply Hext; auto; lia).
  assert (H1 : get s 0 1 = Some (Some 1%Z)) by (apply Hext; auto; lia).
  assert (Hu : same_unit 0 0 0 1) by (left; reflexivity).
  destruct (Hc 0 0 0 1 1%Z) as [_ Habs]; auto; lia.
Qed.

(** C5, amended. On a 9x9 board whose numbers are in 1..9 and occur at most
    once in each row, column and box, [solveSudoku] answers true exactly when
    the board has a valid completion; it then leaves the board as a valid
    completion, the least one in row-major order (candidates go up from 1 at
    the first empty cell); when it answers false the board is unchanged; and
    a board that is already full is left as it is, with the answer true. *)
Theorem solveSudoku_correct board :
  shape board -> in_range board -> consistent board ->
  exists ok board',
    solveSudoku board = Some (ok, board') /\
    (ok = true <-> exists s, completion board s) /\
    (ok = true ->
     completion board board' /\
     forall s, completion board s -> lex_le cells board' s) /\
    (ok = false -> board' = board) /\
    (full board -> ok = true /\ board' = board).
Proof.
  intros Hs Hr Hc. rewrite solveSudoku_outcome.
  pose proof (completions_spec board Hs Hr Hc) as Hspec.
  pose proof (completions_lex (S (length (empty_cells board))) board) as Hlex.
  pose proof (completions_of_full (length (empty_cells board)) board) as Hfull.
  destruct (completions (S (length (empty_cells board))) board) as [|s0 t];
    simpl.
  - exists false, board. split; [reflexivity|].
    split; [|split; [discriminate|split; [reflexivity|]]].
    + split; [discriminate|]. intros (s & H). apply Hspec in H. contradiction.
    + intros Hf. specialize (Hfull (fun r c => full_no_empty board r c Hf)).
      discriminate.
  - exists true, s0. split; [reflexivity|].
    split; [|split; [|split; [discriminate|]]].
    + split; [|reflexivity]. intros _. exists s0. apply Hspec. now left.
    + intros _. split; [apply Hspec; now left|].
      intros s H. apply (Hlex s0 t s Hs eq_refl). now apply Hspec.
    + intros Hf. specialize (Hfull (fun r c => full_no_empty board r c Hf)).
      inversion Hfull. auto.
Qed.

Lemma solveSudoku_correct_witness :
  shape puzzle_board /\ in_range puzzle_board /\ consistent puzzle_board /\
  completion puzzle_board solved_board.
Proof.
  pose proof puzzle_board_consistent as [Hr Hc].
  split; [apply shape_puzzle_board|]. split; [exact Hr|]. split; [exact Hc|].
  destruct (solveSudoku_correct puzzle_board shape_puzzle_board Hr Hc)
    as (ok & b' & Heq & _ & Hcompl & _).
  assert (Hrun : solveSudoku puzzle_board = Some (true, solved_board))
    by (vm_compute; reflexivity).
  rewrite Hrun in Heq. inversion Heq; subst. now apply Hcompl.
Defined.

(** C6. On a 9x9 board whose numbers are in 1..9 and occur at most once in
    each row, column and box, [countSolutions] answers 0 exactly when there
    is no valid completion, 1 exactly when there is exactly one (so 1 on a
    full valid board), and 2 exactly when there are two or more: the count
    never goes beyond 2.  The search is abandoned at the first point the
    count becomes 2: in the loop over the candidates, whatever the nested
    call does elsewhere, a nested call that comes back with a count above 1
    ends the loop at once, the candidates left untried, and one that comes
    back with a count of at most 1 lets the loop go on; so that on the whole
    search [solve] is never entered again once the count has passed 1 (the
    search with that assertion ends with the same answer). *)
Theorem countSolutions_correct board :
  shape board -> in_range board -> consistent board ->
  exists n,
    countSolutions board = Some (n, board) /\
    n <= 2 /\
    (n = 0 <-> ~ exists s, completion board s) /\
    (n = 1 <->
     exists s, completion board s /\
               forall s', completion board s' -> s' = s) /\
    (n = 2 <->
     exists s1 s2, s1 <> s2 /\ completion board s1 /\ completion board s2) /\
    (full board -> n = 1) /\
    (forall rec row col num rest b count b' count',
       isValid b row col num = true ->
       rec (set b row col (Some num)) count = Some (b', count') ->
       (1 < count' ->
        count_nums rec row col (num :: rest) b count =
        Some (set b' row col None, count')) /\
       (count' <= 1 ->
        count_nums rec row col (num :: rest) b count =
        count_nums rec row col rest (set b' row col None) count')) /\
    csolve_asserting (S (length (empty_cells board))) board 0 =
    Some (board, n).
Proof.
  intros Hs Hr Hc. rewrite countSolutions_length.
  pose proof (completions_spec board Hs Hr Hc) as Hspec.
  pose proof (completions_NoDup (S (length (empty_cells board))) board) as Hnd.
  pose proof (completions_of_full (length (empty_cells board)) board) as Hfull.
  assert (Hguard :
    csolve_asserting (S (length (empty_cells board))) board 0 =
    Some (board,
          Nat.min 2 (length (completions (S (length (empty_cells board)))
                                         board)))).
  { rewrite csolve_asserting_csolve by lia.
    rewrite csolve_length by lia. reflexivity. }
  set (l := completions (S (length (empty_cells board))) board) in *.
  exists (Nat.min 2 (length l)). split; [reflexivity|].
  split; [lia|]. split; [|split; [|split; [|split; [|split]]]];
    [| | | |intros; now apply count_nums_step|exact Hguard].
  - split.
    + intros H (s & Hcs). apply Hspec in Hcs.
      destruct l; [contradiction|simpl in H; lia].
    + intros H. destruct l as [|s t]; [reflexivity|].
      exfalso. apply H. exists s. apply Hspec. now left.
  - split.
    + intros H. destruct l as [|s [|s' t]]; simpl in H; try lia.
      exists s. split; [apply Hspec; now left|].
      intros s' Hs'. apply Hspec in Hs'. destruct Hs' as [<-|[]]. reflexivity.
    + intros (s & Hcs & Huniq).
      rewrite (length_le_1_unique _ l s Hnd); [reflexivity| |].
      * now apply Hspec.
      * intros y Hy. apply Huniq. now apply Hspec.
  - split.
    + intros H. destruct l as [|s [|s' t]]; simpl in H; try lia.
      exists s, s'. split.
      * intros ->. inversion Hnd as [|? ? Hna _]; subst. apply Hna. now left.
      * split; apply Hspec; simpl; auto.
    + intros (s1 & s2 & Hne & H1 & H2).
      apply Hspec in H1, H2.
      pose proof (length_ge_2_distinct _ l s1 s2 H1 H2 Hne). lia.
  - intros Hf.
    rewrite (Hfull (fun r c => full_no_empty board r c Hf)). reflexivity.
Qed.

Lemma countSolutions_correct_witness :
  shape two_ways_board /\ in_range two_ways_board /\
  consistent two_ways_board /\
  (exists s1 s2, s1 <> s2 /\ completion two_ways_board s1 /\
                 completion two_ways_board s2) /\
  csolve_asserting (S (length (empty_cells two_ways_board))) two_ways_board 0 =
  Some (two_ways_board, 2).
Proof.
  pose proof two_ways_board_consistent as [Hr Hc].
  split; [apply shape_two_ways_board|]. split; [exact Hr|]. split; [exact Hc|].
  destruct (countSolutions_correct two_ways_board shape_two_ways_board Hr Hc)
    as (n & Heq & _ & _ & _ & Htwo & _ & _ & Hassert).
  assert (Hrun : countSolutions two_ways_board = Some (2, two_ways_board))
    by (vm_compute; reflexivity).
  rewrite Hrun in Heq. inversion Heq; subst.
  split; [now apply Htwo|exact Hassert].
Defined.

(** C8. [countSolutions] gives the board back as it received it; and in the
    removal loop the check runs on a copy, so that whatever a counter does to
    the board it is handed, the puzzle after one turn of the loop is either
    the puzzle before it or that puzzle with the chosen cell cleared. *)
Theorem countSolutions_frame board counter r c attempts :
  shape board ->
  (exists n, countSolutions board = Some (n, board)) /\
  (forall attempts' puzzle',
     remove_step counter r c attempts board = Some (attempts', puzzle') ->
     puzzle' = board \/ puzzle' = set board r c None).
Proof.
  intros _. split.
  - rewrite countSolutions_length. eauto.
  - intros attempts' puzzle'. unfold remove_step.
    destruct (get board r c) as [[temp|]|] eqn:Hg; [| |discriminate].
    + destruct (counter (set board r c None)) as [[n scratch]|];
        [|discriminate].
      destruct (n =? 1); intros H; inversion H; subst; auto.
      left. apply (set_restore _ _ _ _ _ Hg).
    + intros H. inversion H. auto.
Qed.

Lemma countSolutions_frame_witness :
  shape puzzle_board /\
  ((exists n, countSolutions puzzle_board = Some (n, puzzle_board)) /\
   (forall attempts' puzzle',
      remove_step (fun g => Some (1, all_ones)) 0 0 35 puzzle_board =
      Some (attempts', puzzle') ->
      puzzle' = puzzle_board \/ puzzle' = set puzzle_board 0 0 None)).
Proof.
  split; [apply shape_puzzle_board|].
  apply (countSolutions_frame puzzle_board (fun g => Some (1, all_ones)) 0 0 35).
  apply shape_puzzle_board.
Defined.

(* ================================================================== *)
(** * Counting the filled cells *)

Lemma filter_switch_on (A : Type) (f g : A -> bool) x l :
  NoDup l -> In x l -> (forall y, y <> x -> g y = f y) ->
  f x = false -> g x = true ->
  length (filter g l) = S (length (filter f l)).
Proof.
  intros Hnd Hin Hfg Hfx Hgx.
  induction Hnd as [|a l Hna Hnd IH]; [contradiction|]. simpl.
  destruct Hin as [->|Hin].
  - rewrite Hfx, Hgx. simpl. f_equal. f_equal.
    apply filter_ext_in. intros y Hy. apply Hfg. intros ->. contradiction.
  - assert (Hax : a <> x) by (intros ->; contradiction).
    rewrite (Hfg a Hax). destruct (f a); simpl; rewrite IH; auto.
Qed.

Lemma filled_cells_fill b r c v :
  get b r c = Some None -> r < 9 -> c < 9 ->
  length (filled_cells (set b r c (Some v))) = S (length (filled_cells b)).
Proof.
  intros Hg Hr Hc. unfold filled_cells.
  apply filter_switch_on with (x := (r, c)).
  - apply NoDup_cells.
  - now apply in_cells.
  - intros [r' c'] Hne. simpl. rewrite get_set_ne; auto.
  - simpl. now rewrite Hg.
  - simpl. now rewrite (get_set_eq _ _ _ _ _ Hg).
Qed.

Lemma filled_cells_clear b r c v :
  get b r c = Some (Some v) -> r < 9 -> c < 9 ->
  length (filled_cells b) = S (length (filled_cells (set b r c None))).
Proof.
  intros Hg Hr Hc. unfold filled_cells.
  apply filter_switch_on with (x := (r, c)).
  - apply NoDup_cells.
  - now apply in_cells.
  - intros [r' c'] Hne. simpl. rewrite get_set_ne; auto.
  - simpl. now rewrite (get_set_eq _ _ _ _ _ Hg).
  - simpl. now rewrite Hg.
Qed.

Lemma filled_cells_full b : full b -> length (filled_cells b) = 81.
Proof.
  intros Hf. unfold filled_cells.
  rewrite (filter_ext_in _ (fun _ => true)).
  - reflexivity.
  - intros [r c] Hin. apply in_cells in Hin. simpl.
    destruct (Hf r c) as [v ->]; tauto.
Qed.

Lemma get_bound b r c v : shape b -> get b r c = Some v -> r < 9 /\ c < 9.
Proof.
  intros [Hl Hf] H. unfold get in H.
  destruct (nth_error b r) as [line|] eqn:E; [|discriminate].
  assert (Hr : r < length b) by (apply nth_error_Some; congruence).
  assert (Hc : c < length line) by (apply nth_error_Some; congruence).
  rewrite Forall_forall in Hf. rewrite (Hf line) in Hc; [lia|].
  eapply nth_error_In; eauto.
Qed.

(* ================================================================== *)
(** * The seeding loops *)

Lemma pick_valid_spec board row col : forall rnd num rnd',
  draws_ok rnd -> pick_valid board row col rnd = Some (num, rnd') ->
  isValid board row col num = true /\ (1 <= num <= 9)%Z /\ draws_ok rnd'.
Proof.
  induction rnd as [|x rest IH]; simpl; intros num rnd' Hok H; [discriminate|].
  inversion Hok as [|? ? Hx Hrest]; subst.
  destruct (isValid board row col (Z.of_nat x + 1)) eqn:E.
  - inversion H; subst. repeat split; auto; lia.
  - now apply IH.
Qed.

Lemma fill_diagonal_spec : forall cs board rnd seeded rnd',
  NoDup cs -> (forall r c, In (r, c) cs -> r < 9 /\ c < 9) ->
  seeding cs board -> draws_ok rnd ->
  fill_diagonal cs board rnd = Some (seeded, rnd') ->
  seeding [] seeded /\ extends board seeded /\ draws_ok rnd'.
Proof.
  induction cs as [|[r c] cs IH]; simpl; intros board rnd seeded rnd' Hnd Hb Hinv Hok H.
  - inversion H; subst. auto using extends_refl.
  - destruct (pick_valid board r c rnd) as [[num rnd1]|] eqn:Ep; [|discriminate].
    apply pick_valid_spec in Ep; auto. destruct Ep as (Hv & Hnum & Hok1).
    destruct Hinv as (Hs & Hr & Hc & Hnull & Hcount).
    inversion Hnd as [|? ? Hna Hnd']; subst.
    assert (Hg : get board r c = Some None) by (apply Hnull; now left).
    destruct (Hb r c (or_introl eq_refl)) as [Hlr Hlc].
    apply IH in H; auto.
    + destruct H as (Hinv' & Hext & Hok').
      split; [exact Hinv'|]. split; [|exact Hok'].
      eapply extends_fill; eauto.
    + split; [apply set_shape, Hs|]. split; [now apply in_range_fill|].
      split; [now apply consistent_fill|]. split.
      * intros r' c' Hin. rewrite get_set_ne; [apply Hnull; now right|].
        intros Heq. inversion Heq; subst. contradiction.
      * rewrite filled_cells_fill by auto. simpl in Hcount. lia.
Qed.

Lemma empty_board_null r c : r < 9 -> c < 9 -> get empty_board r c = Some None.
Proof.
  intros Hr Hc.
  do 9 (destruct r as [|r]; [do 9 (destruct c as [|c]; [reflexivity|]); lia|]).
  lia.
Qed.

Lemma diagonal_cells_bound r c : In (r, c) diagonal_cells -> r < 9 /\ c < 9.
Proof.
  unfold diagonal_cells. simpl. intros H.
  repeat (destruct H as [H|H]; [inversion H; lia|]). contradiction.
Qed.

Lemma NoDup_diagonal_cells : NoDup diagonal_cells.
Proof.
  unfold diagonal_cells. simpl. repeat constructor; simpl; intuition congruence.
Qed.

Lemma seeding_empty_board : seeding diagonal_cells empty_board.
Proof.
  split; [split; [reflexivity | repeat constructor]|].
  assert (Hnone : forall r c v, r < 9 -> c < 9 ->
                    get empty_board r c <> Some (Some v)).
  { intros r c v Hr Hc. rewrite empty_board_null by auto. discriminate. }
  split; [|split; [|split]].
  - intros r c v Hr Hc H. now apply Hnone in H.
  - intros r c r' c' v Hr Hc _ _ H. now apply Hnone in H.
  - intros r c Hin. apply diagonal_cells_bound in Hin.
    now apply empty_board_null.
  - reflexivity.
Qed.

(** After the seeding loops: a 9x9 board with 27 numbers in 1..9 and no
    duplicate in a row, column or box. *)
Lemma seed_board_spec rnd seeded rnd1 :
  draws_ok rnd -> seed_board rnd = Some (seeded, rnd1) ->
  seeding [] seeded /\ draws_ok rnd1.
Proof.
  intros Hok H. unfold seed_board in H.
  apply fill_diagonal_spec in H; auto.
  - tauto.
  - apply NoDup_diagonal_cells.
  - apply diagonal_cells_bound.
  - apply seeding_empty_board.
Qed.

(* ================================================================== *)
(** * The removal loop *)

Lemma remove_cells_eq counter target rnd attempts puzzle :
  remove_cells counter target rnd attempts puzzle =
  if attempts <? target then
    match rnd with
    | r :: c :: rest =>
        match remove_step counter r c attempts puzzle with
        | None => None
        | Some (attempts', puzzle') =>
            remove_cells counter target rest attempts' puzzle'
        end
    | _ => None
    end
  else Some puzzle.
Proof. destruct rnd; reflexivity. Qed.

Lemma pairs_ind (A : Type) (P : list A -> Prop) :
  P [] -> (forall x, P [x]) -> (forall x y l, P l -> P (x :: y :: l)) ->
  forall l, P l.
Proof.
  intros H0 H1 H2.
  assert (H : forall l, P l /\ forall x, P (x :: l)).
  { induction l as [|a l [IH1 IH2]]; split; auto. }
  intros l. apply H.
Qed.

Lemma extends_clear p s r c v0 :
  get p r c = Some v0 -> extends p s -> extends (set p r c None) s.
Proof.
  intros Hg He r' c' v Hr Hc H.
  destruct (get_set_cases p r c v0 None r' c' Hg) as [(-> & -> & G)|(_ & G)];
    rewrite G in H; [discriminate|auto].
Qed.

(** One turn of the loop keeps the invariant, and moves [attempts] by at
    most one. *)
Lemma remove_step_inv solution r c attempts puzzle attempts' puzzle' :
  removal_inv solution attempts puzzle ->
  remove_step countSolutions r c attempts puzzle = Some (attempts', puzzle') ->
  removal_inv solution attempts' puzzle' /\
  attempts <= attempts' <= S attempts.
Proof.
  intros Hinv. pose proof Hinv as (Hs & He & Hn & Hone). unfold remove_step.
  destruct (get puzzle r c) as [[temp|]|] eqn:Hg; [| |discriminate].
  - rewrite countSolutions_length.
    destruct (get_bound _ _ _ _ Hs Hg) as [Hr Hc].
    destruct (_ =? 1) eqn:E; intros H; inversion H; subst; clear H.
    + split; [|lia]. split; [now apply set_shape|].
      split; [eapply extends_clear; eauto|]. split.
      * rewrite (filled_cells_clear _ _ _ _ Hg Hr Hc) in Hn. lia.
      * right. rewrite countSolutions_length. apply Nat.eqb_eq in E.
        now rewrite E.
    + rewrite (set_restore _ _ _ _ _ Hg). split; [exact Hinv|lia].
  - intros H. inversion H; subst. split; [exact Hinv|lia].
Qed.

Lemma remove_cells_inv solution target : forall rnd attempts puzzle puzzle',
  removal_inv solution attempts puzzle -> attempts <= target ->
  remove_cells countSolutions target rnd attempts puzzle = Some puzzle' ->
  removal_inv solution target puzzle'.
Proof.
  induction rnd as [|x|r c rest IH] using pairs_ind;
    intros attempts puzzle puzzle' Hinv Hle; rewrite remove_cells_eq;
    destruct (attempts <? target) eqn:E;
    try (apply Nat.ltb_ge in E; intros H; inversion H; subst;
         now replace target with attempts by lia);
    try discriminate.
  apply Nat.ltb_lt in E.
  destruct (remove_step countSolutions r c attempts puzzle)
    as [[attempts1 puzzle1]|] eqn:Es; [|discriminate].
  destruct (remove_step_inv _ _ _ _ _ _ _ Hinv Es) as [Hinv1 Hb].
  apply IH; auto. lia.
Qed.

(* ================================================================== *)
(** * A full valid grid, unit by unit *)

Lemma NoDup_map_on (A B : Type) (f : A -> B) l :
  NoDup l -> (forall x y, In x l -> In y l -> f x = f y -> x = y) ->
  NoDup (map f l).
Proof.
  induction 1 as [|a l Hna Hnd IH]; intros Hinj; simpl; constructor.
  - intros Hin. apply in_map_iff in Hin. destruct Hin as (y & Hy & Hin).
    apply Hna. rewrite (Hinj a y); simpl; auto.
  - apply IH. intros x y Hx Hy. apply Hinj; simpl; auto.
Qed.

(** Nine cells of a full valid grid that pairwise share a unit hold a
    permutation of 1..9. *)
Lemma unit_perm s (pos : nat -> nat * nat) :
  solved s ->
  (forall i, i < 9 -> fst (pos i) < 9 /\ snd (pos i) < 9) ->
  (forall i j, i < 9 -> j < 9 ->
     same_unit (fst (pos i)) (snd (pos i)) (fst (pos j)) (snd (pos j))) ->
  (forall i j, i < 9 -> j < 9 -> pos i = pos j -> i = j) ->
  perm_1_9 (map (fun i => get s (fst (pos i)) (snd (pos i))) (upto 9)).
Proof.
  intros (Hs & Hf & Hr & Hc) Hb Hu Hinj. unfold perm_1_9.
  apply NoDup_Permutation_bis.
  - apply NoDup_map_on; [apply seq_NoDup|].
    intros i j Hi Hj Heq. apply in_upto in Hi, Hj.
    destruct (Hb i Hi) as [Hi1 Hi2]. destruct (Hb j Hj) as [Hj1 Hj2].
    destruct (Hf _ _ Hi1 Hi2) as [v Hv]. rewrite Hv in Heq. symmetry in Heq.
    destruct (Hc _ _ _ _ v Hi1 Hi2 Hj1 Hj2 Hv Heq (Hu i j Hi Hj)) as [E1 E2].
    apply Hinj; auto. now apply injective_projections.
  - rewrite !length_map. unfold upto. rewrite length_seq. simpl. lia.
  - intros x Hx. apply in_map_iff in Hx. destruct Hx as (i & <- & Hi).
    apply in_upto in Hi. destruct (Hb i Hi) as [Hi1 Hi2].
    destruct (Hf _ _ Hi1 Hi2) as [v Hv]. rewrite Hv.
    apply (in_map (fun d => Some (Some d))). apply in_digits.
    exact (Hr _ _ _ Hi1 Hi2 Hv).
Qed.

Lemma div3_add a b : b < 3 -> (3 * a + b) / 3 = a.
Proof.
  intros Hb. rewrite Nat.mul_comm, Nat.div_add_l by lia.
  rewrite Nat.div_small; lia.
Qed.

Lemma solved_units_perm s : solved s -> all_units_perm s.
Proof.
  intros Hsol k Hk. split; [|split].
  - apply (unit_perm s (fun c => (k, c)) Hsol); simpl; auto.
    + intros; left; reflexivity.
    + intros i j _ _ H. now inversion H.
  - apply (unit_perm s (fun r => (r, k)) Hsol); simpl; auto.
    + intros; right; left; reflexivity.
    + intros i j _ _ H. now inversion H.
  - assert (Hk3 : k / 3 < 3) by (apply Nat.Div0.div_lt_upper_bound; lia).
    assert (Hkm : k mod 3 < 3) by (apply Nat.mod_upper_bound; lia).
    assert (Hd : forall i, i < 9 -> i / 3 < 3 /\ i mod 3 < 3).
    { intros i Hi. split; [apply Nat.Div0.div_lt_upper_bound; lia|].
      apply Nat.mod_upper_bound; lia. }
    apply (unit_perm s
             (fun i => (3 * (k / 3) + i / 3, 3 * (k mod 3) + i mod 3)) Hsol);
      cbn [fst snd].
    + intros i Hi. destruct (Hd i Hi). lia.
    + intros i j Hi Hj. destruct (Hd i Hi), (Hd j Hj).
      right; right. now rewrite !div3_add.
    + intros i j Hi Hj H.
      pose proof (f_equal fst H) as E1. pose proof (f_equal snd H) as E2.
      cbn [fst snd] in E1, E2.
      rewrite (Nat.div_mod_eq i 3), (Nat.div_mod_eq j 3). lia.
Qed.

(* ================================================================== *)
(** * A run of the generator *)

Lemma cellsToRemove_bounds d : 35 <= cellsToRemove d <= 60.
Proof. destruct d; simpl; lia. Qed.

(** The two outcomes of the solver on a board with valid givens. *)
Lemma solveSudoku_cases board :
  shape board -> in_range board -> consistent board ->
  (exists s, solveSudoku board = Some (true, s) /\ completion board s) \/
  (solveSudoku board = Some (false, board) /\ ~ exists s, completion board s).
Proof.
  intros Hs Hr Hc. rewrite solveSudoku_outcome.
  pose proof (completions_spec board Hs Hr Hc) as Hspec.
  destruct (completions (S (length (empty_cells board))) board) as [|s0 t];
    simpl.
  - right. split; [reflexivity|]. intros (s & H). apply Hspec in H.
    contradiction.
  - left. exists s0. split; [reflexivity|]. apply Hspec. now left.
Qed.

(** The counter answers 1 only on a board with exactly one completion. *)
Lemma countSolutions_one board b :
  shape board -> in_range board -> consistent board ->
  countSolutions board = Some (1, b) ->
  exists s, completion board s /\ forall s', completion board s' -> s' = s.
Proof.
  intros Hs Hr Hc H. rewrite countSolutions_length in H.
  pose proof (completions_spec board Hs Hr Hc) as Hspec.
  assert (Hl : Nat.min 2 (length (completions (S (length (empty_cells board)))
                                              board)) = 1) by congruence.
  clear H.
  destruct (completions (S (length (empty_cells board))) board)
    as [|s [|s' t]]; simpl in Hl; try lia.
  exists s. split; [apply Hspec; now left|].
  intros s' Hs'. apply Hspec in Hs'. destruct Hs' as [<-|[]]. reflexivity.
Qed.

Lemma generateSudoku_inv d rnd puzzle solution :
  draws_ok rnd -> generateSudoku d rnd = Some (puzzle, solution) ->
  exists seeded rnd1,
    seed_board rnd = Some (seeded, rnd1) /\
    seeding [] seeded /\
    solveSudoku seeded = Some (true, solution) /\
    completion seeded solution /\
    removal_inv solution (cellsToRemove d) puzzle.
Proof.
  intros Hok H. unfold generateSudoku in H.
  destruct (seed_board rnd) as [[seeded rnd1]|] eqn:Eseed; [|discriminate].
  destruct (seed_board_spec _ _ _ Hok Eseed) as [Hseed Hok1].
  pose proof Hseed as (Hs & Hr & Hc & _ & Hn).
  pose proof (cellsToRemove_bounds d) as Hd.
  destruct (solveSudoku_cases seeded Hs Hr Hc)
    as [(board & Esolve & Hcompl)|(Esolve & _)]; rewrite Esolve in H.
  - destruct (remove_cells countSolutions (cellsToRemove d) rnd1 0 board)
      as [puzzle0|] eqn:Erem; [|discriminate].
    inversion H; subst puzzle0 board. clear H.
    exists seeded, rnd1. split; [reflexivity|]. split; [exact Hseed|].
    split; [exact Esolve|]. split; [exact Hcompl|].
    eapply remove_cells_inv; [| |exact Erem]; [|lia].
    destruct Hcompl as [(Hss & _) _].
    split; [exact Hss|]. split; [apply extends_refl|]. split; [lia|now left].
  - exfalso.
    destruct (remove_cells countSolutions (cellsToRemove d) rnd1 0 seeded)
      as [puzzle0|] eqn:Erem; [|discriminate].
    assert (Hinv : removal_inv seeded (cellsToRemove d) puzzle0).
    { eapply remove_cells_inv; [| |exact Erem]; [|lia].
      split; [exact Hs|]. split; [apply extends_refl|].
      split; [lia|now left]. }
    destruct Hinv as (_ & _ & Hcount & _). simpl in Hn. lia.
Qed.

Lemma below_solved p s :
  shape p -> extends p s -> solved s -> in_range p /\ consistent p.
Proof.
  intros Hp He (_ & _ & Hr & Hc). split.
  - intros r c v Hlr Hlc Hg. exact (Hr r c v Hlr Hlc (He r c v Hlr Hlc Hg)).
  - intros r c r' c' v Hlr Hlc Hlr' Hlc' H1 H2 Hu.
    exact (Hc r c r' c' v Hlr Hlc Hlr' Hlc'
              (He _ _ _ Hlr Hlc H1) (He _ _ _ Hlr' Hlc' H2) Hu).
Qed.

Lemma draws_okb_sound rnd : forallb (fun x => x <? 9) rnd = true -> draws_ok rnd.
Proof.
  rewrite forallb_forall. intros H. apply Forall_forall.
  intros x Hx. apply Nat.ltb_lt. auto.
Qed.

Lemma easy_draws_ok : draws_ok easy_draws.
Proof. apply draws_okb_sound. vm_compute. reflexivity. Qed.

Lemma easy_run : generateSudoku EASY easy_draws = Some (puzzle_board, solved_board).
Proof. vm_compute. reflexivity. Qed.

Lemma remove_step_extends counter solution r c attempts p attempts' p' :
  extends p solution ->
  remove_step counter r c attempts p = Some (attempts', p') ->
  extends p' solution.
Proof.
  intros He. unfold remove_step.
  destruct (get p r c) as [[temp|]|] eqn:Hg; [| |discriminate].
  - destruct (counter (set p r c None)) as [[n scratch]|]; [|discriminate].
    destruct (n =? 1); intros H; inversion H; subst.
    + eapply extends_clear; eauto.
    + now rewrite (set_restore _ _ _ _ _ Hg).
  - intros H. now inversion H; subst.
Qed.

(** The solution of a run is a full valid grid. *)
Lemma solution_solved d rnd puzzle solution :
  draws_ok rnd -> generateSudoku d rnd = Some (puzzle, solution) ->
  solved solution.
Proof.
  intros Hok H.
  destruct (generateSudoku_inv _ _ _ _ Hok H)
    as (seeded & rnd1 & _ & _ & _ & [Hsol _] & _).
  exact Hsol.
Qed.

(* ================================================================== *)
(** * Properties of the generated pair *)

(** C3. In every pair returned by [generateSudoku], a cell of the puzzle
    that holds a number holds the number of the solution; and every turn of
    the removal loop keeps it so. *)
Theorem puzzle_agrees_with_solution difficulty rnd puzzle solution :
  draws_ok rnd ->
  generateSudoku difficulty rnd = Some (puzzle, solution) ->
  (forall r c v, r < 9 -> c < 9 ->
     get puzzle r c = Some (Some v) -> get solution r c = Some (Some v)) /\
  (forall r c attempts p attempts' p',
     extends p solution ->
     remove_step countSolutions r c attempts p = Some (attempts', p') ->
     extends p' solution).
Proof.
  intros Hok H.
  destruct (generateSudoku_inv _ _ _ _ Hok H)
    as (seeded & rnd1 & _ & _ & _ & _ & (_ & He & _)).
  split; [exact He|].
  intros r c attempts p attempts' p'. apply remove_step_extends.
Qed.

Lemma puzzle_agrees_with_solution_witness :
  draws_ok easy_draws /\
  generateSudoku EASY easy_draws = Some (puzzle_board, solved_board) /\
  extends puzzle_board solved_board.
Proof.
  split; [apply easy_draws_ok|]. split; [apply easy_run|].
  exact (proj1 (puzzle_agrees_with_solution EASY easy_draws puzzle_board solved_board
                 easy_draws_ok easy_run)).
Defined.

(** C9. The puzzle returned for a difficulty holds 81 minus its removal
    count numbers: 46 for Easy, 36 for Medium, 26 for Hard, 21 for Expert;
    and a pick that lands on an empty cell changes neither the puzzle nor
    the removal counter. *)
Theorem puzzle_filled_count difficulty rnd puzzle solution :
  draws_ok rnd ->
  generateSudoku difficulty rnd = Some (puzzle, solution) ->
  length (filled_cells puzzle) = 81 - cellsToRemove difficulty /\
  length (filled_cells puzzle) =
    match difficulty with
    | EASY => 46
    | MEDIUM => 36
    | HARD => 26
    | EXPERT => 21
    end /\
  (forall counter r c attempts p,
     get p r c = Some None ->
     remove_step counter r c attempts p = Some (attempts, p)).
Proof.
  intros Hok H.
  destruct (generateSudoku_inv _ _ _ _ Hok H)
    as (seeded & rnd1 & _ & _ & _ & [(_ & Hf & _) _] & (_ & _ & Hn & _)).
  rewrite (filled_cells_full _ Hf) in Hn.
  split; [lia|]. split.
  - destruct difficulty; simpl in Hn; lia.
  - intros counter r c attempts p Hg. unfold remove_step. now rewrite Hg.
Qed.

Lemma puzzle_filled_count_witness :
  draws_ok easy_draws /\
  generateSudoku EASY easy_draws = Some (puzzle_board, solved_board) /\
  length (filled_cells puzzle_board) = 46.
Proof.
  split; [apply easy_draws_ok|]. split; [apply easy_run|].
  exact (proj1 (proj2 (puzzle_filled_count EASY easy_draws puzzle_board solved_board
                 easy_draws_ok easy_run))).
Defined.

(** C2. In every pair returned by [generateSudoku], [solveSudoku] on the
    puzzle answers true and leaves exactly the solution: the solution is the
    only valid completion of the puzzle. *)
Theorem puzzle_solves_to_solution difficulty rnd puzzle solution :
  draws_ok rnd ->
  generateSudoku difficulty rnd = Some (puzzle, solution) ->
  solveSudoku puzzle = Some (true, solution) /\
  (forall s, completion puzzle s -> s = solution).
Proof.
  intros Hok H.
  destruct (generateSudoku_inv _ _ _ _ Hok H)
    as (seeded & rnd1 & _ & _ & _ & [Hsol _] & (Hs & He & _ & Hone)).
  destruct (below_solved _ _ Hs He Hsol) as [Hr Hc].
  assert (Hcompl : completion puzzle solution) by (split; assumption).
  destruct Hone as [H0|Hone];
    [pose proof (cellsToRemove_bounds difficulty); lia|].
  destruct (countSolutions_one puzzle puzzle Hs Hr Hc Hone) as (s0 & Hs0 & Hall).
  assert (Hsol0 : solution = s0) by (now apply Hall).
  subst s0.
  split; [|exact Hall].
  destruct (solveSudoku_cases puzzle Hs Hr Hc)
    as [(b' & Heq & Hb')|(_ & Hno)];
    [|exfalso; apply Hno; now exists solution].
  now rewrite Heq, (Hall b' Hb').
Qed.

Lemma puzzle_solves_to_solution_witness :
  draws_ok easy_draws /\
  generateSudoku EASY easy_draws = Some (puzzle_board, solved_board) /\
  solveSudoku puzzle_board = Some (true, solved_board).
Proof.
  split; [apply easy_draws_ok|]. split; [apply easy_run|].
  exact (proj1 (puzzle_solves_to_solution EASY easy_draws puzzle_board solved_board
                 easy_draws_ok easy_run)).
Defined.

(* ================================================================== *)
(** * Every seeded board has a completion *)

(** The plan.  Number the digits by their place in the first box, so that
    its frames are [a0] and [a0c]; let [b], [bc] and [c], [cc] be the frames
    of the two other diagonal boxes.  The six boxes to find are fixed by six
    frames: [p] (rows of the box right of the first one), [u] (columns of the
    box above the middle one), [t] (rows of the box left of the last one),
    [w], [s], [v] likewise; the frames of the other half of each band and
    stack follow by [third].  Each of the six boxes asks its two frames to
    be orthogonal, which links the six unknowns in a cycle.

    The cycle is cut at [p] and [w].  On one side, [plenty th bc c] says
    that at least 29 of the 56 candidates for [p] are linked, through some
    [u] and [t], to at least [th] of the 56 candidates for the column frame
    under [w]; on the other side [plenty th cc b] says the same through [v]
    and [s].  Two sets of 29 among 56 candidates meet, and so do a set of 30
    and one of 27: this gives the six frames.  [plenty] is established by
    running [enough] on one pair of frames for each class of pairs under the
    renamings of digits and positions that keep the first box, and carried
    over to the other pairs by [plenty_transfer]. *)

(** ** Orthogonal frames *)

Lemma bit_testbit a b i :
  (i < 9)%N -> N.testbit (bit a b) i = true ->
  a < 3 /\ b < 3 /\ i = N.of_nat (3 * a + b).
Proof.
  intros Hi H.
  assert (Hc : (i = 0 \/ i = 1 \/ i = 2 \/ i = 3 \/ i = 4 \/ i = 5 \/ i = 6 \/
                i = 7 \/ i = 8)%N) by lia.
  destruct a as [|[|[|a]]]; destruct b as [|[|[|b]]];
    try (simpl in H; rewrite N.bits_0 in H; discriminate H);
    repeat (destruct Hc as [Hc|Hc];
            [subst i; try discriminate H; repeat split; try lia; reflexivity|]);
    subst i; try discriminate H; repeat split; try lia; reflexivity.
Qed.

Lemma codes_testbit : forall x y m i,
  N.testbit (codes x y m) i = true ->
  N.testbit m i = true \/
  exists d, d < length x /\ d < length y /\
            N.testbit (bit (at_ x d) (at_ y d)) i = true.
Proof.
  induction x as [|a x IH]; intros y m i H; simpl in H; auto.
  destruct y as [|b y]; auto.
  apply IH in H. destruct H as [H|(d & Hd1 & Hd2 & H)].
  - rewrite N.lor_spec in H. apply orb_true_iff in H. destruct H as [H|H]; auto.
    right. exists 0. simpl. repeat split; try lia. exact H.
  - right. exists (S d). simpl. repeat split; try lia. exact H.
Qed.

Lemma orthb_sound x y :
  length x = 9 -> orthb x y = true -> orth x y.
Proof.
  intros Hl H r c Hr Hc. unfold orthb in H. apply N.eqb_eq in H.
  assert (Ht : N.testbit (codes x y 0) (N.of_nat (3 * r + c)) = true).
  { rewrite H.
    destruct r as [|[|[|r]]]; destruct c as [|[|[|c]]]; try lia; reflexivity. }
  apply codes_testbit in Ht. destruct Ht as [Ht|(d & Hd1 & Hd2 & Ht)].
  - rewrite N.bits_0 in Ht. discriminate.
  - apply bit_testbit in Ht; [|lia].
    destruct Ht as (Ha & Hb & Hi).
    exists d. split; [lia|]. apply Nat2N.inj in Hi. lia.
Qed.

(** ** The search is sound *)

Lemma orb_list_true : forall l1 l2 i,
  nth_error (orb_list l1 l2) i = Some true ->
  nth_error l1 i = Some true \/ nth_error l2 i = Some true.
Proof.
  induction l1 as [|a l1 IH]; intros [|b l2] [|i] H; simpl in *;
    try discriminate.
  - inversion H as [H1]. apply orb_true_iff in H1.
    destruct H1 as [->| ->]; auto.
  - now apply IH.
Qed.

Lemma orb_list_length l1 : forall l2,
  length (orb_list l1 l2) <= length l1.
Proof.
  induction l1 as [|a l1 IH]; intros [|b l2]; simpl; try lia.
  specialize (IH l2). lia.
Qed.

Lemma select_length (A : Type) : forall m (l : list A),
  length m <= length l -> length (select m l) = count_true m.
Proof.
  induction m as [|b m IH]; intros [|a l] H; simpl in *; try lia.
  destruct b; simpl; rewrite IH; lia.
Qed.

Lemma select_In (A : Type) : forall m (l : list A) a,
  In a (select m l) ->
  exists i, nth_error m i = Some true /\ nth_error l i = Some a.
Proof.
  induction m as [|b m IH]; intros [|x l] a H; simpl in *; try contradiction.
  destruct b.
  - destruct H as [->|H].
    + exists 0. auto.
    + destruct (IH _ _ H) as (i & H1 & H2). exists (S i). auto.
  - destruct (IH _ _ H) as (i & H1 & H2). exists (S i). auto.
Qed.

Lemma select_incl (A : Type) : forall m (l : list A), incl (select m l) l.
Proof.
  induction m as [|b m IH]; intros [|x l] a H; simpl in *; try contradiction.
  destruct b.
  - destruct H as [->|H]; auto. right. now apply IH.
  - right. now apply IH.
Qed.

Lemma select_NoDup (A : Type) : forall m (l : list A),
  NoDup l -> NoDup (select m l).
Proof.
  induction m as [|b m IH]; intros [|x l] H; simpl; try constructor.
  inversion H as [|? ? Hx Hl]; subst. destruct b; auto.
  constructor; auto. intros Hin. apply Hx. now apply select_incl in Hin.
Qed.

Lemma falses_nth i : nth_error falses i <> Some true.
Proof.
  unfold falses. intros H. apply nth_error_In in H.
  apply repeat_spec in H. discriminate.
Qed.

Lemma ymask_true u' : forall tg acc i,
  nth_error (ymask u' tg acc) i = Some true ->
  nth_error acc i = Some true \/
  exists t' ym, In (t', ym) tg /\ orthb u' t' = true /\
                nth_error ym i = Some true.
Proof.
  induction tg as [|[t' ym] tg IH]; intros acc i H; simpl in H; auto.
  destruct (orthb u' t') eqn:E.
  - apply IH in H. destruct H as [H|(t1 & ym1 & Hin & Ho & Hn)].
    + apply orb_list_true in H. destruct H as [H|H]; auto.
      right. exists t', ym. simpl. auto.
    + right. exists t1, ym1. simpl. auto.
  - apply IH in H. destruct H as [H|(t1 & ym1 & Hin & Ho & Hn)]; auto.
    right. exists t1, ym1. simpl. auto.
Qed.

Lemma enough_eq th tb tg acc :
  enough th tb tg acc =
  if 29 <=? count_true acc then true
  else
    match tb with
    | [] => false
    | (u', xm) :: tb' =>
        if existsb (fun b => b) xm then
          if th <=? count_true (ymask u' tg falses)
          then enough th tb' tg (orb_list acc xm)
          else enough th tb' tg acc
        else enough th tb' tg acc
    end.
Proof. destruct tb; reflexivity. Qed.

Lemma enough_true th tg : forall tb acc,
  enough th tb tg acc = true ->
  exists good,
    29 <= count_true good /\ length good <= length acc /\
    forall i, nth_error good i = Some true ->
      nth_error acc i = Some true \/
      exists u' xm, In (u', xm) tb /\ nth_error xm i = Some true /\
                    th <= count_true (ymask u' tg falses).
Proof.
  induction tb as [|[u' xm] tb IH]; intros acc H; rewrite enough_eq in H.
  - destruct (29 <=? count_true acc) eqn:E; [|discriminate].
    apply Nat.leb_le in E. exists acc. auto.
  - destruct (29 <=? count_true acc) eqn:E.
    + apply Nat.leb_le in E. exists acc. auto.
    + destruct (existsb (fun b => b) xm).
      * destruct (th <=? count_true (ymask u' tg falses)) eqn:Et.
        -- apply Nat.leb_le in Et. apply IH in H.
           destruct H as (good & Hc & Hl & Hg).
           exists good. split; auto. split.
           ++ pose proof (orb_list_length acc xm). lia.
           ++ intros i Hi. destruct (Hg i Hi) as [Ha|(u1 & xm1 & Hin & Hn & Hth)].
              ** apply orb_list_true in Ha. destruct Ha as [Ha|Ha]; auto.
                 right. exists u', xm. simpl. auto.
              ** right. exists u1, xm1. simpl. auto.
        -- apply IH in H. destruct H as (good & Hc & Hl & Hg).
           exists good. split; auto. split; auto.
           intros i Hi. destruct (Hg i Hi) as [Ha|(u1 & xm1 & Hin & Hn & Hth)];
             auto.
           right. exists u1, xm1. simpl. auto.
      * apply IH in H. destruct H as (good & Hc & Hl & Hg).
        exists good. split; auto. split; auto.
        intros i Hi. destruct (Hg i Hi) as [Ha|(u1 & xm1 & Hin & Hn & Hth)];
          auto.
        right. exists u1, xm1. simpl. auto.
Qed.

Lemma succ3_spec a : succ3 a < 3 /\ succ3 a <> a.
Proof. destruct a as [|[|[|a]]]; simpl; lia. Qed.

Lemma pred3_spec a : pred3 a < 3 /\ pred3 a <> a.
Proof. destruct a as [|[|[|a]]]; simpl; lia. Qed.

Lemma succ3_pred3 a : succ3 a <> pred3 a.
Proof. destruct a as [|[|[|a]]]; simpl; lia. Qed.

Lemma variants_spec : forall k z,
  In z (variants k) ->
  length z = length k /\
  forall d, d < length k -> at_ z d < 3 /\ at_ z d <> at_ k d.
Proof.
  induction k as [|a k IH]; intros z H; simpl in H.
  - destruct H as [<-|[]]. split; auto. simpl. intros d Hd. lia.
  - apply in_app_or in H.
    destruct H as [H|H]; apply in_map_iff in H; destruct H as (z' & <- & Hz');
      destruct (IH _ Hz') as [Hl Hd]; (split; [simpl; now rewrite Hl|]);
      intros [|d] Hlt; unfold at_; simpl.
    + apply succ3_spec.
    + apply Hd. simpl in Hlt. lia.
    + apply pred3_spec.
    + apply Hd. simpl in Hlt. lia.
Qed.

Lemma variants_NoDup : forall k, NoDup (variants k).
Proof.
  induction k as [|a k IH]; simpl.
  - repeat constructor. simpl. tauto.
  - apply NoDup_app.
    + apply NoDup_map_on; auto. intros x y _ _ H. now inversion H.
    + apply NoDup_map_on; auto. intros x y _ _ H. now inversion H.
    + intros z H1 H2. apply in_map_iff in H1, H2.
      destruct H1 as (z1 & <- & _). destruct H2 as (z2 & Heq & _).
      inversion Heq. symmetry in H0. now apply succ3_pred3 in H0.
Qed.

Lemma D_NoDup k : NoDup (D k).
Proof. apply NoDup_filter, variants_NoDup. Qed.

Lemma D_inD k z : length k = 9 -> In z (D k) -> inD k z.
Proof.
  intros Hk H. apply filter_In in H. destruct H as [H _].
  apply variants_spec in H. destruct H as [Hl Hd].
  split; [congruence|]. intros d Hlt. apply Hd. lia.
Qed.

Lemma third_length : forall k z, length z = length k -> length (third k z) = length k.
Proof.
  induction k as [|a k IH]; intros [|b z] H; simpl in *; try lia.
  rewrite IH; lia.
Qed.

Lemma third_at : forall k z d,
  d < length k -> d < length z ->
  at_ (third k z) d = third1 (at_ k d) (at_ z d).
Proof.
  induction k as [|a k IH]; intros [|b z] [|d] Hk Hz; simpl in *; try lia.
  - reflexivity.
  - unfold at_ in *. simpl. apply IH; lia.
Qed.

Lemma Xs0_length : length Xs0 = 56.
Proof. vm_compute. reflexivity. Qed.

Lemma Ys0_length : length Ys0 = 56.
Proof. vm_compute. reflexivity. Qed.

Lemma falses_length : length falses = 56.
Proof. reflexivity. Qed.

Lemma ymask_length u' : forall tg acc,
  length (ymask u' tg acc) <= length acc.
Proof.
  induction tg as [|[t' ym] tg IH]; intros acc; simpl; auto.
  destruct (orthb u' t').
  - specialize (IH (orb_list acc ym)).
    pose proof (orb_list_length acc ym). lia.
  - apply IH.
Qed.

Lemma enough_sound th b g :
  length b = 9 -> length g = 9 ->
  enough th (btab b) (gtab g) falses = true -> plenty th b g.
Proof.
  intros Hb Hg H. apply enough_true in H.
  destruct H as (good & Hc & Hl & Hgood).
  exists (select good Xs0). split; [apply select_NoDup, D_NoDup|].
  split.
  { rewrite select_length; [exact Hc|].
    rewrite Xs0_length. rewrite falses_length in Hl. exact Hl. }
  split; [apply select_incl|].
  intros x Hx. apply select_In in Hx. destruct Hx as (i & Hi & Hxi).
  destruct (Hgood i Hi) as [Hf|(u' & xm & Hin & Hn & Hth)].
  { now apply falses_nth in Hf. }
  unfold btab in Hin. apply in_map_iff in Hin.
  destruct Hin as (u & Heq & Hu).
  pose proof (f_equal fst Heq) as E1. pose proof (f_equal snd Heq) as E2.
  cbn [fst snd] in E1, E2. subst u' xm. clear Heq.
  pose proof (D_inD _ _ Hb Hu) as HuD.
  rewrite nth_error_map, Hxi in Hn. cbn [option_map] in Hn.
  injection Hn as Hox.
  assert (Hxl : length x = 9).
  { apply nth_error_In in Hxi. apply (D_inD a0) in Hxi; [apply Hxi|reflexivity]. }
  exists u. split; [exact HuD|]. split; [now apply orthb_sound|].
  exists (select (ymask (third b u) (gtab g) falses) Ys0).
  split; [apply select_NoDup, D_NoDup|]. split.
  { rewrite select_length; [exact Hth|].
    rewrite Ys0_length, <- falses_length. apply ymask_length. }
  split; [apply select_incl|].
  intros y Hy. apply select_In in Hy. destruct Hy as (j & Hj & Hyj).
  apply ymask_true in Hj. destruct Hj as [Hf|(t' & ym & Hin & Ho & Hn')].
  { now apply falses_nth in Hf. }
  unfold gtab in Hin. apply in_map_iff in Hin.
  destruct Hin as (t & Heq & Ht).
  pose proof (f_equal fst Heq) as E1. pose proof (f_equal snd Heq) as E2.
  cbn [fst snd] in E1, E2. subst t' ym. clear Heq.
  pose proof (D_inD _ _ Hg Ht) as HtD.
  rewrite nth_error_map, Hyj in Hn'. cbn [option_map] in Hn'.
  injection Hn' as Hoy.
  exists t. split; [exact HtD|]. split.
  - apply orthb_sound; auto. rewrite third_length; [exact Hb|].
    destruct HuD as [HuL _]. congruence.
  - apply orthb_sound; auto. apply HtD.
Qed.

(** ** The searches that were run *)

(** With 30 linked frames asked for, the search succeeds for every pair
    but [(a0c, a0c)]; with 27, it succeeds there too. *)
Lemma check_all_30 : check_all_on 30 true reps canon_frames = true.
Proof. vm_cast_no_check (eq_refl true). Qed.

Lemma check_27 : enough 27 (btab a0c) (gtab a0c) falses = true.
Proof. vm_cast_no_check (eq_refl true). Qed.

(** ** Renaming digits and positions *)

Lemma label_perm_onto l r : label_perm l -> r < 3 -> exists r0, r0 < 3 /\ l r0 = r.
Proof.
  intros [Hr Hi] Hlt.
  assert (H0 : l 0 < 3) by (apply Hr; lia).
  assert (H1 : l 1 < 3) by (apply Hr; lia).
  assert (H2 : l 2 < 3) by (apply Hr; lia).
  assert (H01 : l 0 <> l 1) by (intros E; apply Hi in E; lia).
  assert (H02 : l 0 <> l 2) by (intros E; apply Hi in E; lia).
  assert (H12 : l 1 <> l 2) by (intros E; apply Hi in E; lia).
  destruct (Nat.eq_dec (l 0) r); [exists 0; lia|].
  destruct (Nat.eq_dec (l 1) r); [exists 1; lia|].
  destruct (Nat.eq_dec (l 2) r); [exists 2; lia|].
  exfalso. lia.
Qed.

Lemma label_perm_third l k v :
  label_perm l -> k < 3 -> v < 3 -> k <> v ->
  third1 (l k) (l v) = l (third1 k v).
Proof.
  intros [Hr Hi] Hk Hv Hne. unfold third1.
  assert (H0 : l 0 < 3) by (apply Hr; lia).
  assert (H1 : l 1 < 3) by (apply Hr; lia).
  assert (H2 : l 2 < 3) by (apply Hr; lia).
  assert (H01 : l 0 <> l 1) by (intros E; apply Hi in E; lia).
  assert (H02 : l 0 <> l 2) by (intros E; apply Hi in E; lia).
  assert (H12 : l 1 <> l 2) by (intros E; apply Hi in E; lia).
  destruct k as [|[|[|k]]]; destruct v as [|[|[|v]]]; try lia;
    match goal with
    | |- _ = l ?t => let w := eval compute in t in change t with w
    end; lia.
Qed.

Lemma orth_sym x y : orth x y -> orth y x.
Proof.
  intros H r c Hr Hc. destruct (H c r Hc Hr) as (d & Hd & H1 & H2).
  exists d. auto.
Qed.

Lemma orth_map x y x' y' f lx ly :
  digit_perm f -> label_perm lx -> label_perm ly ->
  (forall d, d < 9 -> at_ x' d = lx (at_ x (f d))) ->
  (forall d, d < 9 -> at_ y' d = ly (at_ y (f d))) ->
  orth x y -> orth x' y'.
Proof.
  intros [Hf1 Hf2] Hlx Hly Hx Hy H r c Hr Hc.
  destruct (label_perm_onto lx r Hlx Hr) as (r0 & Hr0 & <-).
  destruct (label_perm_onto ly c Hly Hc) as (c0 & Hc0 & <-).
  destruct (H r0 c0 Hr0 Hc0) as (e & He & H1 & H2).
  destruct (Hf2 e He) as (d & Hd & <-).
  exists d. split; auto. rewrite Hx, Hy by auto. now rewrite H1, H2.
Qed.

Lemma NoDup_map_sub (A B : Type) (f : A -> B) l l' :
  NoDup (map f l) -> NoDup l' -> incl l' l -> NoDup (map f l').
Proof.
  intros Hf Hl' Hincl. apply NoDup_map_on; auto.
  intros x y Hx Hy Heq. apply Hincl in Hx, Hy.
  clear Hl' Hincl l'. induction l as [|a l IH]; [contradiction|].
  simpl in Hf. inversion Hf as [|? ? Hna Hnd]; subst.
  destruct Hx as [->|Hx], Hy as [->|Hy]; auto.
  - exfalso. apply Hna. rewrite Heq. now apply in_map.
  - exfalso. apply Hna. rewrite <- Heq. now apply in_map.
Qed.

Lemma id_label_perm : label_perm (fun v => v).
Proof. split; auto. Qed.

Lemma plenty_transfer th b g b' g' f lb lg fx fy :
  length b = 9 -> length g = 9 ->
  digit_perm f -> label_perm lb -> label_perm lg ->
  renamed f lb b b' -> renamed f lg g g' ->
  acts f fx Xs0 -> acts f fy Ys0 ->
  plenty th b g -> plenty th b' g'.
Proof.
  intros Hlb Hlg Hf Hpb Hpg (Hb'l & Hbv & Hb') (Hg'l & Hgv & Hg')
         (Hxn & lx & Hlx & Hfx) (Hyn & ly & Hly & Hfy)
         (Xs & HXn & HXl & HXi & HX).
  exists (map fx Xs). split; [eapply NoDup_map_sub; eauto|].
  split; [now rewrite length_map|]. split.
  { intros x' Hx'. apply in_map_iff in Hx'. destruct Hx' as (x & <- & Hx).
    apply Hfx. now apply HXi. }
  intros x' Hx'. apply in_map_iff in Hx'. destruct Hx' as (x & <- & Hx).
  destruct (HX x Hx) as (u & (Hul & Hu) & Hxu & Ys & HYn & HYl & HYi & HY).
  pose proof Hf as [Hf1 Hf2].
  set (u' := map (fun d => lb (at_ u (f d))) (seq 0 9)).
  assert (Hu'at : forall d, d < 9 -> at_ u' d = lb (at_ u (f d))).
  { intros d Hd. unfold u', at_.
    rewrite (nth_indep _ 0 (lb (nth (f 0) u 0)))
      by (rewrite length_map, length_seq; exact Hd).
    rewrite (map_nth (fun d => lb (nth (f d) u 0))), seq_nth by exact Hd.
    reflexivity. }
  assert (Hu'l : length u' = 9) by (unfold u'; now rewrite length_map, length_seq).
  assert (Hthird : forall k k' z z' l,
            label_perm l -> length k = 9 -> length k' = 9 ->
            length z = 9 -> length z' = 9 ->
            (forall d, d < 9 -> at_ k (f d) < 3) ->
            (forall d, d < 9 -> at_ z d < 3 /\ at_ z d <> at_ k d) ->
            (forall d, d < 9 -> at_ k' d = l (at_ k (f d))) ->
            (forall d, d < 9 -> at_ z' d = l (at_ z (f d))) ->
            forall d, d < 9 ->
              at_ (third k' z') d = l (at_ (third k z) (f d))).
  { intros k k' z z' l Hl Hk Hk' Hz Hz' Hkv Hzd Hka Hza d Hd.
    rewrite !third_at by (rewrite ?Hk, ?Hk', ?Hz, ?Hz'; auto).
    rewrite Hka, Hza by auto.
    destruct (Hzd (f d) (Hf1 d Hd)) as [Hz3 Hzne].
    apply label_perm_third; auto. }
  exists u'. split.
  { split; [exact Hu'l|]. intros d Hd. rewrite Hu'at, Hb' by auto.
    destruct (Hu (f d) (Hf1 d Hd)) as [Hu3 Hune]. split.
    - now apply Hpb.
    - intros Heq. apply Hune. apply Hpb; auto. }
  split.
  { apply (orth_map x u (fx x) u' f lx lb Hf Hlx Hpb);
      [apply Hfx; now apply HXi | exact Hu'at | exact Hxu]. }
  exists (map fy Ys). split; [eapply NoDup_map_sub; eauto|].
  split; [now rewrite length_map|]. split.
  { intros y' Hy'. apply in_map_iff in Hy'. destruct Hy' as (y & <- & Hy).
    apply Hfy. now apply HYi. }
  intros y' Hy'. apply in_map_iff in Hy'. destruct Hy' as (y & <- & Hy).
  destruct (HY y Hy) as (t & (Htl & Ht) & Hut & Hty).
  set (t' := map (fun d => lg (at_ t (f d))) (seq 0 9)).
  assert (Ht'at : forall d, d < 9 -> at_ t' d = lg (at_ t (f d))).
  { intros d Hd. unfold t', at_.
    rewrite (nth_indep _ 0 (lg (nth (f 0) t 0)))
      by (rewrite length_map, length_seq; exact Hd).
    rewrite (map_nth (fun d => lg (nth (f d) t 0))), seq_nth by exact Hd.
    reflexivity. }
  assert (Ht'l : length t' = 9) by (unfold t'; now rewrite length_map, length_seq).
  exists t'. split.
  { split; [exact Ht'l|]. intros d Hd. rewrite Ht'at, Hg' by auto.
    destruct (Ht (f d) (Hf1 d Hd)) as [Ht3 Htne]. split.
    - now apply Hpg.
    - intros Heq. apply Htne. apply Hpg; auto. }
  split.
  - apply (orth_map (third b u) (third g t) _ _ f lb lg Hf Hpb Hpg);
      [apply (Hthird b b' u u' lb); auto
      |apply (Hthird g g' t t' lg); auto
      |exact Hut].
  - apply (orth_map t y t' (fy y) f lg ly Hf Hpg Hly);
      [exact Ht'at | apply Hfy; now apply HYi | exact Hty].
Qed.

(** Every canonical frame is taken to a representative by a symmetry;
    every balanced frame is canonical up to the names of its positions;
    [third] permutes the candidates. *)
Lemma reps_check_ok : reps_check_on syms reps canon_frames = true.
Proof. vm_cast_no_check (eq_refl true). Qed.

Lemma canon_check_ok : canon_check_on canon_frames (lists3 9) = true.
Proof. vm_cast_no_check (eq_refl true). Qed.

Lemma closed_Xs0 : closed_b a0 Xs0 = true.
Proof. vm_cast_no_check (eq_refl true). Qed.

Lemma closed_Ys0 : closed_b a0c Ys0 = true.
Proof. vm_cast_no_check (eq_refl true). Qed.

(** ** Soundness of the boolean tests *)

Lemma eqb_frame_true : forall x y, eqb_frame x y = true -> x = y.
Proof.
  induction x as [|a x IH]; intros [|b y] H; simpl in H; try discriminate; auto.
  apply andb_prop in H. destruct H as [H1 H2].
  apply Nat.eqb_eq in H1. apply IH in H2. congruence.
Qed.

Lemma eqb_frame_refl : forall x, eqb_frame x x = true.
Proof.
  induction x as [|a x IH]; simpl; auto. now rewrite Nat.eqb_refl, IH.
Qed.

Lemma memb_In x l : memb x l = true -> In x l.
Proof.
  unfold memb. intros H. apply existsb_exists in H.
  destruct H as (y & Hy & He). apply eqb_frame_true in He. now subst.
Qed.

Lemma memb_false x l : memb x l = false -> ~ In x l.
Proof.
  unfold memb. intros H Hin.
  assert (E : existsb (eqb_frame x) l = true).
  { apply existsb_exists. exists x. split; auto. apply eqb_frame_refl. }
  congruence.
Qed.

Lemma nodupb_NoDup : forall l, nodupb l = true -> NoDup l.
Proof.
  induction l as [|x l IH]; simpl; intros H; [constructor|].
  apply andb_prop in H. destruct H as [H1 H2].
  constructor; [|now apply IH].
  apply memb_false. now destruct (memb x l).
Qed.

Lemma at_map f l d : d < length l -> at_ (map f l) d = f (at_ l d).
Proof.
  intros H. unfold at_.
  rewrite (nth_indep _ 0 (f 0)) by (rewrite length_map; exact H).
  apply map_nth.
Qed.

Lemma at_rel pi x d : d < length pi -> at_ (rel pi x) d = at_ x (at_ pi d).
Proof. intros H. unfold rel. now rewrite at_map. Qed.

Lemma at_relab l x d : d < length x -> at_ (relab l x) d = at_ l (at_ x d).
Proof. intros H. unfold relab. now rewrite at_map. Qed.

Lemma rel_length pi x : length (rel pi x) = length pi.
Proof. unfold rel. apply length_map. Qed.

Lemma relab_length l x : length (relab l x) = length x.
Proof. unfold relab. apply length_map. Qed.

Lemma perms3_spec l :
  In l perms3 ->
  In (inverse 3 l) perms3 /\
  label_perm (at_ l) /\ label_perm (at_ (inverse 3 l)) /\
  forall v, v < 3 -> at_ (inverse 3 l) (at_ l v) = v /\
                     at_ l (at_ (inverse 3 l) v) = v.
Proof.
  intros H. unfold perms3 in H. simpl in H.
  assert (Hlp : forall m, (forall v, v < 3 -> at_ m v < 3) ->
                          at_ m 0 <> at_ m 1 -> at_ m 0 <> at_ m 2 ->
                          at_ m 1 <> at_ m 2 -> label_perm (at_ m)).
  { intros m Hr H01 H02 H12. split; [exact Hr|].
    intros v w Hv Hw E. three v Hv; three w Hw; congruence. }
  repeat (destruct H as [<-|H]; [| ]); try contradiction;
    (split; [vm_compute; tauto|]);
    (split; [apply Hlp; [intros v Hv; three v Hv; vm_compute; lia
                        |vm_compute; lia ..]|]);
    (split; [apply Hlp; [intros v Hv; three v Hv; vm_compute; lia
                        |vm_compute; lia ..]|]);
    intros v Hv; three v Hv; vm_compute; auto.
Qed.

Opaque reps canon_frames syms Xs0 Ys0.

Lemma perm9b_spec pi :
  perm9b pi = true ->
  length pi = 9 /\
  forall d, d < 9 ->
    at_ pi d < 9 /\ at_ (inverse 9 pi) d < 9 /\
    at_ (inverse 9 pi) (at_ pi d) = d /\
    at_ pi (at_ (inverse 9 pi) d) = d /\
    (at_ pi d) mod 3 = (at_ pi (d mod 3)) mod 3.
Proof.
  unfold perm9b. intros H. apply andb_prop in H. destruct H as [H1 H2].
  apply Nat.eqb_eq in H1. split; [exact H1|].
  intros d Hd. rewrite forallb_forall in H2.
  assert (Hin : In d (seq 0 9)) by (apply in_seq; lia).
  specialize (H2 d Hin).
  repeat (apply andb_prop in H2; destruct H2 as [H2 ?]).
  repeat match goal with
         | H : (_ <? _) = true |- _ => apply Nat.ltb_lt in H
         | H : (_ =? _) = true |- _ => apply Nat.eqb_eq in H
         end.
  auto.
Qed.

Lemma inverse_length n l : length (inverse n l) = n.
Proof. unfold inverse. now rewrite length_map, length_seq. Qed.

Lemma perm9b_digit_perm pi : perm9b pi = true -> digit_perm (at_ pi).
Proof.
  intros H. apply perm9b_spec in H. destruct H as [_ H]. split.
  - intros d Hd. apply H, Hd.
  - intros e He. exists (at_ (inverse 9 pi) e). split; apply H, He.
Qed.

Lemma perm9b_perm9 pi : perm9b pi = true -> perm9 (inverse 9 pi).
Proof.
  intros H. apply perm9b_spec in H. destruct H as [_ H].
  split; [apply inverse_length|]. split.
  - intros d Hd. apply H, Hd.
  - intros d e Hd He E.
    destruct (H d Hd) as (_ & _ & _ & H1 & _).
    destruct (H e He) as (_ & _ & _ & H2 & _). congruence.
Qed.

Lemma acts_b_sound pi lam l0 :
  length pi = 9 -> label_perm (at_ lam) ->
  (forall x, In x l0 -> length x = 9) ->
  (forall d, d < 9 -> at_ pi d < 9) ->
  acts_b pi lam l0 = true ->
  acts (at_ pi) (fun x => relab lam (rel pi x)) l0.
Proof.
  intros Hpi Hlam Hlen Hr H. unfold acts_b in H. cbv zeta in H.
  apply andb_prop in H. destruct H as [H1 H2].
  split; [now apply nodupb_NoDup|].
  exists (at_ lam). split; [exact Hlam|].
  intros x Hx. split.
  - apply memb_In. rewrite forallb_forall in H1. apply H1.
    now apply (in_map (fun x => relab lam (rel pi x))).
  - intros d Hd. rewrite at_relab by (rewrite rel_length; lia).
    rewrite at_rel by lia. reflexivity.
Qed.

Lemma syms_spec_on st pi lx ly :
  In (pi, lx, ly) (flat_map sym_of st) ->
  perm9b pi = true /\ In lx perms3 /\ In ly perms3 /\
  acts_b pi lx Xs0 = true /\ acts_b pi ly Ys0 = true.
Proof.
  intros H. destruct (proj1 (in_flat_map sym_of st (pi, lx, ly)) H) as (pi' & _ & H').
  clear H. unfold sym_of in H'.
  destruct (find (fun l => acts_b pi' l Xs0) perms3) as [lx'|] eqn:Ex; [|contradiction].
  destruct (find (fun l => acts_b pi' l Ys0) perms3) as [ly'|] eqn:Ey; [|contradiction].
  destruct (perm9b pi') eqn:Ep; [|contradiction].
  destruct H' as [H'|[]].
  assert (pi' = pi /\ lx' = lx /\ ly' = ly) as (-> & -> & ->).
  { repeat split; congruence. }
  apply find_some in Ex, Ey. tauto.
Qed.

Lemma syms_spec pi lx ly :
  In (pi, lx, ly) syms ->
  perm9b pi = true /\ In lx perms3 /\ In ly perms3 /\
  acts_b pi lx Xs0 = true /\ acts_b pi ly Ys0 = true.
Proof. exact (syms_spec_on stab pi lx ly). Qed.

Lemma Xs0_len x : In x Xs0 -> length x = 9.
Proof. intros H. apply (D_inD a0) in H; [apply H|reflexivity]. Qed.

Lemma Ys0_len y : In y Ys0 -> length y = 9.
Proof. intros H. apply (D_inD a0c) in H; [apply H|reflexivity]. Qed.

Lemma in_lists3 : forall n z,
  length z = n -> (forall v, In v z -> v < 3) -> In z (lists3 n).
Proof.
  induction n as [|n IH]; intros [|a z] Hl Hv; simpl in Hl; try discriminate.
  - now left.
  - cbn [lists3]. apply in_flat_map. exists z. split.
    + apply IH; [lia|]. intros v Hin. apply Hv. now right.
    + assert (Ha : a < 3) by (apply Hv; now left).
      three a Ha; simpl; auto.
Qed.

Lemma frame_ok_values z v : frame_ok z -> In v z -> v < 3.
Proof.
  intros (Hl & Hv & _) Hin. apply (In_nth _ _ 0) in Hin.
  destruct Hin as (d & Hd & <-). apply Hv. lia.
Qed.

Lemma canon_check_sound cf ls z :
  canon_check_on cf ls = true -> In z ls -> balancedb z = true ->
  exists l, In l perms3 /\ In (relab l z) cf.
Proof.
  unfold canon_check_on. intros H Hin Hb. rewrite forallb_forall in H.
  specialize (H z Hin). rewrite Hb in H.
  apply existsb_exists in H. destruct H as (l & Hl & Hm).
  exists l. split; [exact Hl|]. now apply memb_In.
Qed.

Lemma canon_label z :
  frame_ok z -> exists l, In l perms3 /\ In (relab l z) canon_frames.
Proof.
  intros Hz. apply (canon_check_sound canon_frames (lists3 9) z canon_check_ok).
  - apply in_lists3; [apply Hz|]. intros v. now apply frame_ok_values.
  - apply Hz.
Qed.

Lemma map_at_seq z : length z = 9 -> map (at_ z) (seq 0 9) = z.
Proof.
  intros H. do 9 (destruct z as [|? z]; [discriminate|]).
  destruct z; [reflexivity|discriminate].
Qed.

Lemma perm9_Permutation s : perm9 s -> Permutation s (seq 0 9).
Proof.
  intros (Hl & Hr & Hi). apply NoDup_Permutation_bis.
  - apply (NoDup_nth s 0). intros i j Hi' Hj' E. rewrite Hl in Hi', Hj'.
    apply Hi; assumption.
  - rewrite length_seq. lia.
  - intros x Hx. apply (In_nth _ _ 0) in Hx. destruct Hx as (d & Hd & <-).
    apply in_seq. split; [lia|]. apply (Hr d). lia.
Qed.

Lemma frame_ok_rel s z : perm9 s -> frame_ok z -> frame_ok (rel s z).
Proof.
  intros Hs (Hl & Hv & Hb). pose proof Hs as (Hsl & Hsr & _).
  split; [now rewrite rel_length|]. split.
  - intros d Hd. rewrite at_rel by lia. apply Hv, Hsr, Hd.
  - assert (HP : Permutation (rel s z) z).
    { rewrite <- (map_at_seq z Hl) at 2. unfold rel.
      apply Permutation_map. now apply perm9_Permutation. }
    unfold balancedb in *.
    pose proof (proj1 (Permutation_count_occ Nat.eq_dec _ _) HP) as Hc.
    now rewrite !Hc.
Qed.

Lemma frame_ok_relab l z : In l perms3 -> frame_ok z ->
  length (relab l z) = 9 /\ forall d, d < 9 -> at_ (relab l z) d < 3.
Proof.
  intros Hl (Hz & Hv & _). split; [now rewrite relab_length|].
  intros d Hd. rewrite at_relab by lia.
  apply perms3_spec in Hl. destruct Hl as (_ & [Hr _] & _). apply Hr, Hv, Hd.
Qed.

Lemma label_perm_comp l m : label_perm l -> label_perm m ->
  label_perm (fun v => l (m v)).
Proof.
  intros [Hl1 Hl2] [Hm1 Hm2]. split.
  - intros v Hv. apply Hl1, Hm1, Hv.
  - intros v w Hv Hw E. apply Hm2; [exact Hv|exact Hw|].
    apply Hl2; [apply Hm1, Hv|apply Hm1, Hw|exact E].
Qed.

Lemma a0c_at d : d < 9 -> at_ a0c d = d mod 3.
Proof.
  intros H. do 9 (destruct d as [|d]; [reflexivity|]). lia.
Qed.

Lemma plenty_mono th th' b g : th' <= th -> plenty th b g -> plenty th' b g.
Proof.
  intros Hle (Xs & H1 & H2 & H3 & H4). exists Xs. repeat split; auto.
  intros x Hx. destruct (H4 x Hx) as (u & Hu & Hxu & Ys & Hn & Hlen & Hi & Hy).
  exists u. split; auto. split; auto. exists Ys. repeat split; auto. lia.
Qed.

Lemma check_all_on_sound th ex rs cfs b g :
  check_all_on th ex rs cfs = true ->
  In b rs -> In g cfs -> length b = 9 -> length g = 9 ->
  (b = a0c /\ g = a0c) \/ plenty th b g.
Proof.
  unfold check_all_on. cbv zeta. intros H Hb Hg Hbl Hgl.
  rewrite forallb_forall in H.
  specialize (H b Hb). rewrite forallb_forall in H.
  assert (Hin : In (g, gtab g) (map (fun g => (g, gtab g)) cfs)).
  { now apply (in_map (fun g => (g, gtab g))). }
  specialize (H (g, gtab g) Hin).
  apply orb_prop in H. destruct H as [H|H].
  - left. apply andb_prop in H. destruct H as [H1 H2].
    apply andb_prop in H1. destruct H1 as [_ H1].
    apply eqb_frame_true in H1, H2. auto.
  - right. now apply enough_sound.
Qed.

Lemma check_all_sound b g :
  In b reps -> In g canon_frames -> length b = 9 -> length g = 9 ->
  (b = a0c /\ g = a0c) \/ plenty 30 b g.
Proof. exact (check_all_on_sound 30 true reps canon_frames b g check_all_30). Qed.

(** ** Every pair of frames has plenty of links *)

Lemma reps_check_sound ss rs cfs b :
  reps_check_on ss rs cfs = true -> In b cfs ->
  exists s l, In s ss /\ In l perms3 /\
              In (relab l (rel (inverse 9 (fst (fst s))) b)) rs.
Proof.
  unfold reps_check_on, norm_b. intros H Hb. rewrite forallb_forall in H.
  specialize (H b Hb). apply existsb_exists in H. destruct H as (s & Hs & H).
  apply existsb_exists in H. destruct H as (l & Hl & H).
  exists s, l. split; [exact Hs|]. split; [exact Hl|]. now apply memb_In.
Qed.

Lemma at_norm pi l z d :
  perm9b pi = true -> length z = 9 -> d < 9 ->
  at_ (relab l (rel (inverse 9 pi) z)) (at_ pi d) = at_ l (at_ z d).
Proof.
  intros Hp Hz Hd. apply perm9b_spec in Hp. destruct Hp as [Hl Hp].
  destruct (Hp d Hd) as (H1 & _ & H2 & _).
  rewrite at_relab by (rewrite rel_length, inverse_length; exact H1).
  rewrite at_rel by (rewrite inverse_length; exact H1).
  now rewrite H2.
Qed.

Lemma normalise b g :
  frame_ok b -> frame_ok g ->
  exists b2 g2 f lb lg fx fy,
    In b2 reps /\ In g2 canon_frames /\ length b2 = 9 /\ length g2 = 9 /\
    digit_perm f /\ (forall d, d < 9 -> (f d) mod 3 = (f (d mod 3)) mod 3) /\
    label_perm lb /\ label_perm lg /\
    renamed f lb b2 b /\ renamed f lg g2 g /\
    acts f fx Xs0 /\ acts f fy Ys0.
Proof.
  intros Hb Hg.
  destruct (canon_label b Hb) as (l1 & Hl1 & Hb1).
  destruct (reps_check_sound _ _ _ _ reps_check_ok Hb1) as (s & l & Hs & Hl & Hb2).
  destruct s as [[pi lx] ly]. cbn [fst] in Hb2.
  destruct (syms_spec pi lx ly Hs) as (Hp & Hlx & Hly & Hax & Hay).
  pose proof (perm9b_perm9 pi Hp) as Hpn.
  pose proof (frame_ok_rel _ _ Hpn Hg) as Hg1.
  destruct (canon_label _ Hg1) as (m & Hm & Hg2).
  pose proof (perm9b_spec pi Hp) as [Hpl Hpd].
  destruct (perms3_spec l1 Hl1) as (_ & Hl1p & Hl1i & Hl1v).
  destruct (perms3_spec l Hl) as (_ & Hlp & Hli & Hlv).
  destruct (perms3_spec m Hm) as (_ & Hmp & Hmi & Hmv).
  destruct (perms3_spec lx Hlx) as (_ & Hlxp & _).
  destruct (perms3_spec ly Hly) as (_ & Hlyp & _).
  pose proof Hb as (Hbl & Hbv & _). pose proof Hg as (Hgl & Hgv & _).
  assert (Hb1l : length (relab l1 b) = 9) by now rewrite relab_length.
  exists (relab l (rel (inverse 9 pi) (relab l1 b))),
         (relab m (rel (inverse 9 pi) g)),
         (at_ pi),
         (fun v => at_ (inverse 3 l1) (at_ (inverse 3 l) v)),
         (at_ (inverse 3 m)),
         (fun x => relab lx (rel pi x)),
         (fun y => relab ly (rel pi y)).
  split; [exact Hb2|]. split; [exact Hg2|].
  split; [now rewrite relab_length, rel_length, inverse_length|].
  split; [now rewrite relab_length, rel_length, inverse_length|].
  split; [now apply perm9b_digit_perm|].
  split; [intros d Hd; apply Hpd, Hd|].
  split; [now apply label_perm_comp|].
  split; [exact Hmi|].
  split.
  { split; [exact Hbl|]. split.
    - intros d Hd. rewrite at_norm by auto. rewrite at_relab by lia.
      apply Hlp, Hl1p, Hbv, Hd.
    - intros d Hd. rewrite at_norm by auto. rewrite at_relab by lia.
      destruct (Hlv (at_ l1 (at_ b d))) as [E1 _]; [apply Hl1p, Hbv, Hd|].
      rewrite E1.
      destruct (Hl1v (at_ b d)) as [E2 _]; [apply Hbv, Hd|].
      now rewrite E2. }
  split.
  { split; [exact Hgl|]. split.
    - intros d Hd. rewrite at_norm by auto. apply Hmp, Hgv, Hd.
    - intros d Hd. rewrite at_norm by auto.
      destruct (Hmv (at_ g d)) as [E1 _]; [apply Hgv, Hd|]. now rewrite E1. }
  split.
  - apply acts_b_sound; auto; [apply Xs0_len|intros d Hd; apply Hpd, Hd].
  - apply acts_b_sound; auto; [apply Ys0_len|intros d Hd; apply Hpd, Hd].
Qed.

Lemma colike_back f l b :
  (forall d, d < 9 -> f d < 9) ->
  (forall d, d < 9 -> (f d) mod 3 = (f (d mod 3)) mod 3) ->
  renamed f l a0c b -> colike b.
Proof.
  intros Hr Hf (_ & _ & H) d Hd.
  assert (Hm : d mod 3 < 9).
  { pose proof (Nat.mod_upper_bound d 3). lia. }
  rewrite (H d Hd), (H _ Hm).
  rewrite !a0c_at by (apply Hr; assumption).
  now rewrite (Hf d Hd).
Qed.

Lemma a0c_length : length a0c = 9.
Proof. reflexivity. Qed.

Lemma plenty_any b g :
  frame_ok b -> frame_ok g ->
  plenty 30 b g \/ (colike b /\ colike g /\ plenty 27 b g).
Proof.
  intros Hb Hg.
  destruct (normalise b g Hb Hg)
    as (b2 & g2 & f & lb & lg & fx & fy & Hb2 & Hg2 & Hb2l & Hg2l & Hf & Hfm
        & Hlb & Hlg & Hrb & Hrg & Hax & Hay).
  assert (Ht : forall th, plenty th b2 g2 -> plenty th b g).
  { intros th. now apply (plenty_transfer th b2 g2 b g f lb lg fx fy). }
  destruct (check_all_sound b2 g2 Hb2 Hg2 Hb2l Hg2l) as [[E1 E2]|H30].
  - right. subst b2 g2. destruct Hf as [Hf1 _].
    split; [now apply (colike_back f lb)|].
    split; [now apply (colike_back f lg)|].
    apply Ht. apply enough_sound; [reflexivity..|exact check_27].
  - left. now apply Ht.
Qed.

(** ** The six boxes *)

Lemma memb_true x l : In x l -> memb x l = true.
Proof.
  intros H. unfold memb. apply existsb_exists. exists x.
  split; [exact H|apply eqb_frame_refl].
Qed.

Lemma meet (l l1 l2 : list frame) :
  NoDup l1 -> NoDup l2 -> incl l1 l -> incl l2 l ->
  length l < length l1 + length l2 ->
  exists x, In x l1 /\ In x l2.
Proof.
  intros H1 H2 I1 I2 Hlen.
  destruct (existsb (fun x => memb x l2) l1) eqn:E.
  - apply existsb_exists in E. destruct E as (x & Hx & Hm).
    exists x. split; [exact Hx|now apply memb_In].
  - exfalso.
    assert (Hnd : NoDup (l1 ++ l2)).
    { apply NoDup_app; auto. intros a Ha1 Ha2.
      assert (E' : existsb (fun x => memb x l2) l1 = true).
      { apply existsb_exists. exists a. split; [exact Ha1|now apply memb_true]. }
      congruence. }
    assert (Hincl : incl (l1 ++ l2) l) by now apply incl_app.
    pose proof (NoDup_incl_length Hnd Hincl) as Hle.
    rewrite length_app in Hle. lia.
Qed.

Lemma closed_b_sound k l0 :
  closed_b k l0 = true ->
  NoDup (map (third k) l0) /\ forall x, In x l0 -> In (third k x) l0.
Proof.
  unfold closed_b. cbv zeta. intros H. apply andb_prop in H.
  destruct H as [H1 H2]. split; [now apply nodupb_NoDup|].
  intros x Hx. apply memb_In. rewrite forallb_forall in H1. apply H1.
  now apply in_map.
Qed.

Lemma meet_third k l0 l1 l2 :
  closed_b k l0 = true -> length l0 = 56 ->
  NoDup l1 -> NoDup l2 -> incl l1 l0 -> incl l2 l0 ->
  57 <= length l1 + length l2 ->
  exists x, In x l1 /\ In (third k x) l2.
Proof.
  intros Hc Hl0 H1 H2 I1 I2 Hlen.
  apply closed_b_sound in Hc. destruct Hc as [Hn Hcl].
  destruct (meet l0 (map (third k) l1) l2) as (y & Hy1 & Hy2); auto.
  - eapply NoDup_map_sub; eauto.
  - intros y Hy. apply in_map_iff in Hy. destruct Hy as (x & <- & Hx).
    apply Hcl, I1, Hx.
  - rewrite length_map. lia.
  - apply in_map_iff in Hy1. destruct Hy1 as (x & <- & Hx).
    exists x. auto.
Qed.

(** The six unknown boxes, from enough candidates on both sides. *)
Lemma hexagon_core th1 th2 b bc c cc :
  57 <= th1 + th2 -> plenty th1 bc c -> plenty th2 cc b ->
  exists p u t w s v,
    inD a0 p /\ inD bc u /\ inD c t /\ inD a0c w /\ inD b s /\ inD cc v /\
    orth p u /\ orth (third a0 p) v /\
    orth s w /\ orth (third b s) (third cc v) /\
    orth t (third a0c w) /\ orth (third c t) (third bc u).
Proof.
  intros Hth (Xs1 & Hn1 & Hl1 & Hi1 & HX1) (Xs2 & Hn2 & Hl2 & Hi2 & HX2).
  destruct (meet_third a0 Xs0 Xs1 Xs2 closed_Xs0 Xs0_length) as (p & Hp1 & Hp2);
    auto; [lia|].
  destruct (HX1 p Hp1) as (u & Hu & Hpu & Ys1 & HYn1 & HYl1 & HYi1 & HY1).
  destruct (HX2 _ Hp2) as (v & Hv & Hpv & Ys2 & HYn2 & HYl2 & HYi2 & HY2).
  destruct (meet_third a0c Ys0 Ys2 Ys1 closed_Ys0 Ys0_length) as (w & Hw2 & Hw1);
    auto; [lia|].
  destruct (HY1 _ Hw1) as (t & Ht & Hut & Htw).
  destruct (HY2 _ Hw2) as (s & Hs & Hvs & Hsw).
  exists p, u, t, w, s, v.
  split; [apply D_inD; [reflexivity|apply Hi1, Hp1]|].
  split; [exact Hu|]. split; [exact Ht|].
  split; [apply D_inD; [reflexivity|apply HYi2, Hw2]|].
  split; [exact Hs|]. split; [exact Hv|].
  split; [exact Hpu|]. split; [exact Hpv|]. split; [exact Hsw|].
  split; [now apply orth_sym|]. split; [exact Htw|now apply orth_sym].
Qed.

Theorem hexagon b bc c cc :
  frame_ok b -> frame_ok bc -> frame_ok c -> frame_ok cc ->
  ~ (colike b /\ colike bc) ->
  exists p u t w s v,
    inD a0 p /\ inD bc u /\ inD c t /\ inD a0c w /\ inD b s /\ inD cc v /\
    orth p u /\ orth (third a0 p) v /\
    orth s w /\ orth (third b s) (third cc v) /\
    orth t (third a0c w) /\ orth (third c t) (third bc u).
Proof.
  intros Hb Hbc Hc Hcc Hne.
  destruct (plenty_any bc c Hbc Hc) as [H1|(Cbc & _ & H1)];
    destruct (plenty_any cc b Hcc Hb) as [H2|(_ & Cb & H2)].
  - apply (hexagon_core 30 30); [lia|exact H1|exact H2].
  - apply (hexagon_core 30 27); [lia|exact H1|exact H2].
  - apply (hexagon_core 27 30); [lia|exact H1|exact H2].
  - exfalso. apply Hne. split; assumption.
Qed.

(** ** Assembling the board *)

Lemma get_assemble fr vals r c :
  r < 9 -> c < 9 ->
  get (assemble fr vals) r c =
  Some (match digit_at (fst (fr (r / 3) (c / 3))) (snd (fr (r / 3) (c / 3)))
                       (r mod 3) (c mod 3) with
        | Some d => Some (nth d vals 0%Z)
        | None => None
        end).
Proof.
  intros Hr Hc. unfold get, assemble.
  rewrite nth_error_map, nth_error_seq.
  replace (r <? 9) with true by (symmetry; now apply Nat.ltb_lt).
  cbn [option_map Nat.add].
  rewrite nth_error_map, nth_error_seq.
  replace (c <? 9) with true by (symmetry; now apply Nat.ltb_lt).
  reflexivity.
Qed.

Lemma assemble_shape fr vals : shape (assemble fr vals).
Proof.
  unfold shape, assemble. split.
  - now rewrite length_map, length_seq.
  - apply Forall_forall. intros line H. apply in_map_iff in H.
    destruct H as (r & <- & _). now rewrite length_map, length_seq.
Qed.

Lemma digit_at_Some rho kappa i j d :
  digit_at rho kappa i j = Some d ->
  d < 9 /\ at_ rho d = i /\ at_ kappa d = j.
Proof.
  unfold digit_at. intros H. apply find_some in H. destruct H as [Hin H].
  apply in_seq in Hin. apply andb_prop in H. destruct H as [H1 H2].
  apply Nat.eqb_eq in H1, H2. split; [lia|auto].
Qed.

Lemma digit_at_orth rho kappa i j :
  orth rho kappa -> i < 3 -> j < 3 -> exists d, digit_at rho kappa i j = Some d.
Proof.
  intros Ho Hi Hj. destruct (digit_at rho kappa i j) as [d|] eqn:E; [eauto|].
  exfalso. destruct (Ho i j Hi Hj) as (d & Hd & H1 & H2).
  unfold digit_at in E.
  pose proof (find_none _ _ E d) as Hn. cbv beta in Hn.
  rewrite H1, H2, !Nat.eqb_refl in Hn.
  assert (Hin : In d (seq 0 9)) by (apply in_seq; lia).
  specialize (Hn Hin). discriminate.
Qed.

Lemma assemble_cell fr vals r c v :
  r < 9 -> c < 9 ->
  get (assemble fr vals) r c = Some (Some v) ->
  exists d, d < 9 /\ v = nth d vals 0%Z /\
            at_ (fst (fr (r / 3) (c / 3))) d = r mod 3 /\
            at_ (snd (fr (r / 3) (c / 3))) d = c mod 3.
Proof.
  intros Hr Hc H. rewrite get_assemble in H by assumption.
  destruct (digit_at _ _ _ _) as [d|] eqn:E; [|discriminate].
  apply digit_at_Some in E. destruct E as (Hd & H1 & H2).
  exists d. split; [exact Hd|]. split; [congruence|]. auto.
Qed.

Lemma div_mod_eq r r' : r / 3 = r' / 3 -> r mod 3 = r' mod 3 -> r = r'.
Proof.
  intros H1 H2. rewrite (Nat.div_mod_eq r 3), (Nat.div_mod_eq r' 3). lia.
Qed.

Lemma div3_lt r : r < 9 -> r / 3 < 3.
Proof. intros H. apply Nat.Div0.div_lt_upper_bound. lia. Qed.

Lemma mod3_lt r : r mod 3 < 3.
Proof. apply Nat.mod_upper_bound. lia. Qed.

Lemma assemble_solved fr vals :
  latin fr -> length vals = 9 -> NoDup vals ->
  (forall v, In v vals -> (1 <= v <= 9)%Z) ->
  solved (assemble fr vals).
Proof.
  intros (Ho & Hband & Hstack) Hl Hn Hv.
  split; [apply assemble_shape|]. split; [|split].
  - intros r c Hr Hc. rewrite get_assemble by assumption.
    destruct (digit_at_orth _ _ (r mod 3) (c mod 3)
                (Ho (r / 3) (c / 3) (div3_lt r Hr) (div3_lt c Hc))
                (mod3_lt r) (mod3_lt c)) as (d & ->).
    eauto.
  - intros r c v Hr Hc H. apply assemble_cell in H; auto.
    destruct H as (d & Hd & -> & _). apply Hv, nth_In. lia.
  - intros r c r' c' v Hr Hc Hr' Hc' H H' Hu.
    apply assemble_cell in H; auto. apply assemble_cell in H'; auto.
    destruct H as (d & Hd & Ev & H1 & H2).
    destruct H' as (d' & Hd' & Ev' & H1' & H2').
    assert (d' = d).
    { apply (proj1 (NoDup_nth vals 0%Z) Hn); first [lia|congruence]. }
    subst d'.
    pose proof (div3_lt r Hr). pose proof (div3_lt c Hc).
    pose proof (div3_lt r' Hr'). pose proof (div3_lt c' Hc').
    destruct Hu as [E|[E|[E1 E2]]].
    + subst r'. split; [reflexivity|].
      assert (EC : c / 3 = c' / 3).
      { apply (Hband (r / 3) (c / 3) (c' / 3) d); auto. congruence. }
      apply div_mod_eq; [exact EC|]. rewrite EC in H2. congruence.
    + subst c'. split; [|reflexivity].
      assert (ER : r / 3 = r' / 3).
      { apply (Hstack (r / 3) (r' / 3) (c / 3) d); auto. congruence. }
      apply div_mod_eq; [exact ER|]. rewrite ER in H1. congruence.
    + rewrite <- E1, <- E2 in H1', H2'.
      split; apply div_mod_eq; congruence.
Qed.

Lemma a0_at d : d < 9 -> at_ a0 d = d / 3.
Proof. intros H. do 9 (destruct d as [|d]; [reflexivity|]). lia. Qed.

Lemma a0_length : length a0 = 9.
Proof. reflexivity. Qed.

Lemma frame_ok_a0 : frame_ok a0.
Proof.
  split; [reflexivity|]. split; [|reflexivity].
  intros d Hd. rewrite a0_at by exact Hd. now apply div3_lt.
Qed.

Lemma frame_ok_a0c : frame_ok a0c.
Proof.
  split; [reflexivity|]. split; [|reflexivity].
  intros d Hd. rewrite a0c_at by exact Hd. apply mod3_lt.
Qed.

Lemma orth_a0 : orth a0 a0c.
Proof. apply orthb_sound; reflexivity. Qed.

Lemma trio k z d :
  length k = 9 -> at_ k d < 3 -> inD k z -> d < 9 ->
  at_ k d <> at_ z d /\ at_ k d <> at_ (third k z) d /\
  at_ z d <> at_ (third k z) d.
Proof.
  intros Hk Hv (Hz & Hd) Hlt. destruct (Hd d Hlt) as [H1 H2].
  rewrite third_at by lia. unfold third1. lia.
Qed.

Lemma box_frames_latin b bc c cc p u t w s v :
  frame_ok b -> frame_ok bc -> frame_ok c -> frame_ok cc ->
  orth b bc -> orth c cc ->
  inD a0 p -> inD bc u -> inD c t -> inD a0c w -> inD b s -> inD cc v ->
  orth p u -> orth (third a0 p) v ->
  orth s w -> orth (third b s) (third cc v) ->
  orth t (third a0c w) -> orth (third c t) (third bc u) ->
  latin (box_frames b bc c cc p u t w s v).
Proof.
  intros (Hbl & Hbv & _) (Hbcl & Hbcv & _) (Hcl & Hcv & _) (Hccl & Hccv & _)
         Ob Oc Dp Du Dt Dw Ds Dv O1 O2 O3 O4 O5 O6.
  pose proof frame_ok_a0 as (_ & Ha0v & _).
  pose proof frame_ok_a0c as (_ & Ha0cv & _).
  split; [|split].
  - intros R C HR HC. three R HR; three C HC; cbn [box_frames fst snd];
      auto using orth_a0.
  - intros R C C' d HR HC HC' Hd E.
    pose proof (trio a0 p d a0_length (Ha0v d Hd) Dp Hd).
    pose proof (trio b s d Hbl (Hbv d Hd) Ds Hd).
    pose proof (trio c t d Hcl (Hcv d Hd) Dt Hd).
    three R HR; three C HC; three C' HC'; cbn [box_frames fst snd] in E;
      first [reflexivity | exfalso; lia].
  - intros R R' C d HR HR' HC Hd E.
    pose proof (trio a0c w d a0c_length (Ha0cv d Hd) Dw Hd).
    pose proof (trio bc u d Hbcl (Hbcv d Hd) Du Hd).
    pose proof (trio cc v d Hccl (Hccv d Hd) Dv Hd).
    three R HR; three R' HR'; three C HC; cbn [box_frames fst snd] in E;
      first [reflexivity | exfalso; lia].
Qed.

(** ** The board left by the seeding loops *)

Lemma fill_diagonal_cells : forall cs b rnd b' rnd',
  shape b -> (forall r c, In (r, c) cs -> r < 9 /\ c < 9) ->
  fill_diagonal cs b rnd = Some (b', rnd') ->
  (forall r c, In (r, c) cs -> exists v, get b' r c = Some (Some v)) /\
  (forall r c, ~ In (r, c) cs -> get b' r c = get b r c).
Proof.
  induction cs as [|[row col] cs IH]; intros b rnd b' rnd' Hs Hb H.
  - simpl in H. injection H as <- <-. split; [intros r c []|reflexivity].
  - cbn [fill_diagonal] in H.
    destruct (pick_valid b row col rnd) as [[num rnd1]|]; [|discriminate].
    apply IH in H; [|now apply set_shape|intros r c Hin; apply Hb; now right].
    destruct H as [Hf Hk]. split.
    + intros r c [E|Hin]; [|now apply Hf].
      inversion E; subst r c.
      assert (Hdec : forall x y : nat * nat, {x = y} + {x <> y})
        by (decide equality; apply Nat.eq_dec).
      destruct (in_dec Hdec (row, col) cs) as [Hin|Hnin]; [now apply Hf|].
      rewrite (Hk _ _ Hnin).
      destruct (Hb row col (or_introl eq_refl)) as [Hr Hc].
      destruct (shape_get b row col Hs Hr Hc) as [v0 Hv0].
      exists num. now apply (get_set_eq b row col v0).
    + intros r c Hn. rewrite Hk by (intros Hin; apply Hn; now right).
      apply get_set_ne. intros E. apply Hn. left. exact E.
Qed.

Lemma diagonal_cells_iff r c :
  In (r, c) diagonal_cells <-> r < 9 /\ c < 9 /\ r / 3 = c / 3.
Proof.
  split.
  - intros H. unfold diagonal_cells in H. simpl in H.
    repeat (destruct H as [H|H];
            [inversion H; subst; split; [lia|split; [lia|reflexivity]]|]).
    contradiction.
  - intros (Hr & Hc & E).
    do 9 (destruct r as [|r]; [do 9 (destruct c as [|c];
       [first [discriminate E | unfold diagonal_cells; simpl; tauto]|]); lia|]).
    lia.
Qed.

Lemma seeded_cells rnd seeded rnd1 :
  seed_board rnd = Some (seeded, rnd1) ->
  (forall r c, r < 9 -> c < 9 -> r / 3 = c / 3 ->
     exists v, get seeded r c = Some (Some v)) /\
  (forall r c, r < 9 -> c < 9 -> r / 3 <> c / 3 -> get seeded r c = Some None).
Proof.
  unfold seed_board. intros H.
  apply fill_diagonal_cells in H;
    [|apply seeding_empty_board|apply diagonal_cells_bound].
  destruct H as [Hf Hk]. split.
  - intros r c Hr Hc E. apply Hf. now apply diagonal_cells_iff.
  - intros r c Hr Hc E. rewrite Hk; [now apply empty_board_null|].
    intros Hin. apply diagonal_cells_iff in Hin. tauto.
Qed.

(** ** The numbers of the diagonal boxes *)

Lemma box_digits_length g k : length (box_digits g k) = 9.
Proof. unfold box_digits. now rewrite length_map, length_seq. Qed.

Lemma box_digits_nth g k i :
  i < 9 ->
  nth i (box_digits g k) 0%Z = value_at g (3 * k + i / 3) (3 * k + i mod 3).
Proof.
  intros Hi. unfold box_digits.
  rewrite (nth_indep _ 0%Z (value_at g (3 * k + 0 / 3) (3 * k + 0 mod 3)))
    by (now rewrite length_map, length_seq).
  rewrite (map_nth (fun i => value_at g (3 * k + i / 3) (3 * k + i mod 3))).
  now rewrite seq_nth.
Qed.

Lemma box_cell_bounds k i :
  k < 3 -> i < 9 ->
  3 * k + i / 3 < 9 /\ 3 * k + i mod 3 < 9 /\
  (3 * k + i / 3) / 3 = k /\ (3 * k + i mod 3) / 3 = k.
Proof.
  intros Hk Hi. pose proof (div3_lt i Hi). pose proof (mod3_lt i).
  rewrite !div3_add by assumption. lia.
Qed.

Lemma box_digits_spec g k i :
  (forall r c, r < 9 -> c < 9 -> r / 3 = c / 3 ->
     exists v, get g r c = Some (Some v)) ->
  k < 3 -> i < 9 ->
  get g (3 * k + i / 3) (3 * k + i mod 3) =
  Some (Some (nth i (box_digits g k) 0%Z)).
Proof.
  intros Hf Hk Hi. rewrite box_digits_nth by exact Hi.
  destruct (box_cell_bounds k i Hk Hi) as (H1 & H2 & H3 & H4).
  destruct (Hf _ _ H1 H2 (eq_trans H3 (eq_sym H4))) as [v Hv].
  unfold value_at, number_at. cbn [fst snd]. now rewrite Hv.
Qed.

Lemma box_digits_NoDup g k :
  consistent g ->
  (forall r c, r < 9 -> c < 9 -> r / 3 = c / 3 ->
     exists v, get g r c = Some (Some v)) ->
  k < 3 -> NoDup (box_digits g k).
Proof.
  intros Hc Hf Hk. apply (NoDup_nth _ 0%Z).
  rewrite box_digits_length. intros i j Hi Hj E.
  pose proof (box_digits_spec g k i Hf Hk Hi) as Gi.
  pose proof (box_digits_spec g k j Hf Hk Hj) as Gj.
  rewrite E in Gi.
  destruct (box_cell_bounds k i Hk Hi) as (A1 & A2 & A3 & A4).
  destruct (box_cell_bounds k j Hk Hj) as (B1 & B2 & B3 & B4).
  destruct (Hc _ _ _ _ _ A1 A2 B1 B2 Gi Gj) as [E1 E2].
  { right. right. split; congruence. }
  apply div_mod_eq; lia.
Qed.

Lemma box_digits_range g k v :
  in_range g ->
  (forall r c, r < 9 -> c < 9 -> r / 3 = c / 3 ->
     exists v, get g r c = Some (Some v)) ->
  k < 3 -> In v (box_digits g k) -> (1 <= v <= 9)%Z.
Proof.
  intros Hr Hf Hk Hin. apply (In_nth _ _ 0%Z) in Hin.
  destruct Hin as (i & Hi & <-). rewrite box_digits_length in Hi.
  destruct (box_cell_bounds k i Hk Hi) as (A1 & A2 & _).
  apply (Hr _ _ _ A1 A2 (box_digits_spec g k i Hf Hk Hi)).
Qed.

Lemma box_digits_all g k v :
  in_range g -> consistent g ->
  (forall r c, r < 9 -> c < 9 -> r / 3 = c / 3 ->
     exists v, get g r c = Some (Some v)) ->
  k < 3 -> (1 <= v <= 9)%Z -> In v (box_digits g k).
Proof.
  intros Hr Hc Hf Hk Hv.
  apply (NoDup_length_incl (box_digits_NoDup g k Hc Hf Hk) (l' := digits)).
  - now rewrite box_digits_length.
  - intros x Hx. apply in_digits. now apply (box_digits_range g k).
  - now apply in_digits.
Qed.

Lemma position_spec v : forall l,
  In v l -> position v l < length l /\ nth (position v l) l 0%Z = v.
Proof.
  induction l as [|a l IH]; intros Hin; [contradiction|].
  cbn [position]. destruct (Z.eqb_spec a v) as [->|Hne].
  - simpl. split; [lia|reflexivity].
  - destruct Hin as [E|Hin]; [contradiction|].
    destruct (IH Hin) as [H1 H2]. simpl. split; [lia|exact H2].
Qed.

Lemma at_places vs ws d :
  d < length vs -> at_ (places vs ws) d = position (nth d vs 0%Z) ws.
Proof.
  intros H. unfold at_, places.
  rewrite (nth_indep _ 0 (position 0%Z ws)) by (now rewrite length_map).
  apply (map_nth (fun v => position v ws)).
Qed.

Lemma places_spec vA vX :
  length vA = 9 -> NoDup vA -> length vX = 9 -> incl vA vX ->
  perm9 (places vA vX) /\
  forall d, d < 9 -> at_ (places vA vX) d < 9 /\
                     nth (at_ (places vA vX) d) vX 0%Z = nth d vA 0%Z.
Proof.
  intros HA HnA HX Hincl.
  assert (Hd : forall d, d < 9 ->
             at_ (places vA vX) d < 9 /\
             nth (at_ (places vA vX) d) vX 0%Z = nth d vA 0%Z).
  { intros d Hd. rewrite at_places by lia.
    assert (Hin : In (nth d vA 0%Z) vX) by (apply Hincl, nth_In; lia).
    destruct (position_spec _ _ Hin) as [H1 H2]. split; [lia|exact H2]. }
  split; [|exact Hd]. split; [unfold places; now rewrite length_map|].
  split; [intros d H; now apply Hd|].
  intros d e H1 H2 E.
  apply (proj1 (NoDup_nth vA 0%Z) HnA); try lia.
  destruct (Hd d H1) as [_ <-]. destruct (Hd e H2) as [_ <-]. now rewrite E.
Qed.

Lemma perm9_digit_perm s : perm9 s -> digit_perm (at_ s).
Proof.
  intros Hs. pose proof Hs as (Hl & Hr & Hi). split; [exact Hr|].
  intros e He. pose proof (perm9_Permutation s Hs) as HP.
  assert (Hin : In e s).
  { apply (Permutation_in e (Permutation_sym HP)). apply in_seq. lia. }
  apply (In_nth _ _ 0) in Hin. destruct Hin as (d & Hd & E).
  exists d. split; [lia|exact E].
Qed.

Lemma rel_orth s : perm9 s -> orth (rel s a0) (rel s a0c).
Proof.
  intros Hs. pose proof Hs as (Hl & _).
  apply (orth_map a0 a0c _ _ (at_ s) (fun v => v) (fun v => v)).
  - now apply perm9_digit_perm.
  - apply id_label_perm.
  - apply id_label_perm.
  - intros d Hd. apply at_rel. lia.
  - intros d Hd. apply at_rel. lia.
  - exact orth_a0.
Qed.

Lemma rel_not_colike s :
  perm9 s -> ~ (colike (rel s a0) /\ colike (rel s a0c)).
Proof.
  intros (Hl & Hr & Hi) [H1 H2].
  assert (H3 : 3 < 9) by lia. assert (H0 : 0 < 9) by lia.
  specialize (H1 3 H3). specialize (H2 3 H3).
  change (3 mod 3) with 0 in H1, H2.
  rewrite !at_rel in H1, H2 by lia.
  rewrite !a0_at in H1 by (apply Hr; lia).
  rewrite !a0c_at in H2 by (apply Hr; lia).
  assert (E : at_ s 3 = at_ s 0) by (apply div_mod_eq; assumption).
  apply Hi in E; [discriminate|lia|lia].
Qed.

Lemma diag_cell rho kappa (sg : nat -> nat) vA vX i j :
  orth rho kappa ->
  (forall d, d < 9 -> sg d < 9 /\ at_ rho d = at_ a0 (sg d) /\
                      at_ kappa d = at_ a0c (sg d) /\
                      nth (sg d) vX 0%Z = nth d vA 0%Z) ->
  i < 3 -> j < 3 ->
  exists d, digit_at rho kappa i j = Some d /\
            nth d vA 0%Z = nth (3 * i + j) vX 0%Z.
Proof.
  intros Ho Hs Hi Hj. destruct (digit_at_orth rho kappa i j Ho Hi Hj) as [d Hd].
  exists d. split; [exact Hd|]. apply digit_at_Some in Hd.
  destruct Hd as (Hlt & H1 & H2).
  destruct (Hs d Hlt) as (Hsd & E1 & E2 & E3).
  rewrite a0_at in E1 by exact Hsd. rewrite a0c_at in E2 by exact Hsd.
  assert (E : sg d = 3 * i + j).
  { rewrite (Nat.div_mod_eq (sg d) 3). congruence. }
  now rewrite <- E3, E.
Qed.

Lemma diag_frames_cell (fr : nat -> nat -> frame * frame) g vA k i j :
  (forall r c, r < 9 -> c < 9 -> r / 3 = c / 3 ->
     exists v, get g r c = Some (Some v)) ->
  k < 3 -> i < 3 -> j < 3 ->
  (exists d, digit_at (fst (fr k k)) (snd (fr k k)) i j = Some d /\
             nth d vA 0%Z = nth (3 * i + j) (box_digits g k) 0%Z) ->
  forall v, get g (3 * k + i) (3 * k + j) = Some (Some v) ->
            get (assemble fr vA) (3 * k + i) (3 * k + j) = Some (Some v).
Proof.
  intros Hf Hk Hi Hj (d & Hd & E) v Hv.
  rewrite get_assemble by lia.
  rewrite !div3_add by assumption.
  replace ((3 * k + i) mod 3) with i
    by (rewrite Nat.add_comm, Nat.mul_comm, Nat.Div0.mod_add, Nat.mod_small; lia).
  replace ((3 * k + j) mod 3) with j
    by (rewrite Nat.add_comm, Nat.mul_comm, Nat.Div0.mod_add, Nat.mod_small; lia).
  rewrite Hd, E.
  assert (H9 : 3 * i + j < 9) by lia.
  pose proof (box_digits_spec g k (3 * i + j) Hf Hk H9) as G.
  rewrite div3_add in G by assumption.
  replace ((3 * i + j) mod 3) with j in G
    by (rewrite Nat.add_comm, Nat.mul_comm, Nat.Div0.mod_add, Nat.mod_small; lia).
  congruence.
Qed.

(** Every board left by the seeding loops has a valid completion. *)
Theorem seed_completable rnd seeded rnd1 :
  draws_ok rnd -> seed_board rnd = Some (seeded, rnd1) ->
  exists s, completion seeded s.
Proof.
  intros Hd Hseed.
  destruct (seed_board_spec rnd seeded rnd1 Hd Hseed) as [Hinv _].
  destruct Hinv as (Hshape & Hrange & Hcons & _).
  destruct (seeded_cells rnd seeded rnd1 Hseed) as [Hdiag Hoff].
  set (vA := box_digits seeded 0).
  set (vB := box_digits seeded 1).
  set (vC := box_digits seeded 2).
  assert (HnA : NoDup vA) by (apply box_digits_NoDup; auto).
  assert (HrA : forall v, In v vA -> (1 <= v <= 9)%Z).
  { intros v. apply box_digits_range; auto. }
  assert (HiB : incl vA vB).
  { intros v Hv. apply box_digits_all; auto. }
  assert (HiC : incl vA vC).
  { intros v Hv. apply box_digits_all; auto. }
  destruct (places_spec vA vB (box_digits_length _ _) HnA
                        (box_digits_length _ _) HiB) as [HpB HsB].
  destruct (places_spec vA vC (box_digits_length _ _) HnA
                        (box_digits_length _ _) HiC) as [HpC HsC].
  set (sB := places vA vB) in *. set (sC := places vA vC) in *.
  pose proof HpB as (HlB & _). pose proof HpC as (HlC & _).
  destruct (hexagon (rel sB a0) (rel sB a0c) (rel sC a0) (rel sC a0c))
    as (p & u & t & w & s & v & Dp & Du & Dt & Dw & Ds & Dv
        & O1 & O2 & O3 & O4 & O5 & O6).
  { apply frame_ok_rel; [exact HpB|exact frame_ok_a0]. }
  { apply frame_ok_rel; [exact HpB|exact frame_ok_a0c]. }
  { apply frame_ok_rel; [exact HpC|exact frame_ok_a0]. }
  { apply frame_ok_rel; [exact HpC|exact frame_ok_a0c]. }
  { now apply rel_not_colike. }
  set (fr := box_frames (rel sB a0) (rel sB a0c) (rel sC a0) (rel sC a0c)
                        p u t w s v).
  assert (Hlatin : latin fr).
  { apply box_frames_latin; auto.
    - apply frame_ok_rel; [exact HpB|exact frame_ok_a0].
    - apply frame_ok_rel; [exact HpB|exact frame_ok_a0c].
    - apply frame_ok_rel; [exact HpC|exact frame_ok_a0].
    - apply frame_ok_rel; [exact HpC|exact frame_ok_a0c].
    - now apply rel_orth.
    - now apply rel_orth. }
  exists (assemble fr vA). split.
  - apply assemble_solved; [exact Hlatin|apply box_digits_length|exact HnA|exact HrA].
  - intros r c x Hr Hc Hx.
    destruct (Nat.eq_dec (r / 3) (c / 3)) as [E|E];
      [|rewrite (Hoff r c Hr Hc E) in Hx; discriminate].
    pose proof (div3_lt r Hr) as Hk.
    pose proof (mod3_lt r) as Hi. pose proof (mod3_lt c) as Hj.
    assert (Er : r = 3 * (r / 3) + r mod 3) by apply Nat.div_mod_eq.
    assert (Ec : c = 3 * (r / 3) + c mod 3)
      by (rewrite E; apply Nat.div_mod_eq).
    remember (r / 3) as k eqn:Ek. remember (r mod 3) as i eqn:Ei.
    remember (c mod 3) as j eqn:Ej. clear Ek Ei Ej E Hr Hc. subst r c.
    apply (diag_frames_cell fr seeded vA k i j Hdiag Hk Hi Hj); [|exact Hx].
    destruct Hlatin as (Ho & _). clear Hx.
    subst fr. three k Hk; cbn [box_frames fst snd].
    + apply (diag_cell a0 a0c (fun d => d) vA vA); auto using orth_a0.
    + apply (diag_cell _ _ (at_ sB) vA vB); [now apply rel_orth| |auto..].
      intros d Hd'. destruct (HsB d Hd') as [H1 H2].
      split; [exact H1|]. rewrite !at_rel by lia. auto.
    + apply (diag_cell _ _ (at_ sC) vA vC); [now apply rel_orth| |auto..].
      intros d Hd'. destruct (HsC d Hd') as [H1 H2].
      split; [exact H1|]. rewrite !at_rel by lia. auto.
Qed.

(* ================================================================== *)
(** * The solution grid *)

(** C1.  For every difficulty and every run of the generator: the solver
    call on the diagonal-seeded grid succeeds (it returns [true] and leaves
    a valid completion of the seeded grid), and the solution grid that
    [generateSudoku] returns is that board; it has no empty cell and every
    row, every column and every 3x3 box is a permutation of 1..9. *)
Theorem solution_is_valid difficulty rnd :
  draws_ok rnd ->
  (forall seeded rnd1,
     seed_board rnd = Some (seeded, rnd1) ->
     exists board,
       solveSudoku seeded = Some (true, board) /\ completion seeded board) /\
  (forall puzzle solution,
     generateSudoku difficulty rnd = Some (puzzle, solution) ->
     full solution /\ all_units_perm solution /\
     exists seeded rnd1,
       seed_board rnd = Some (seeded, rnd1) /\
       solveSudoku seeded = Some (true, solution)).
Proof.
  intros Hok. split.
  - intros seeded rnd1 Hseed.
    destruct (seed_board_spec _ _ _ Hok Hseed) as [(Hs & Hr & Hc & _) _].
    destruct (solveSudoku_cases seeded Hs Hr Hc) as [H|(_ & Hno)];
      [exact H|].
    exfalso. apply Hno. exact (seed_completable rnd seeded rnd1 Hok Hseed).
  - intros puzzle solution H.
    destruct (generateSudoku_inv _ _ _ _ Hok H)
      as (seeded & rnd1 & Hseed & _ & Hsolve & [Hsol _] & _).
    split; [apply Hsol|]. split; [now apply solved_units_perm|].
    exists seeded, rnd1. split; assumption.
Qed.

Lemma solution_is_valid_witness :
  draws_ok easy_draws /\
  generateSudoku EASY easy_draws = Some (puzzle_board, solved_board) /\
  full solved_board /\ all_units_perm solved_board.
Proof.
  split; [apply easy_draws_ok|]. split; [apply easy_run|].
  pose proof (proj2 (solution_is_valid EASY easy_draws easy_draws_ok)
                puzzle_board solved_board easy_run) as H.
  split; [exact (proj1 H)|exact (proj1 (proj2 H))].
Defined.

(* ================================================================== *)
(** * More on the engine *)

Lemma solveSudoku_true_full b b' :
  shape b -> solveSudoku b = Some (true, b') -> shape b' /\ full b'.
Proof.
  intros Hs H. rewrite solveSudoku_outcome in H.
  destruct (completions (S (length (empty_cells b))) b) as [|s t] eqn:E;
    simpl in H; [discriminate|].
  inversion H; subst s.
  apply (completions_full (S (length (empty_cells b))) b b' Hs).
  rewrite E. now left.
Qed.

Lemma full_solveSudoku b :
  full b -> solveSudoku b = Some (true, b) /\ countSolutions b = Some (1, b).
Proof.
  intros Hf.
  pose proof (completions_of_full (length (empty_cells b)) b
                (fun r c => full_no_empty b r c Hf)) as E.
  rewrite solveSudoku_outcome, countSolutions_length, E. split; reflexivity.
Qed.

(** X1. Solving again what the solver has solved changes nothing, and the
    counter finds one solution there. *)
Theorem solveSudoku_idempotent board board' :
  shape board -> solveSudoku board = Some (true, board') ->
  solveSudoku board' = Some (true, board') /\
  countSolutions board' = Some (1, board').
Proof.
  intros Hs H. apply full_solveSudoku.
  now apply (solveSudoku_true_full board board').
Qed.

Lemma extends_trans p q s : extends p q -> extends q s -> extends p s.
Proof. intros H1 H2 r c v Hr Hc H. apply H2; auto. Qed.

Lemma below_valid p q :
  extends p q -> in_range q -> consistent q -> in_range p /\ consistent p.
Proof.
  intros He Hr Hc. split.
  - intros r c v H1 H2 H. apply (Hr r c v H1 H2). now apply He.
  - intros r c r' c' v H1 H2 H3 H4 H H' Hu.
    apply (Hc r c r' c' v); auto.
Qed.

(** X2. Clearing cells of a board never lowers the answer of the counter. *)
Theorem countSolutions_monotone p q n m p' q' :
  shape p -> shape q -> in_range q -> consistent q -> extends p q ->
  countSolutions p = Some (n, p') -> countSolutions q = Some (m, q') ->
  m <= n.
Proof.
  intros Hsp Hsq Hr Hc He Hp Hq.
  destruct (below_valid p q He Hr Hc) as [Hrp Hcp].
  rewrite countSolutions_length in Hp, Hq.
  pose proof (completions_spec p Hsp Hrp Hcp) as Sp.
  pose proof (completions_spec q Hsq Hr Hc) as Sq.
  pose proof (completions_NoDup (S (length (empty_cells q))) q) as Nq.
  set (cp := completions (S (length (empty_cells p))) p) in *.
  set (cq := completions (S (length (empty_cells q))) q) in *.
  assert (Hincl : incl cq cp).
  { intros s Hs. apply Sq in Hs. apply Sp. destruct Hs as [Hsol Hext].
    split; [exact Hsol|]. now apply (extends_trans p q s). }
  pose proof (NoDup_incl_length Nq Hincl) as Hlen.
  assert (En : n = Nat.min 2 (length cp)) by congruence.
  assert (Em : m = Nat.min 2 (length cq)) by congruence.
  rewrite En, Em. now apply Nat.min_le_compat_l.
Qed.

Lemma remove_cells_saturated counter target puzzle :
  saturated counter puzzle ->
  forall k rnd attempts, length rnd <= k -> attempts < target ->
    remove_cells counter target rnd attempts puzzle = None.
Proof.
  intros Hsat. induction k as [|k IH]; intros rnd attempts Hlen Hlt;
    rewrite remove_cells_eq;
    replace (attempts <? target) with true by (symmetry; now apply Nat.ltb_lt).
  - destruct rnd; [reflexivity|simpl in Hlen; lia].
  - destruct rnd as [|r [|c rest]]; try reflexivity.
    unfold remove_step.
    destruct (get puzzle r c) as [[temp|]|] eqn:Hg; [| |reflexivity].
    + destruct (counter (set puzzle r c None)) as [[n scratch]|] eqn:Hn;
        [|reflexivity].
      pose proof (Hsat r c temp n scratch Hg Hn) as Hne.
      replace (n =? 1) with false by (symmetry; now apply Nat.eqb_neq).
      rewrite (set_restore puzzle r c (Some temp) None Hg).
      apply IH; [simpl in Hlen; lia|exact Hlt].
    + apply IH; [simpl in Hlen; lia|exact Hlt].
Qed.

(** X3. On a puzzle from which no cell can be cleared, the removal loop never
    reaches its target, whatever the draws. *)
Theorem remove_cells_never_ends counter target rnd attempts puzzle :
  saturated counter puzzle -> attempts < target ->
  remove_cells counter target rnd attempts puzzle = None.
Proof.
  intros Hsat Hlt.
  now apply (remove_cells_saturated counter target puzzle Hsat (length rnd)).
Qed.

(* ---- seeding ---- *)

Lemma pick_valid_shorter board row col : forall rnd num rnd',
  pick_valid board row col rnd = Some (num, rnd') -> length rnd' < length rnd.
Proof.
  induction rnd as [|x rest IH]; intros num rnd' H; simpl in H; [discriminate|].
  destruct (isValid board row col (Z.of_nat x + 1)).
  - inversion H; subst. simpl. lia.
  - apply IH in H. simpl. lia.
Qed.

Lemma fill_diagonal_draws : forall cs board rnd seeded rnd',
  fill_diagonal cs board rnd = Some (seeded, rnd') ->
  length rnd' + length cs <= length rnd.
Proof.
  induction cs as [|[row col] cs IH]; intros board rnd seeded rnd' H.
  - simpl in H. inversion H; subst. simpl. lia.
  - cbn [fill_diagonal] in H.
    destruct (pick_valid board row col rnd) as [[num rnd1]|] eqn:E;
      [|discriminate].
    apply pick_valid_shorter in E. apply IH in H. simpl. lia.
Qed.

Lemma map_nth_seq (l : list Z) :
  length l = 9 -> map (fun i => nth i l 0%Z) (seq 0 9) = l.
Proof.
  intros H. do 9 (destruct l as [|? l]; [discriminate|]).
  destruct l; [reflexivity|discriminate].
Qed.

Lemma diagonal_cells_length : length diagonal_cells = 27.
Proof. reflexivity. Qed.

(** X4. The seeding loops leave each diagonal box a permutation of 1..9 and
    every other cell empty, and take at least 27 draws. *)
Theorem seed_board_layout rnd seeded rnd1 :
  draws_ok rnd -> seed_board rnd = Some (seeded, rnd1) ->
  (forall k, k < 3 -> perm_1_9 (box_values seeded (4 * k))) /\
  (forall r c, r < 9 -> c < 9 -> r / 3 <> c / 3 ->
     get seeded r c = Some None) /\
  length rnd1 + 27 <= length rnd.
Proof.
  intros Hok Hseed.
  destruct (seed_board_spec rnd seeded rnd1 Hok Hseed) as [Hinv _].
  destruct Hinv as (Hshape & Hrange & Hcons & _).
  destruct (seeded_cells rnd seeded rnd1 Hseed) as [Hdiag Hoff].
  split; [|split; [exact Hoff|]].
  - intros k Hk. unfold perm_1_9.
    assert (E : box_values seeded (4 * k) =
                map (fun v => Some (Some v)) (box_digits seeded k)).
    { rewrite <- (map_nth_seq (box_digits seeded k)) at 1
        by apply box_digits_length.
      rewrite map_map. unfold box_values, upto. apply map_ext_in.
      intros i Hi. apply in_seq in Hi.
      replace (4 * k / 3) with k by (three k Hk; reflexivity).
      replace ((4 * k) mod 3) with k by (three k Hk; reflexivity).
      apply box_digits_spec; auto. lia. }
    rewrite E. apply Permutation_map. apply NoDup_Permutation_bis.
    + now apply box_digits_NoDup.
    + now rewrite box_digits_length.
    + intros v Hv. apply in_digits. now apply (box_digits_range seeded k).
  - unfold seed_board in Hseed. apply fill_diagonal_draws in Hseed.
    rewrite diagonal_cells_length in Hseed. exact Hseed.
Qed.

Lemma flat_map_length_le (f : nat -> list Z) :
  (forall i, length (f i) <= 1) ->
  forall l, length (flat_map f l) <= length l.
Proof.
  intros Hf. induction l as [|a l IH]; simpl; [lia|].
  rewrite length_app. specialize (Hf a). lia.
Qed.

Lemma flat_map_length_lt (f : nat -> list Z) i0 :
  (forall i, length (f i) <= 1) -> f i0 = [] ->
  forall l, In i0 l -> length (flat_map f l) < length l.
Proof.
  intros Hf H0. induction l as [|a l IH]; intros Hin; [contradiction|].
  simpl. rewrite length_app. destruct Hin as [->|Hin].
  - rewrite H0. simpl. pose proof (flat_map_length_le f Hf l). lia.
  - specialize (Hf a). specialize (IH Hin). lia.
Qed.

Lemma pick_valid_finds board row col x : forall rnd,
  In x rnd -> isValid board row col (Z.of_nat x + 1) = true ->
  exists num rest, pick_valid board row col rnd = Some (num, rest).
Proof.
  induction rnd as [|y rest IH]; intros Hin Hv; [contradiction|].
  simpl. destruct (isValid board row col (Z.of_nat y + 1)) eqn:E; [eauto|].
  destruct Hin as [->|Hin]; [congruence|]. now apply IH.
Qed.

Lemma box_index r c :
  r < 9 -> c < 9 -> r / 3 = c / 3 ->
  3 * (r mod 3) + c mod 3 < 9 /\
  3 * (r / 3) + (3 * (r mod 3) + c mod 3) / 3 = r /\
  3 * (r / 3) + (3 * (r mod 3) + c mod 3) mod 3 = c.
Proof.
  intros Hr Hc E. pose proof (mod3_lt r). pose proof (mod3_lt c).
  rewrite div3_add by assumption.
  replace ((3 * (r mod 3) + c mod 3) mod 3) with (c mod 3)
    by (rewrite Nat.add_comm, Nat.mul_comm, Nat.Div0.mod_add, Nat.Div0.mod_mod;
        reflexivity).
  split; [lia|]. split.
  - symmetry. apply Nat.div_mod_eq.
  - rewrite E. symmetry. apply Nat.div_mod_eq.
Qed.

(** X5. At every cell the seeding loops come to, some value passes [isValid]:
    the rejection loop ends as soon as that value is drawn. *)
Theorem seeding_candidate cs1 row col cs2 rnd b rnd' :
  diagonal_cells = cs1 ++ (row, col) :: cs2 ->
  fill_diagonal cs1 empty_board rnd = Some (b, rnd') ->
  exists x, x < 9 /\ isValid b row col (Z.of_nat x + 1) = true /\
    forall draws, In x draws ->
      exists num rest, pick_valid b row col draws = Some (num, rest).
Proof.
  intros Hcs Hfill.
  pose proof NoDup_diagonal_cells as Hnd. rewrite Hcs in Hnd.
  assert (Hnin : ~ In (row, col) cs1).
  { apply NoDup_remove_2 in Hnd. intros H. apply Hnd. apply in_or_app. now left. }
  assert (Hdiag : forall r c, In (r, c) cs1 -> r < 9 /\ c < 9 /\ r / 3 = c / 3).
  { intros r c H. apply diagonal_cells_iff. rewrite Hcs. apply in_or_app. now left. }
  assert (Hrc : row < 9 /\ col < 9 /\ row / 3 = col / 3).
  { apply diagonal_cells_iff. rewrite Hcs. apply in_or_app. right. now left. }
  destruct Hrc as (Hrow & Hcol & Ebox).
  destruct (fill_diagonal_cells cs1 empty_board rnd b rnd') as [_ Hkeep];
    [apply seeding_empty_board|intros r c H; split; apply (Hdiag r c H)
    |exact Hfill|].
  assert (Hfilled : forall r c v, r < 9 -> c < 9 ->
            get b r c = Some (Some v) -> In (r, c) cs1).
  { intros r c v Hr Hc Hg.
    assert (Hdec : forall x y : nat * nat, {x = y} + {x <> y})
      by (decide equality; apply Nat.eq_dec).
    destruct (in_dec Hdec (r, c) cs1) as [H|H]; [exact H|].
    rewrite (Hkeep r c H), (empty_board_null r c Hr Hc) in Hg. discriminate. }
  assert (Hnull : get b row col = Some None).
  { rewrite (Hkeep row col Hnin). now apply empty_board_null. }
  set (k := row / 3).
  set (f := fun i => match number_at b (3 * k + i / 3, 3 * k + i mod 3) with
                     | Some v => [v]
                     | None => []
                     end).
  assert (Hf1 : forall i, length (f i) <= 1).
  { intros i. unfold f. destruct (number_at _ _); simpl; lia. }
  (* a number seen from (row, col) is in the box *)
  assert (Hsees : forall r c v, r < 9 -> c < 9 ->
            get b r c = Some (Some v) -> r / 3 = k -> In v (flat_map f (seq 0 9))).
  { intros r c v Hr Hc Hg Ek.
    destruct (Hdiag r c (Hfilled r c v Hr Hc Hg)) as (_ & _ & E).
    destruct (box_index r c Hr Hc E) as (Hi & E1 & E2).
    apply in_flat_map. exists (3 * (r mod 3) + c mod 3).
    split; [apply in_seq; lia|]. unfold f. rewrite <- Ek, E1, E2.
    rewrite (proj2 (number_at_iff b r c v) Hg). now left. }
  destruct (existsb (fun x => isValid b row col (Z.of_nat x + 1)) (seq 0 9))
    eqn:Ex.
  - apply existsb_exists in Ex. destruct Ex as (x & Hx & Hv).
    apply in_seq in Hx. exists x. split; [lia|]. split; [exact Hv|].
    intros draws Hin. now apply (pick_valid_finds b row col x).
  - exfalso.
    assert (Hall : incl digits (flat_map f (seq 0 9))).
    { intros d Hd. apply in_digits in Hd.
      assert (Hinv : isValid b row col d = false).
      { pose proof (existsb_nth (fun x => isValid b row col (Z.of_nat x + 1))
                      (seq 0 9) (n := Z.to_nat d - 1) 0) as Hn.
        rewrite length_seq in Hn. specialize (Hn ltac:(lia) Ex).
        rewrite seq_nth in Hn by lia.
        replace (Z.of_nat (0 + (Z.to_nat d - 1)) + 1)%Z with d in Hn by lia.
        exact Hn. }
      apply isValid_false_iff in Hinv.
      destruct Hinv as [(x & Hx & Hg)|[(x & Hx & Hg)|(i & j & Hi & Hj & Hg)]].
      - apply (Hsees row x d); auto.
      - assert (Hin := Hfilled x col d Hx Hcol Hg).
        destruct (Hdiag x col Hin) as (_ & _ & E).
        apply (Hsees x col d); auto. unfold k. congruence.
      - rewrite !box_origin in Hg.
        apply (Hsees (i + 3 * (row / 3)) (j + 3 * (col / 3)) d); auto.
        + pose proof (div3_lt row Hrow). lia.
        + pose proof (div3_lt col Hcol). lia.
        + unfold k. rewrite Nat.add_comm. now apply div3_add. }
    pose proof (NoDup_incl_length NoDup_digits Hall) as Hlen.
    destruct (box_index row col Hrow Hcol Ebox) as (Hi & E1 & E2).
    assert (Hlt : length (flat_map f (seq 0 9)) < length (seq 0 9)).
    { apply (flat_map_length_lt f (3 * (row mod 3) + col mod 3) Hf1).
      - unfold f, k. rewrite E1, E2. unfold number_at. cbn [fst snd].
        now rewrite Hnull.
      - apply in_seq. lia. }
    rewrite length_seq in Hlt. change (length digits) with 9 in Hlen. lia.
Qed.

(** ** The solver and the counter *)

(** X6. On every 9x9 board the two searches end and agree: [solveSudoku]
    answers true exactly when [countSolutions] counts a solution, and the
    counter leaves the board as it found it. *)
Theorem solver_counter_agree board :
  shape board ->
  exists ok solved_to n,
    solveSudoku board = Some (ok, solved_to) /\
    countSolutions board = Some (n, board) /\
    (ok = true <-> 1 <= n) /\
    (ok = false -> solved_to = board).
Proof.
  intros _. rewrite solveSudoku_outcome, countSolutions_length.
  destruct (completions (S (length (empty_cells board))) board) as [|s l];
    cbn [outcome length].
  - exists false, board, 0. repeat split; auto; [discriminate|].
    cbn. lia.
  - exists true, s, (Nat.min 2 (S (length l))). repeat split; auto.
    + intros _. destruct l; cbn; lia.
    + discriminate.
Qed.

Lemma saturatedb_sound counter puzzle :
  shape puzzle -> saturatedb counter puzzle = true ->
  saturated counter puzzle.
Proof.
  intros Hs H r c v n scratch Hg Hn. unfold saturatedb in H.
  rewrite forallb_forall in H.
  assert (Hin : In (r, c) cells).
  { apply in_cells. apply (get_bound puzzle r c _ Hs Hg). }
  specialize (H (r, c) Hin). cbn [fst snd] in H. rewrite Hg, Hn in H.
  apply negb_true_iff in H. now apply Nat.eqb_neq.
Qed.

Lemma shape_stuck_board : shape stuck_board.
Proof. now apply shape_board_of_9. Qed.

Lemma stuck_board_saturated : saturated countSolutions stuck_board.
Proof.
  apply saturatedb_sound; [apply shape_stuck_board|].
  vm_compute. reflexivity.
Qed.

(** ** Examples *)

Lemma solver_counter_agree_witness :
  shape dead_end_board /\
  exists ok solved_to n,
    solveSudoku dead_end_board = Some (ok, solved_to) /\
    countSolutions dead_end_board = Some (n, dead_end_board) /\
    (ok = true <-> 1 <= n) /\
    (ok = false -> solved_to = dead_end_board).
Proof.
  split; [apply shape_dead_end_board|].
  apply (solver_counter_agree dead_end_board shape_dead_end_board).
Defined.

Lemma solveSudoku_idempotent_witness :
  shape puzzle_board /\
  solveSudoku puzzle_board = Some (true, solved_board) /\
  solveSudoku solved_board = Some (true, solved_board) /\
  countSolutions solved_board = Some (1, solved_board).
Proof.
  assert (Hrun : solveSudoku puzzle_board = Some (true, solved_board))
    by (vm_compute; reflexivity).
  split; [apply shape_puzzle_board|]. split; [exact Hrun|].
  apply (solveSudoku_idempotent puzzle_board solved_board);
    [apply shape_puzzle_board|exact Hrun].
Defined.

Lemma countSolutions_monotone_witness :
  extends two_ways_board solved_board /\
  countSolutions two_ways_board = Some (2, two_ways_board) /\
  countSolutions solved_board = Some (1, solved_board) /\
  1 <= 2.
Proof.
  assert (He : extends two_ways_board solved_board)
    by (apply extendsb_sound; vm_compute; reflexivity).
  assert (H2 : countSolutions two_ways_board = Some (2, two_ways_board))
    by (vm_compute; reflexivity).
  assert (H1 : countSolutions solved_board = Some (1, solved_board))
    by (vm_compute; reflexivity).
  split; [exact He|]. split; [exact H2|]. split; [exact H1|].
  apply (countSolutions_monotone two_ways_board solved_board 2 1
           two_ways_board solved_board);
    [apply shape_two_ways_board|apply shape_solved_board
    |apply solved_board_solved|apply solved_board_solved
    |exact He|exact H2|exact H1].
Defined.

Lemma remove_cells_never_ends_witness :
  remove_cells countSolutions 53 stuck_order 0 solved_board =
    Some stuck_board /\
  saturated countSolutions stuck_board /\ 53 < 55 /\
  remove_cells countSolutions 55 [0; 1; 4; 4; 8; 7] 53 stuck_board = None.
Proof.
  split; [vm_compute; reflexivity|].
  split; [apply stuck_board_saturated|]. split; [lia|].
  apply (remove_cells_never_ends countSolutions 55 [0; 1; 4; 4; 8; 7] 53
           stuck_board); [apply stuck_board_saturated|lia].
Defined.

Lemma seed_board_layout_witness :
  draws_ok easy_draws /\
  seed_board easy_draws = Some (easy_seeded, skipn 27 easy_draws) /\
  (forall k, k < 3 -> perm_1_9 (box_values easy_seeded (4 * k))) /\
  (forall r c, r < 9 -> c < 9 -> r / 3 <> c / 3 ->
     get easy_seeded r c = Some None) /\
  length (skipn 27 easy_draws) + 27 <= length easy_draws.
Proof.
  assert (Hrun : seed_board easy_draws = Some (easy_seeded, skipn 27 easy_draws))
    by (vm_compute; reflexivity).
  split; [apply easy_draws_ok|]. split; [exact Hrun|].
  apply (seed_board_layout easy_draws easy_seeded (skipn 27 easy_draws));
    [apply easy_draws_ok|exact Hrun].
Defined.

Lemma seeding_candidate_witness :
  diagonal_cells = firstn 4 diagonal_cells ++ (1, 1) :: skipn 5 diagonal_cells /\
  fill_diagonal (firstn 4 diagonal_cells) empty_board easy_draws =
    Some (easy_seeding, skipn 4 easy_draws) /\
  exists x, x < 9 /\ isValid easy_seeding 1 1 (Z.of_nat x + 1) = true /\
    forall draws, In x draws ->
      exists num rest, pick_valid easy_seeding 1 1 draws = Some (num, rest).
Proof.
  assert (Hc : diagonal_cells =
               firstn 4 diagonal_cells ++ (1, 1) :: skipn 5 diagonal_cells)
    by (vm_compute; reflexivity).
  assert (Hrun : fill_diagonal (firstn 4 diagonal_cells) empty_board easy_draws =
                 Some (easy_seeding, skipn 4 easy_draws))
    by (vm_compute; reflexivity).
  split; [exact Hc|]. split; [exact Hrun|].
  apply (seeding_candidate (firstn 4 diagonal_cells) 1 1
           (skipn 5 diagonal_cells) easy_draws easy_seeding
           (skipn 4 easy_draws)); [exact Hc|exact Hrun].
Defined.

(* ================================================================== *)
(** * The game *)

Import App.

(** ** Boards of cells *)

Lemma cell_at_put_eq (A : Type) (b : list (list A)) r c x0 x :
  cell_at b r c = Some x0 -> cell_at (put_cell b r c x) r c = Some x.
Proof.
  unfold cell_at, put_cell.
  destruct (nth_error b r) as [line|] eqn:E; [|discriminate].
  intros H. rewrite nth_error_update_eq.
  - apply nth_error_update_eq. apply nth_error_Some. congruence.
  - apply nth_error_Some. congruence.
Qed.

Lemma cell_at_put_ne (A : Type) (b : list (list A)) r c x r' c' :
  (r, c) <> (r', c') -> cell_at (put_cell b r c x) r' c' = cell_at b r' c'.
Proof.
  intros H. unfold cell_at, put_cell.
  destruct (nth_error b r) as [line|] eqn:E; auto.
  destruct (Nat.eq_dec r r') as [->|Hr].
  - rewrite nth_error_update_eq by (apply nth_error_Some; congruence).
    rewrite E. apply nth_error_update_ne. congruence.
  - now rewrite nth_error_update_ne.
Qed.

Lemma cell_at_put (A : Type) (b : list (list A)) r c x0 x r' c' :
  cell_at b r c = Some x0 ->
  cell_at (put_cell b r c x) r' c' =
  if (r' =? r) && (c' =? c) then Some x else cell_at b r' c'.
Proof.
  intros H. destruct (Nat.eqb_spec r' r) as [->|Hr];
    [destruct (Nat.eqb_spec c' c) as [->|Hc]|]; cbn [andb].
  - now apply (cell_at_put_eq A b r c x0).
  - apply cell_at_put_ne. congruence.
  - apply cell_at_put_ne. congruence.
Qed.

Lemma rect9_put (A : Type) (b : list (list A)) r c x :
  rect9 b -> rect9 (put_cell b r c x).
Proof.
  intros [Hl Hf]. unfold put_cell.
  destruct (nth_error b r) as [line|] eqn:E; [|now split].
  split; [now rewrite update_length|].
  apply Forall_forall. intros l Hin.
  apply In_nth_error in Hin. destruct Hin as [k Hk].
  destruct (Nat.eq_dec r k) as [->|Hne].
  - rewrite nth_error_update_eq in Hk by (apply nth_error_Some; congruence).
    inversion Hk; subst. rewrite update_length.
    rewrite Forall_forall in Hf. apply Hf. eapply nth_error_In; eauto.
  - rewrite nth_error_update_ne in Hk by auto.
    rewrite Forall_forall in Hf. apply Hf. eapply nth_error_In; eauto.
Qed.

Lemma rect9_cell (A : Type) (b : list (list A)) r c :
  rect9 b -> r < 9 -> c < 9 -> exists x, cell_at b r c = Some x.
Proof.
  intros [Hl Hf] Hr Hc. unfold cell_at.
  destruct (nth_error b r) as [line|] eqn:E.
  - assert (Hlen : length line = 9).
    { rewrite Forall_forall in Hf. apply Hf. eapply nth_error_In; eauto. }
    destruct (nth_error line c) eqn:E2; eauto.
    apply nth_error_None in E2. lia.
  - apply nth_error_None in E. lia.
Qed.

Lemma cell_at_bound (A : Type) (b : list (list A)) r c x :
  rect9 b -> cell_at b r c = Some x -> r < 9 /\ c < 9.
Proof.
  intros [Hl Hf] H. unfold cell_at in H.
  destruct (nth_error b r) as [line|] eqn:E; [|discriminate].
  assert (Hr : r < length b) by (apply nth_error_Some; congruence).
  assert (Hc : c < length line) by (apply nth_error_Some; congruence).
  rewrite Forall_forall in Hf. rewrite (Hf line) in Hc; [lia|].
  eapply nth_error_In; eauto.
Qed.

Lemma cell_at_map (A B : Type) (f : A -> B) (b : list (list A)) r c :
  cell_at (map (map f) b) r c = option_map f (cell_at b r c).
Proof.
  unfold cell_at. rewrite nth_error_map.
  destruct (nth_error b r) as [line|]; cbn [option_map]; [|reflexivity].
  apply nth_error_map.
Qed.

Lemma rect9_map (A B : Type) (f : A -> B) (b : list (list A)) :
  rect9 b -> rect9 (map (map f) b).
Proof.
  intros [Hl Hf]. split; [now rewrite length_map|].
  apply Forall_forall. intros row Hin. apply in_map_iff in Hin.
  destruct Hin as (row0 & <- & Hin0). rewrite length_map.
  rewrite Forall_forall in Hf. now apply Hf.
Qed.

Lemma rect9_shape (g : grid) : rect9 g <-> shape g.
Proof. reflexivity. Qed.

Lemma get_cell_at (g : grid) r c : get g r c = cell_at g r c.
Proof. reflexivity. Qed.

Lemma rect9_ext (A : Type) (b s : list (list A)) :
  rect9 b -> rect9 s ->
  (forall r c, r < 9 -> c < 9 -> cell_at b r c = cell_at s r c) -> b = s.
Proof.
  intros [Hlb Hfb] [Hls Hfs] H. apply nth_error_ext. intros n.
  destruct (Nat.lt_ge_cases n 9) as [Hn|Hn].
  - destruct (nth_error b n) as [l1|] eqn:E1;
      [|apply nth_error_None in E1; lia].
    destruct (nth_error s n) as [l2|] eqn:E2;
      [|apply nth_error_None in E2; lia].
    f_equal. apply nth_error_ext. intros m.
    assert (H1 : length l1 = 9).
    { rewrite Forall_forall in Hfb. apply Hfb. eapply nth_error_In; eauto. }
    assert (H2 : length l2 = 9).
    { rewrite Forall_forall in Hfs. apply Hfs. eapply nth_error_In; eauto. }
    destruct (Nat.lt_ge_cases m 9) as [Hm|Hm].
    + specialize (H n m Hn Hm). unfold cell_at in H. now rewrite E1, E2 in H.
    + rewrite (proj2 (nth_error_None l1 m)) by lia.
      rewrite (proj2 (nth_error_None l2 m)) by lia. reflexivity.
  - rewrite (proj2 (nth_error_None b n)) by lia.
    rewrite (proj2 (nth_error_None s n)) by lia. reflexivity.
Qed.

Lemma get_values b r c : get (values b) r c = option_map value (cell_at b r c).
Proof. apply cell_at_map. Qed.

Lemma get_givens b r c :
  get (givens b) r c =
  option_map (fun x => if fixed x then value x else None) (cell_at b r c).
Proof. apply (cell_at_map _ _ (fun x => if fixed x then value x else None)). Qed.

(** ** The test of the effect *)

Lemma same_value_iff v w : same_value v w = true <-> v = w.
Proof.
  destruct v as [a|], w as [b|]; simpl; split; intros H;
    try discriminate; try reflexivity.
  - apply Z.eqb_eq in H. congruence.
  - inversion H. apply Z.eqb_refl.
Qed.

Lemma every_cell_spec line : forall row c0,
  exists ok, every_cell (Some line) row c0 = Done ok /\
    (ok = true <->
     forall i x, nth_error row i = Some x ->
                 nth_error line (c0 + i) = Some (value x)).
Proof.
  induction row as [|x row IH]; intros c0.
  - exists true. split; [reflexivity|]. split; [|reflexivity].
    intros _ [|i] y H; discriminate H.
  - cbn [every_cell].
    destruct (match nth_error line c0 with
              | Some w => same_value (value x) w
              | None => false
              end) eqn:E.
    + destruct (IH (S c0)) as (ok & Hok & Hiff). exists ok.
      split; [exact Hok|]. rewrite Hiff. split.
      * intros H [|i] y Hy.
        -- simpl in Hy. inversion Hy; subst y. rewrite Nat.add_0_r.
           destruct (nth_error line c0) as [w|]; [|discriminate].
           apply same_value_iff in E. now subst w.
        -- simpl in Hy. replace (c0 + S i) with (S c0 + i) by lia.
           now apply H.
      * intros H i y Hy. replace (S c0 + i) with (c0 + S i) by lia.
        now apply H.
    + exists false. split; [reflexivity|]. split; [discriminate|].
      intros H. specialize (H 0 x eq_refl). rewrite Nat.add_0_r in H.
      rewrite H in E. rewrite (proj2 (same_value_iff _ _) eq_refl) in E.
      discriminate.
Qed.

Lemma every_row_spec sol : forall rows r0,
  (forall i, i < length rows -> nth_error sol (r0 + i) <> None) ->
  exists ok, every_row sol rows r0 = Done ok /\
    (ok = true <->
     forall i row line, nth_error rows i = Some row ->
       nth_error sol (r0 + i) = Some line ->
       forall j x, nth_error row j = Some x ->
                   nth_error line j = Some (value x)).
Proof.
  induction rows as [|row rows IH]; intros r0 Hsol.
  - exists true. split; [reflexivity|]. split; [|reflexivity].
    intros _ [|i] ? ? H; discriminate H.
  - cbn [every_row].
    destruct (nth_error sol r0) as [line|] eqn:El.
    2:{ exfalso. apply (Hsol 0); [simpl; lia|]. now rewrite Nat.add_0_r. }
    destruct (every_cell_spec line row 0) as (ok1 & H1 & Hiff1).
    rewrite H1. destruct ok1.
    + destruct (IH (S r0)) as (ok & Hok & Hiff).
      { intros i Hi. replace (S r0 + i) with (r0 + S i) by lia.
        apply Hsol. simpl. lia. }
      exists ok. split; [exact Hok|]. rewrite Hiff. split.
      * intros H [|i] row' line' Hr Hl.
        -- simpl in Hr. inversion Hr; subst row'.
           rewrite Nat.add_0_r, El in Hl. inversion Hl; subst line'.
           intros j x Hx. apply (proj1 Hiff1 eq_refl j x Hx).
        -- simpl in Hr. replace (r0 + S i) with (S r0 + i) in Hl by lia.
           now apply (H i row' line').
      * intros H i row' line' Hr Hl.
        replace (S r0 + i) with (r0 + S i) in Hl by lia.
        now apply (H (S i) row' line').
    + exists false. split; [reflexivity|]. split; [discriminate|].
      intros H. assert (E : false = true); [|discriminate E].
      apply Hiff1. intros j x Hx. simpl.
      apply (H 0 row line); auto. now rewrite Nat.add_0_r.
Qed.

(** On a 9x9 board with a 9x9 solution the test of the effect answers, and
    it answers [true] exactly when the board shows the solution. *)
Lemma isComplete_spec gs :
  rect9 (board gs) -> shape (solution gs) ->
  exists ok, isComplete gs = Done ok /\
             (ok = true <-> values (board gs) = solution gs).
Proof.
  intros Hb Hs. unfold isComplete.
  destruct (every_row_spec (solution gs) (board gs) 0) as (ok & Hok & Hiff).
  { intros i Hi. simpl. destruct Hb as [Hl _]. destruct Hs as [Hls _].
    intros E. apply nth_error_None in E. lia. }
  exists ok. split; [exact Hok|]. rewrite Hiff. split.
  - intros H. apply rect9_ext; [now apply rect9_map|exact Hs|].
    intros r c Hr Hc. rewrite (cell_at_map _ _ value).
    unfold cell_at.
    destruct (nth_error (board gs) r) as [row|] eqn:Er.
    2:{ apply nth_error_None in Er. destruct Hb. lia. }
    destruct (nth_error (solution gs) r) as [line|] eqn:El.
    2:{ apply nth_error_None in El. destruct Hs. lia. }
    destruct (nth_error row c) as [x|] eqn:Ex.
    2:{ apply nth_error_None in Ex. destruct Hb as [_ Hf].
        rewrite Forall_forall in Hf. rewrite (Hf row) in Ex; [lia|].
        eapply nth_error_In; eauto. }
    cbn [option_map]. symmetry. now apply (H r row line Er El c x).
  - intros E i row line Hr Hl j x Hx. simpl in Hl.
    assert (G : cell_at (values (board gs)) i j = Some (value x)).
    { rewrite (cell_at_map _ _ value). unfold cell_at. now rewrite Hr, Hx. }
    rewrite E in G. unfold cell_at in G. now rewrite Hl in G.
Qed.

(** ** Deleting a note along a row, a column and a box *)

Lemma delete_delete ns num : delete (delete ns num) num = delete ns num.
Proof.
  unfold delete. induction ns as [|a ns IH]; simpl; [reflexivity|].
  destruct (Z.eqb num a) eqn:E; simpl; [exact IH|].
  rewrite E. simpl. now rewrite IH.
Qed.

Lemma has_delete ns num k :
  has (delete ns num) k = has ns k && negb (Z.eqb num k).
Proof.
  unfold has, delete. induction ns as [|a ns IH]; simpl; [reflexivity|].
  destruct (Z.eqb num a) eqn:E; simpl.
  - rewrite IH. apply Z.eqb_eq in E. subst a.
    destruct (Z.eqb k num) eqn:E2; simpl; [|reflexivity].
    apply Z.eqb_eq in E2. subst k. rewrite Z.eqb_refl. simpl.
    now rewrite andb_false_r.
  - rewrite IH. destruct (Z.eqb k a) eqn:E2; simpl; [|reflexivity].
    apply Z.eqb_eq in E2. subst k. now rewrite E.
Qed.

Lemma has_app ns ms k : has (ns ++ ms) k = has ns k || has ms k.
Proof. unfold has. apply existsb_app. Qed.

Lemma delete_incl ns num : incl (delete ns num) ns.
Proof. unfold delete. intros x H. apply filter_In in H. tauto. Qed.

Lemma delete_note_spec num b r c x :
  cell_at b r c = Some x ->
  delete_note num b (r, c) =
  Done (put_cell b r c {| value := value x; fixed := fixed x;
                          notes := delete (notes x) num; error := error x |}).
Proof. intros H. unfold delete_note. cbn [fst snd]. now rewrite H. Qed.

Lemma delete_notes_spec num : forall cs b,
  rect9 b -> (forall r c, In (r, c) cs -> r < 9 /\ c < 9) ->
  exists b',
    delete_notes num cs b = Done b' /\ rect9 b' /\
    forall r c x, cell_at b r c = Some x ->
      exists x', cell_at b' r c = Some x' /\
        value x' = value x /\ fixed x' = fixed x /\ error x' = error x /\
        (In (r, c) cs -> notes x' = delete (notes x) num) /\
        (~ In (r, c) cs -> notes x' = notes x).
Proof.
  induction cs as [|[r0 c0] cs IH]; intros b Hb Hcs.
  - exists b. split; [reflexivity|]. split; [exact Hb|].
    intros r c x Hx. exists x. repeat split; auto. intros [].
  - destruct (Hcs r0 c0 (or_introl eq_refl)) as [Hr0 Hc0].
    destruct (rect9_cell _ b r0 c0 Hb Hr0 Hc0) as [x0 Hx0].
    cbn [delete_notes]. rewrite (delete_note_spec num b r0 c0 x0 Hx0).
    cbn [bind].
    set (y0 := {| value := value x0; fixed := fixed x0;
                  notes := delete (notes x0) num; error := error x0 |}).
    destruct (IH (put_cell b r0 c0 y0)) as (b' & Hb' & Hr' & Hcells).
    { now apply rect9_put. }
    { intros r c H. apply Hcs. now right. }
    exists b'. split; [exact Hb'|]. split; [exact Hr'|].
    intros r c x Hx.
    assert (Hdec : forall p q : nat * nat, {p = q} + {p <> q})
      by (decide equality; apply Nat.eq_dec).
    destruct (Hdec (r0, c0) (r, c)) as [E|E].
    + inversion E; subst r c. rewrite Hx0 in Hx. inversion Hx; subst x.
      destruct (Hcells r0 c0 y0 (cell_at_put_eq _ b r0 c0 x0 y0 Hx0))
        as (x' & Hx' & Hv & Hf & He & Hin & Hnin).
      exists x'. split; [exact Hx'|]. split; [exact Hv|].
      split; [exact Hf|]. split; [exact He|]. split.
      * intros _. destruct (in_dec Hdec (r0, c0) cs) as [H|H].
        -- rewrite (Hin H). unfold y0. cbn [notes]. apply delete_delete.
        -- rewrite (Hnin H). reflexivity.
      * intros H. exfalso. apply H. now left.
    + assert (Hx2 : cell_at (put_cell b r0 c0 y0) r c = Some x).
      { rewrite cell_at_put_ne by exact E. exact Hx. }
      destruct (Hcells r c x Hx2) as (x' & Hx' & Hv & Hf & He & Hin & Hnin).
      exists x'. split; [exact Hx'|]. split; [exact Hv|].
      split; [exact Hf|]. split; [exact He|]. split.
      * intros [H|H]; [congruence|now apply Hin].
      * intros H. apply Hnin. intros H'. apply H. now right.
Qed.

Lemma swept_bound r c r' c' :
  r < 9 -> c < 9 -> In (r', c') (swept r c) -> r' < 9 /\ c' < 9.
Proof.
  intros Hr Hc H. unfold swept in H. apply in_flat_map in H.
  destruct H as (i & Hi & H). apply in_seq in Hi.
  pose proof (Nat.mod_upper_bound r 3). pose proof (Nat.mod_upper_bound c 3).
  pose proof (Nat.mod_upper_bound i 3). pose proof (div3_lt i ltac:(lia)).
  rewrite !box_origin in H. pose proof (div3_lt r Hr). pose proof (div3_lt c Hc).
  cbn [In] in H.
  destruct H as [H|[H|[H|[]]]]; apply pair_equal_spec in H;
    destruct H as [<- <-]; lia.
Qed.

Lemma swept_iff r c r' c' :
  r < 9 -> c < 9 ->
  (In (r', c') (swept r c) <-> r' < 9 /\ c' < 9 /\ same_unit r c r' c').
Proof.
  intros Hr Hc. split.
  - intros H. destruct (swept_bound r c r' c' Hr Hc H) as [Hr' Hc'].
    split; [exact Hr'|]. split; [exact Hc'|].
    unfold swept in H. apply in_flat_map in H.
    destruct H as (i & Hi & H). apply in_seq in Hi.
    rewrite !box_origin in H.
    cbn [In] in H.
    destruct H as [H|[H|[H|[]]]]; apply pair_equal_spec in H;
      destruct H as [<- <-].
    + now left.
    + right. now left.
    + right. right. pose proof (div3_lt i ltac:(lia)). pose proof (mod3_lt i).
      rewrite !div3_add by lia. split; reflexivity.
  - intros (Hr' & Hc' & Hu). unfold swept. apply in_flat_map.
    destruct Hu as [E|[E|[E1 E2]]].
    + subst r'. exists c'. split; [apply in_seq; lia|]. now left.
    + subst c'. exists r'. split; [apply in_seq; lia|]. right. now left.
    + exists (3 * (r' mod 3) + c' mod 3).
      pose proof (mod3_lt r'). pose proof (mod3_lt c').
      split; [apply in_seq; lia|]. right. right. left.
      rewrite !box_origin, div3_add by lia.
      replace ((3 * (r' mod 3) + c' mod 3) mod 3) with (c' mod 3)
        by (rewrite Nat.add_comm, Nat.mul_comm, Nat.Div0.mod_add,
              Nat.Div0.mod_mod; reflexivity).
      rewrite E1, E2. f_equal; symmetry; apply Nat.div_mod_eq.
Qed.

(** ** The update made by [handleInput] *)

Lemma differs_holds sol r c n :
  shape sol -> r < 9 -> differs sol r c n = Done (negb (holds sol r c n)).
Proof.
  intros [Hl _] Hr. unfold differs, holds, get.
  destruct (nth_error sol r) as [line|] eqn:E.
  - destruct (nth_error line c) as [[v|]|]; try reflexivity.
    now rewrite Z.eqb_sym.
  - apply nth_error_None in E. lia.
Qed.

Lemma input_update_spec r c num snap prev cell :
  rect9 (board prev) -> shape (solution prev) ->
  cell_at (board prev) r c = Some cell ->
  let note := match num with Some _ => noteMode prev | None => false end in
  let wrong :=
    negb (noteMode prev) &&
    match num with
    | Some n => negb (holds (solution prev) r c n)
    | None => false
    end in
  let right :=
    match num with
    | Some n => negb (noteMode prev) && holds (solution prev) r c n
    | None => false
    end in
  let newErrors := if wrong then errors prev + 1 else errors prev in
  exists b',
    input_update r c num snap prev =
    Done (with_input prev b' newErrors (maxErrors prev <=? newErrors)
                     (firstn 20 (snap :: history prev))) /\
    rect9 b' /\
    (exists x', cell_at b' r c = Some x' /\ fixed x' = fixed cell /\
       value x' = (if note then None else num) /\
       error x' = (if note then error cell else wrong) /\
       notes x' = (if note then match num with
                                | Some n => toggle (notes cell) n
                                | None => []
                                end
                   else [])) /\
    (forall r' c' x, (r', c') <> (r, c) ->
       cell_at (board prev) r' c' = Some x ->
       exists x', cell_at b' r' c' = Some x' /\
         value x' = value x /\ fixed x' = fixed x /\ error x' = error x /\
         notes x' = (if right && same_unitb r c r' c'
                     then match num with
                          | Some n => delete (notes x) n
                          | None => notes x
                          end
                     else notes x)).
Proof.
  intros Hb Hs Hcell.
  destruct (cell_at_bound _ _ _ _ _ Hb Hcell) as [Hr Hc].
  assert (Hput : forall y,
    rect9 (put_cell (board prev) r c y) /\
    cell_at (put_cell (board prev) r c y) r c = Some y /\
    forall r' c' x, (r', c') <> (r, c) ->
      cell_at (board prev) r' c' = Some x ->
      cell_at (put_cell (board prev) r c y) r' c' = Some x).
  { intros y. split; [now apply rect9_put|].
    split; [now apply (cell_at_put_eq _ _ r c cell)|].
    intros r' c' x Hne Hx. rewrite cell_at_put_ne; [exact Hx|].
    intros E. apply Hne. now inversion E. }
  unfold input_update. rewrite Hcell.
  destruct num as [n|]; [destruct (noteMode prev) eqn:En|]; cbn zeta.
  - (* a note *)
    cbn [bind negb andb].
    match goal with
    | |- context [put_cell _ r c ?y] => destruct (Hput y) as (H1 & H2 & H3)
    end.
    eexists. split; [reflexivity|]. split; [exact H1|]. split.
    + eexists. split; [exact H2|]. cbn [fixed value error notes]. auto.
    + intros r' c' x Hne Hx. exists x. rewrite (H3 r' c' x Hne Hx). auto.
  - (* a number *)
    rewrite (differs_holds _ r c n Hs Hr). cbn [bind negb andb].
    destruct (holds (solution prev) r c n) eqn:Eh; cbn [negb bind].
    + (* the right one *)
      match goal with
      | |- context [put_cell _ r c ?y] =>
          destruct (Hput y) as (H1 & H2 & H3); set (y0 := y) in *
      end.
      destruct (delete_notes_spec n (swept r c) (put_cell (board prev) r c y0) H1)
        as (b' & Hb' & Hr' & Hcells).
      { intros r' c'. now apply swept_bound. }
      rewrite Hb'. cbn [bind]. exists b'. split; [reflexivity|].
      split; [exact Hr'|]. split.
      * destruct (Hcells r c y0 H2) as (x' & Hx' & Hv & Hf & He & Hin & _).
        exists x'. split; [exact Hx'|]. rewrite Hv, Hf, He.
        rewrite Hin by (apply swept_iff; auto; repeat split; auto; now left).
        unfold y0. cbn [fixed value error notes]. auto.
      * intros r' c' x Hne Hx.
        destruct (Hcells r' c' x (H3 r' c' x Hne Hx))
          as (x' & Hx' & Hv & Hf & He & Hin & Hnin).
        exists x'. split; [exact Hx'|]. split; [exact Hv|].
        split; [exact Hf|]. split; [exact He|]. cbn [andb].
        destruct (cell_at_bound _ _ _ _ _ Hb Hx) as [Hr2 Hc2].
        destruct (same_unitb r c r' c') eqn:Eu.
        -- apply Hin. apply swept_iff; auto. split; [exact Hr2|].
           split; [exact Hc2|]. now apply same_unitb_iff.
        -- apply Hnin. intros Hin'. apply swept_iff in Hin'; auto.
           destruct Hin' as (_ & _ & Hu). apply same_unitb_iff in Hu.
           congruence.
    + (* a wrong one *)
      match goal with
    | |- context [put_cell _ r c ?y] => destruct (Hput y) as (H1 & H2 & H3)
    end.
      eexists. split; [reflexivity|]. split; [exact H1|]. split.
      * eexists. split; [exact H2|]. cbn [fixed value error notes]. auto.
      * intros r' c' x Hne Hx. exists x. rewrite (H3 r' c' x Hne Hx). auto.
  - (* erasing *)
    rewrite andb_false_r. cbn [bind].
    assert (E : match noteMode prev with
                | true => @Done bool false
                | false => Done false
                end = Done false) by (destruct (noteMode prev); reflexivity).
    match goal with
    | |- context [put_cell _ r c ?y] => destruct (Hput y) as (H1 & H2 & H3)
    end.
    destruct (noteMode prev); cbn [bind].
    + eexists. split; [reflexivity|]. split; [exact H1|]. split.
      * eexists. split; [exact H2|]. cbn [fixed value error notes]. auto.
      * intros r' c' x Hne Hx. exists x. rewrite (H3 r' c' x Hne Hx). auto.
    + eexists. split; [reflexivity|]. split; [exact H1|]. split.
      * eexists. split; [exact H2|]. cbn [fixed value error notes]. auto.
      * intros r' c' x Hne Hx. exists x. rewrite (H3 r' c' x Hne Hx). auto.
Qed.

(** ** The guards of [handleInput] *)

Lemma input_target_Some st r c gs :
  input_target st = Done (Some (r, c, gs)) ->
  gameState st = Some gs /\ selectedCell gs = Some (r, c) /\
  isPaused gs = false /\ isGameOver gs = false /\
  isNewGameModalOpen st = false /\
  exists cell, cell_at (board gs) r c = Some cell /\ fixed cell = false.
Proof.
  unfold input_target. intros H.
  destruct (gameState st) as [gs0|]; [|discriminate].
  destruct (selectedCell gs0) as [[r0 c0]|] eqn:Es; [|discriminate].
  destruct (isPaused gs0) eqn:Ep; [discriminate|].
  destruct (isGameOver gs0) eqn:Eo; [discriminate|].
  destruct (isNewGameModalOpen st) eqn:Em; [discriminate|].
  cbn [orb] in H.
  destruct (cell_at (board gs0) r0 c0) as [cell|] eqn:Ec; [|discriminate].
  destruct (fixed cell) eqn:Ef; [discriminate|].
  inversion H; subst. repeat split; auto. now exists cell.
Qed.

Lemma input_target_None st :
  input_target st = Done None ->
  forall num, handleInput num st = Done st.
Proof. intros H num. unfold handleInput. now rewrite H. Qed.

Lemma handleInput_Some st r c gs num :
  input_target st = Done (Some (r, c, gs)) ->
  handleInput num st =
  bind (input_update r c num (saved (board gs)) gs)
       (fun gs' => Done (with_game st gs')).
Proof. intros H. unfold handleInput. now rewrite H. Qed.

Lemma hint_None st st' :
  input_target st = Done None -> hint st = Done st' -> st' = st.
Proof.
  intros Ht H. unfold hint in H.
  destruct (gameState st) as [gs|]; [|now inversion H].
  destruct (selectedCell gs) as [[r c]|]; [|now inversion H].
  destruct (isGameOver gs); [now inversion H|].
  destruct (nth_error (solution gs) r) as [line|]; [|discriminate].
  destruct (nth_error line c) as [num|]; [|discriminate].
  rewrite (input_target_None st Ht) in H. now inversion H.
Qed.

Lemma hint_Done st st' :
  hint st = Done st' ->
  st' = st \/
  exists gs r c num, gameState st = Some gs /\ selectedCell gs = Some (r, c) /\
    get (solution gs) r c = Some num /\ handleInput num st = Done st'.
Proof.
  intros H. unfold hint in H.
  destruct (gameState st) as [gs|] eqn:Eg; [|left; now inversion H].
  destruct (selectedCell gs) as [[r c]|] eqn:Es; [|left; now inversion H].
  destruct (isGameOver gs); [left; now inversion H|].
  destruct (nth_error (solution gs) r) as [line|] eqn:El; [|discriminate].
  destruct (nth_error line c) as [num|] eqn:En; [|discriminate].
  right. exists gs, r, c, num. repeat split; auto.
  unfold get. now rewrite El.
Qed.

(** ** The invariant of the runs *)

Lemma isComplete_same gs gs' :
  board gs' = board gs -> solution gs' = solution gs ->
  isComplete gs' = isComplete gs.
Proof. intros H1 H2. unfold isComplete. now rewrite H1, H2. Qed.

Lemma game_inv_same gs gs' :
  board gs' = board gs -> solution gs' = solution gs ->
  errors gs' = errors gs -> maxErrors gs' = maxErrors gs ->
  isGameOver gs' = isGameOver gs -> isWon gs' = isWon gs ->
  history gs' = history gs -> zenMode gs' = zenMode gs ->
  game_inv gs -> game_inv gs'.
Proof.
  intros Hb Hs He Hm Ho Hw Hh Hz [Hinv Hc].
  split; [|now rewrite (isComplete_same gs gs'), Hw].
  unfold board_inv in *. now rewrite Hb, Hs, He, Hm, Ho, Hw, Hh, Hz.
Qed.

Lemma completionEffect_inv st gs :
  gameState st = Some gs -> board_inv gs -> isWon gs = false ->
  exists st', completionEffect st = Done st' /\ app_inv st' /\
    isNewGameModalOpen st' = isNewGameModalOpen st /\
    exists gs', gameState st' = Some gs' /\ board gs' = board gs /\
      errors gs' = errors gs /\ history gs' = history gs.
Proof.
  intros Hg Hinv Hw. pose proof Hinv as (Hb & (Hs & _) & _).
  destruct (isComplete_spec gs Hb Hs) as (ok & Hok & Hiff).
  unfold completionEffect. rewrite Hg, Hok. cbn [bind]. rewrite Hw.
  cbn [negb]. rewrite andb_true_r.
  destruct ok.
  - eexists. split; [reflexivity|]. split; [|split; [reflexivity|]].
    + unfold app_inv. cbn [gameState completedNumbers].
      split; [|reflexivity]. split.
      * unfold board_inv in *. cbn. tauto.
      * rewrite (isComplete_same gs (with_won gs)) by reflexivity. exact Hok.
    + cbn [gameState]. eexists. split; [reflexivity|]. auto.
  - eexists. split; [reflexivity|]. split; [|split; [reflexivity|]].
    + unfold app_inv. cbn [gameState completedNumbers].
      split; [|reflexivity]. split; [exact Hinv|]. now rewrite Hw.
    + cbn [gameState]. eexists. split; [reflexivity|]. auto.
Qed.

Lemma firstn_Forall (A : Type) (P : A -> Prop) n (l : list A) :
  Forall P l -> Forall P (firstn n l).
Proof.
  intros H. revert n. induction H as [|a l Ha Hl IH]; intros [|n]; simpl;
    constructor; auto.
Qed.

Lemma givens_same b b' :
  rect9 b -> rect9 b' ->
  (forall r c x, cell_at b r c = Some x ->
     exists x', cell_at b' r c = Some x' /\
       (if fixed x' then value x' else None) =
       (if fixed x then value x else None)) ->
  givens b' = givens b.
Proof.
  intros Hb Hb' H. apply rect9_ext.
  - now apply (rect9_map _ _ (fun x => if fixed x then value x else None)).
  - now apply (rect9_map _ _ (fun x => if fixed x then value x else None)).
  - intros r c Hr Hc.
    rewrite !(cell_at_map _ _ (fun x => if fixed x then value x else None)).
    destruct (rect9_cell _ b r c Hb Hr Hc) as [x Hx].
    destruct (H r c x Hx) as (x' & Hx' & E).
    rewrite Hx, Hx'. cbn [option_map]. now rewrite E.
Qed.

Lemma input_inv st r c gs num gs' :
  input_target st = Done (Some (r, c, gs)) -> game_inv gs ->
  input_update r c num (saved (board gs)) gs = Done gs' ->
  board_inv gs' /\ isWon gs' = false /\
  givens (board gs') = givens (board gs).
Proof.
  intros Ht [Hinv _] Hup.
  destruct (input_target_Some st r c gs Ht)
    as (_ & _ & _ & Hover & _ & cell & Hcell & Hfix).
  destruct Hinv as (Hb & Hsol & Hext & Huniq & Hflags & Herr & Hmax & Hgo
                    & Hhist & Hsnaps).
  pose proof Hsol as (Hs & _).
  rewrite Hover in Hgo. symmetry in Hgo. apply orb_false_iff in Hgo.
  destruct Hgo as [Hwon Hle]. apply Nat.leb_gt in Hle.
  destruct (input_update_spec r c num (saved (board gs)) gs cell Hb Hs Hcell)
    as (b' & Hup' & Hb' & (x' & Hx' & Hf' & Hv' & He' & Hn') & Hothers).
  rewrite Hup in Hup'. apply (f_equal (fun o => match o with Done g => g | _ => gs end)) in Hup'.
  cbv beta iota in Hup'. subst gs'.
  assert (Hcells : forall r' c' x, cell_at (board gs) r' c' = Some x ->
            exists y, cell_at b' r' c' = Some y /\ fixed y = fixed x /\
              ((r', c') <> (r, c) -> value y = value x /\ error y = error x)).
  { intros r' c' x Hx.
    assert (Hdec : forall p q : nat * nat, {p = q} + {p <> q})
      by (decide equality; apply Nat.eq_dec).
    destruct (Hdec (r', c') (r, c)) as [E|E].
    - inversion E; subst r' c'. rewrite Hcell in Hx. inversion Hx; subst x.
      exists x'. split; [exact Hx'|]. split; [exact Hf'|]. congruence.
    - destruct (Hothers r' c' x E Hx) as (y & Hy & Hv & Hf & He & _).
      exists y. auto. }
  assert (Hgiv : givens b' = givens (board gs)).
  { apply givens_same; auto. intros r' c' x Hx.
    destruct (Hcells r' c' x Hx) as (y & Hy & Hf & Hrest).
    exists y. split; [exact Hy|]. rewrite Hf.
    destruct (fixed x) eqn:Efx; [|reflexivity].
    assert (Hne : (r', c') <> (r, c)).
    { intros E. inversion E; subst. rewrite Hcell in Hx. congruence. }
    now destruct (Hrest Hne) as [-> _]. }
  split; [|split; [exact Hwon|exact Hgiv]].
  unfold board_inv. cbn [with_input board solution errors maxErrors isGameOver
                         isWon history zenMode].
  rewrite Hgiv, Hwon. cbn [orb].
  split; [exact Hb'|]. split; [exact Hsol|]. split; [exact Hext|].
  split; [exact Huniq|]. split.
  { intros r' c' y Hy.
    destruct (cell_at_bound _ _ _ _ _ Hb' Hy) as [Hr' Hc'].
    destruct (rect9_cell _ (board gs) r' c' Hb Hr' Hc') as [x Hx].
    assert (Hdec : forall p q : nat * nat, {p = q} + {p <> q})
      by (decide equality; apply Nat.eq_dec).
    destruct (Hdec (r', c') (r, c)) as [E|E].
    - inversion E; subst r' c'. rewrite Hx' in Hy. inversion Hy; subst y.
      split; [congruence|]. intros v Hv. rewrite Hv' in Hv.
      destruct num as [n|]; [|discriminate].
      destruct (noteMode gs); [discriminate|].
      inversion Hv; subst v. rewrite He'. cbn [negb andb].
      rewrite <- holds_iff. destruct (holds (solution gs) r c n); simpl;
        split; congruence.
    - destruct (Hothers r' c' x E Hx) as (y' & Hy' & Hv & Hf & He & Hn).
      rewrite Hy' in Hy. inversion Hy; subst y'.
      rewrite Hv, Hf, He. destruct (Hflags r' c' x Hx) as [Hfx Hvx].
      split; [|exact Hvx]. intros Hfixed.
      destruct (Hfx Hfixed) as (H1 & H2 & H3). split; [exact H1|].
      split; [exact H2|]. rewrite Hn, H3.
      destruct num as [n|]; [|now rewrite andb_false_l].
      match goal with
      | |- (if ?b then _ else _) = _ => destruct b; reflexivity
      end. }
  split; [destruct (_ && _); lia|]. split; [exact Hmax|].
  split; [reflexivity|]. split.
  - rewrite length_firstn. lia.
  - apply firstn_Forall. constructor; [|exact Hsnaps].
    now apply rect9_map.
Qed.

Lemma givens_initialBoard puzzle : givens (initialBoard puzzle) = puzzle.
Proof.
  unfold givens, initialBoard. rewrite map_map.
  rewrite <- (map_id puzzle) at 2. apply map_ext. intros row.
  rewrite map_map. rewrite <- (map_id row) at 2. apply map_ext.
  intros [v|]; reflexivity.
Qed.

Lemma values_initialBoard puzzle : values (initialBoard puzzle) = puzzle.
Proof.
  unfold values, initialBoard. rewrite map_map.
  rewrite <- (map_id puzzle) at 2. apply map_ext. intros row.
  rewrite map_map. rewrite <- (map_id row) at 2. apply map_ext.
  intros [v|]; reflexivity.
Qed.

Lemma cell_at_initialBoard puzzle r c x :
  cell_at (initialBoard puzzle) r c = Some x ->
  get puzzle r c = Some (value x) /\
  fixed x = (match value x with Some _ => true | None => false end) /\
  notes x = [] /\ error x = false.
Proof.
  unfold initialBoard. intros H.
  rewrite (cell_at_map _ _
             (fun val => {| value := val;
                            fixed := match val with
                                     | Some _ => true
                                     | None => false
                                     end;
                            notes := []; error := false |})) in H.
  rewrite <- get_cell_at in H.
  destruct (get puzzle r c) as [val|]; [|discriminate].
  cbn [option_map] in H. inversion H; subst x. cbn. auto.
Qed.

Lemma generated_pair d rnd puzzle sol :
  draws_ok rnd -> generateSudoku d rnd = Some (puzzle, sol) ->
  shape puzzle /\ solved sol /\ extends puzzle sol /\
  (forall s, completion puzzle s -> s = sol) /\
  length (filled_cells puzzle) + cellsToRemove d = 81.
Proof.
  intros Hok H.
  destruct (generateSudoku_inv _ _ _ _ Hok H)
    as (seeded & rnd1 & _ & _ & _ & [Hsol _] & (Hs & He & Hcount & Hone)).
  destruct (below_solved _ _ Hs He Hsol) as [Hr Hc].
  split; [exact Hs|]. split; [exact Hsol|]. split; [exact He|]. split.
  - destruct Hone as [H0|Hone];
      [pose proof (cellsToRemove_bounds d); lia|].
    destruct (countSolutions_one puzzle puzzle Hs Hr Hc Hone)
      as (s0 & Hs0 & Hall).
    assert (Hsol0 : sol = s0) by (apply Hall; split; assumption).
    subst s0. exact Hall.
  - rewrite Hcount. apply filled_cells_full. apply Hsol.
Qed.

Lemma startNewGame_inv d zen rnd st :
  draws_ok rnd -> startNewGame d zen rnd = Some st ->
  exists puzzle gs,
    generateSudoku d rnd = Some (puzzle, solution gs) /\
    gameState st = Some gs /\ board gs = initialBoard puzzle /\
    isNewGameModalOpen st = false /\ showConfirmReset st = None /\
    errors gs = 0 /\ maxErrors gs = (if zen then 999 else 3) /\
    history gs = [] /\ isWon gs = false /\ isGameOver gs = false /\
    selectedCell gs = None /\ zenMode gs = zen /\ difficulty gs = d /\
    board_inv gs.
Proof.
  intros Hok H. unfold startNewGame in H.
  destruct (generateSudoku d rnd) as [[puzzle sol]|] eqn:Eg; [|discriminate].
  inversion H; subst st. clear H.
  destruct (generated_pair d rnd puzzle sol Hok Eg)
    as (Hs & Hsol & He & Huniq & _).
  exists puzzle. eexists. split; [|split; [reflexivity|]]; [reflexivity|].
  cbn [gameState solution board isNewGameModalOpen
    showConfirmReset errors maxErrors history isWon isGameOver selectedCell
    zenMode difficulty].
  repeat (split; [reflexivity|]).
  unfold board_inv. cbn [board solution errors maxErrors isGameOver isWon
                         history].
  rewrite givens_initialBoard.
  split.
  { rewrite <- (values_initialBoard puzzle) in Hs.
    destruct Hs as [Hl Hf]. unfold values in Hl, Hf.
    split; [now rewrite length_map in Hl|].
    apply Forall_forall. intros row Hin.
    rewrite Forall_forall in Hf.
    specialize (Hf (map value row) (in_map _ _ _ Hin)).
    now rewrite length_map in Hf. }
  split; [exact Hsol|]. split; [exact He|]. split; [exact Huniq|]. split.
  { intros r c x Hx. destruct (cell_at_initialBoard puzzle r c x Hx)
      as (Hg & Hf & Hnotes & Herr).
    destruct (get_bound puzzle r c _ Hs Hg) as [Hr Hc].
    split.
    - intros Hfx. split; [exact Herr|]. split; [|exact Hnotes].
      rewrite Hfx in Hf. destruct (value x); discriminate.
    - intros v Hv. rewrite Hv in Hg. split; [|now intros _].
      intros _. now apply He. }
  split; [destruct zen; lia|]. split; [reflexivity|].
  split; [destruct zen; reflexivity|]. split; [simpl; lia|constructor].
Qed.

Lemma undo_throws st gs snap rest :
  gameState st = Some gs -> history gs = snap :: rest -> rect9 snap ->
  undo st = Throws.
Proof.
  intros Hg Hh [Hl Hf]. unfold undo. rewrite Hg, Hh.
  destruct snap as [|row rows]; [discriminate|].
  inversion Hf as [|? ? Hrow _]; subst.
  destruct row as [|s row]; [discriminate|].
  destruct s as [v f [] e]. reflexivity.
Qed.

Lemma completionEffect_again st st' :
  app_inv st -> completionEffect st = Done st' ->
  app_inv st' /\ gameState st' = gameState st /\
  isNewGameModalOpen st' = isNewGameModalOpen st.
Proof.
  unfold app_inv, completionEffect. intros Hinv H.
  destruct (gameState st) as [gs|] eqn:Eg.
  - destruct Hinv as [[Hb Hc] Hn]. rewrite Hc in H. cbn [bind] in H.
    assert (E : isWon gs && negb (isWon gs) = false)
      by (destruct (isWon gs); reflexivity).
    rewrite E in H. inversion H; subst st'. cbn [gameState completedNumbers
      isNewGameModalOpen].
    split; [split; [split; assumption|reflexivity]|split; reflexivity].
  - inversion H; subst st'. rewrite Eg. auto.
Qed.

Lemma app_inv_with_game st gs gs' :
  gameState st = Some gs -> app_inv st ->
  board gs' = board gs -> solution gs' = solution gs ->
  errors gs' = errors gs -> maxErrors gs' = maxErrors gs ->
  isGameOver gs' = isGameOver gs -> isWon gs' = isWon gs ->
  history gs' = history gs -> zenMode gs' = zenMode gs ->
  app_inv (with_game st gs').
Proof.
  intros Hg Hinv Hb Hs He Hm Ho Hw Hh Hz. unfold app_inv in *.
  rewrite Hg in Hinv. destruct Hinv as [Hgi Hn].
  cbn [with_game gameState completedNumbers]. split.
  - now apply (game_inv_same gs gs').
  - now rewrite Hb.
Qed.

Lemma input_step st r c gs num st' :
  app_inv st -> input_target st = Done (Some (r, c, gs)) ->
  bind (handleInput num st) completionEffect = Done st' ->
  app_inv st' /\ isNewGameModalOpen st' = isNewGameModalOpen st /\
  exists gs1 gs', input_update r c num (saved (board gs)) gs = Done gs1 /\
    gameState st' = Some gs' /\ board gs' = board gs1 /\
    errors gs' = errors gs1 /\ history gs' = history gs1.
Proof.
  intros Hinv Ht H. rewrite (handleInput_Some st r c gs num Ht) in H.
  destruct (input_target_Some st r c gs Ht) as (Hg & _).
  destruct (input_update r c num (saved (board gs)) gs) as [gs1| |] eqn:Eu;
    try discriminate.
  cbn [bind] in H.
  assert (Hgi : game_inv gs).
  { unfold app_inv in Hinv. rewrite Hg in Hinv. apply Hinv. }
  destruct (input_inv st r c gs num gs1 Ht Hgi Eu) as (Hb1 & Hw1 & _).
  destruct (completionEffect_inv (with_game st gs1) gs1 eq_refl Hb1 Hw1)
    as (st'' & Hst'' & Hinv'' & Hm & gs' & Hg' & Hb' & He' & Hh').
  rewrite H in Hst''. inversion Hst''; subst st''.
  split; [exact Hinv''|]. split; [exact Hm|].
  exists gs1, gs'. auto.
Qed.

Lemma dispatch_inv e st st' :
  app_inv st -> event_ok e -> dispatch e st = Some (Done st') -> app_inv st'.
Proof.
  intros Hinv Hok H. destruct e as [d zen rnd|d rnd|num| | |r c| | | |open|d|];
    cbn [dispatch event_ok] in *.
  - (* a new game *)
    destruct (startNewGame d zen rnd) as [st1|] eqn:E; [|discriminate].
    cbn [option_map] in H. inversion H as [H']. clear H.
    destruct (startNewGame_inv d zen rnd st1 Hok E)
      as (puzzle & gs & _ & Hg & _ & _ & _ & _ & _ & _ & Hw & _ & _ & _ & _ & Hb).
    destruct (completionEffect_inv st1 gs Hg Hb Hw) as (st'' & Hst'' & Hi & _).
    rewrite H' in Hst''. now inversion Hst''; subst.
  - (* a click on a difficulty *)
    unfold handleDifficultyClick in H. destruct (hasProgress st).
    + cbn [option_map] in H. inversion H; subst st'. exact Hinv.
    + destruct (startNewGame d _ rnd) as [st1|] eqn:E; [|discriminate].
      cbn [option_map] in H. inversion H as [H']. clear H.
      destruct (startNewGame_inv d _ rnd st1 Hok E)
        as (puzzle & gs & _ & Hg & _ & _ & _ & _ & _ & _ & Hw & _ & _ & _ & _ & Hb).
      destruct (completionEffect_inv st1 gs Hg Hb Hw) as (st'' & Hst'' & Hi & _).
      rewrite H' in Hst''. now inversion Hst''; subst.
  - (* a number, or nothing *)
    inversion H as [H']. clear H.
    destruct (input_target st) as [[[[r c] gs]|]| |] eqn:Et.
    + now apply (input_step st r c gs num st').
    + now inversion H'; subst.
    + unfold handleInput in H'. rewrite Et in H'. discriminate.
    + unfold handleInput in H'. rewrite Et in H'. discriminate.
  - (* a hint *)
    inversion H as [H']. clear H.
    destruct (input_target st) as [[[[r c] gs]|]| |] eqn:Et.
    + destruct (hint st) as [st1| |] eqn:Eh; try discriminate.
      cbn [bind] in H'. destruct (hint_Done st st1 Eh)
        as [->|(gs0 & r0 & c0 & num & _ & _ & _ & Hin)].
      * now apply (completionEffect_again st st').
      * apply (input_step st r c gs num st' Hinv Et).
        rewrite Hin. exact H'.
    + now rewrite (hint_None st st' Et H').
    + destruct (hint st) as [st1| |] eqn:Eh; try discriminate.
      cbn [bind] in H'. destruct (hint_Done st st1 Eh)
        as [->|(gs0 & r0 & c0 & num & _ & _ & _ & Hin)].
      * now apply (completionEffect_again st st').
      * unfold handleInput in Hin. rewrite Et in Hin. discriminate.
    + destruct (hint st) as [st1| |] eqn:Eh; try discriminate.
      cbn [bind] in H'. destruct (hint_Done st st1 Eh)
        as [->|(gs0 & r0 & c0 & num & _ & _ & _ & Hin)].
      * now apply (completionEffect_again st st').
      * unfold handleInput in Hin. rewrite Et in Hin. discriminate.
  - (* undo *)
    inversion H as [H']. clear H.
    destruct (gameState st) as [gs|] eqn:Eg; [|now inversion H'; subst].
    destruct (history gs) as [|snap rest] eqn:Eh; [now inversion H'; subst|].
    assert (Hr : rect9 snap).
    { unfold app_inv in Hinv. rewrite Eg in Hinv.
      destruct Hinv as [[(_ & _ & _ & _ & _ & _ & _ & _ & _ & Hf) _] _].
      rewrite Eh in Hf. now inversion Hf. }
    rewrite (undo_throws st gs snap rest Eg Eh Hr) in H'. discriminate.
  - (* selecting a cell *)
    inversion H; subst st'. unfold handleCellSelect.
    destruct (gameState st) as [gs|] eqn:Eg; [|exact Hinv].
    destruct (_ || _); [exact Hinv|].
    now apply (app_inv_with_game st gs).
  - inversion H; subst st'. unfold togglePause.
    destruct (gameState st) as [gs|] eqn:Eg; [|exact Hinv].
    now apply (app_inv_with_game st gs).
  - inversion H; subst st'. unfold resume.
    destruct (gameState st) as [gs|] eqn:Eg; [|exact Hinv].
    now apply (app_inv_with_game st gs).
  - inversion H; subst st'. unfold toggleNoteMode.
    destruct (gameState st) as [gs|] eqn:Eg; [|exact Hinv].
    now apply (app_inv_with_game st gs).
  - inversion H; subst st'. exact Hinv.
  - inversion H; subst st'. exact Hinv.
  - inversion H; subst st'. unfold tick.
    destruct (gameState st) as [gs|] eqn:Eg; [|exact Hinv].
    destruct (_ && _); [|exact Hinv].
    now apply (app_inv_with_game st gs).
Qed.

Lemma reachable_inv st : reachable st -> app_inv st.
Proof.
  induction 1 as [|e st st' _ IH Hok Hd]; [exact I|].
  now apply (dispatch_inv e st st').
Qed.

(** ** Helpers *)

Lemma reachable_game st gs :
  reachable st -> gameState st = Some gs ->
  game_inv gs /\ completedNumbers st = completed (board gs).
Proof.
  intros Hr Hg. apply reachable_inv in Hr. unfold app_inv in Hr.
  now rewrite Hg in Hr.
Qed.

Lemma extends_givens_values b : extends (givens b) (values b).
Proof.
  intros r c v _ _ H. rewrite get_givens in H. rewrite get_values.
  destruct (cell_at b r c) as [x|]; [|discriminate].
  cbn [option_map] in *. destruct (fixed x); [exact H|discriminate].
Qed.

Lemma won_values st gs :
  reachable st -> gameState st = Some gs ->
  (isWon gs = true <-> values (board gs) = solution gs) /\
  (values (board gs) = solution gs <-> solved (values (board gs))).
Proof.
  intros Hr Hg. destruct (reachable_game st gs Hr Hg) as [[Hinv Hc] _].
  destruct Hinv as (Hb & Hsol & _ & Huniq & _).
  destruct (isComplete_spec gs Hb (proj1 Hsol)) as (ok & Hok & Hiff).
  rewrite Hc in Hok. inversion Hok; subst ok. split; [exact Hiff|]. split.
  - intros E. now rewrite E.
  - intros Hs. apply Huniq. split; [exact Hs|apply extends_givens_values].
Qed.

Lemma undo_run st gs :
  reachable st -> gameState st = Some gs ->
  (history gs = [] -> undo st = Done st) /\
  (history gs <> [] -> undo st = Throws).
Proof.
  intros Hr Hg. split.
  - intros Hh. unfold undo. now rewrite Hg, Hh.
  - intros Hh. destruct (history gs) as [|snap rest] eqn:Eh; [contradiction|].
    destruct (reachable_game st gs Hr Hg) as [[Hinv _] _].
    destruct Hinv as (_ & _ & _ & _ & _ & _ & _ & _ & _ & Hf).
    rewrite Eh in Hf. inversion Hf; subst.
    now apply (undo_throws st gs snap rest).
Qed.

(** ** The completed numbers *)

Lemma Permutation_filter_length (A : Type) (p : A -> bool) l l' :
  Permutation l l' -> length (filter p l) = length (filter p l').
Proof.
  induction 1 as [|a l l' _ IH|a b l|l l' l'' _ IH1 _ IH2]; simpl.
  - reflexivity.
  - destruct (p a); simpl; now rewrite IH.
  - destruct (p a), (p b); reflexivity.
  - now rewrite IH1.
Qed.

Lemma filter_map_length (A B : Type) (f : A -> B) (p : B -> bool) l :
  length (filter p (map f l)) = length (filter (fun x => p (f x)) l).
Proof.
  induction l as [|a l IH]; simpl; [reflexivity|].
  destruct (p (f a)); simpl; now rewrite IH.
Qed.

Lemma filter_concat_length (A : Type) (p : A -> bool) (n : nat) :
  forall rows, (forall row, In row rows -> length (filter p row) = n) ->
  length (filter p (concat rows)) = n * length rows.
Proof.
  induction rows as [|row rows IH]; intros H; simpl; [lia|].
  rewrite filter_app, length_app, (H row (or_introl eq_refl)), IH; [lia|].
  intros r Hr. apply H. now right.
Qed.

Lemma solved_row_count s row d :
  solved s -> In row s -> In d digits ->
  length (filter (fun w => match w with
                           | Some v => Z.eqb v d
                           | None => false
                           end) row) = 1.
Proof.
  intros Hs Hin Hd. pose proof Hs as ((Hl & Hf) & _).
  apply In_nth_error in Hin. destruct Hin as [r Hr].
  assert (Hr9 : r < 9).
  { rewrite <- Hl. apply nth_error_Some. congruence. }
  assert (Hrow : length row = 9).
  { rewrite Forall_forall in Hf. apply Hf. eapply nth_error_In; eauto. }
  destruct (solved_units_perm s Hs r Hr9) as (Hp & _).
  unfold perm_1_9, row_values in Hp.
  assert (E : map (fun c => get s r c) (upto 9) = map Some row).
  { unfold get. rewrite Hr. clear -Hrow.
    do 9 (destruct row as [|? row]; [discriminate|]).
    destruct row; [reflexivity|discriminate]. }
  rewrite E in Hp.
  apply (Permutation_map (fun o : option cell =>
                            match o with Some w => w | None => None end))
    in Hp.
  rewrite !map_map in Hp. cbv beta in Hp. rewrite map_id in Hp.
  rewrite (Permutation_filter_length _ _ _ _ Hp).
  apply in_digits in Hd.
  assert (Hc : (d = 1 \/ d = 2 \/ d = 3 \/ d = 4 \/ d = 5 \/ d = 6 \/
                d = 7 \/ d = 8 \/ d = 9)%Z) by lia.
  repeat (destruct Hc as [->|Hc]; [reflexivity|]). subst d. reflexivity.
Qed.

Lemma count_value_solved b d :
  solved (values b) -> In d digits -> count_value b d = 9.
Proof.
  intros Hs Hd. unfold count_value.
  rewrite (filter_concat_length _ _ 1).
  - destruct Hs as ((Hl & _) & _). unfold values in Hl.
    rewrite length_map in Hl. lia.
  - intros row Hin.
    rewrite <- (filter_map_length _ _ value
                  (fun w => match w with
                            | Some v => Z.eqb v d
                            | None => false
                            end)).
    apply (solved_row_count (values b)); auto.
    unfold values. now apply in_map.
Qed.

(** ** What an event can change *)

Lemma completionEffect_game st st' gs :
  completionEffect st = Done st' -> gameState st = Some gs ->
  isNewGameModalOpen st' = isNewGameModalOpen st /\
  showConfirmReset st' = showConfirmReset st /\
  (gameState st' = Some gs \/ gameState st' = Some (with_won gs)).
Proof.
  unfold completionEffect. intros H Hg. rewrite Hg in H.
  destruct (isComplete gs) as [ok| |]; try discriminate.
  cbn [bind] in H. inversion H; subst st'. cbn.
  split; [reflexivity|]. split; [reflexivity|].
  destruct (ok && negb (isWon gs)); auto.
Qed.

Definition same_puzzle (gs gs' : GameState) : Prop :=
  solution gs' = solution gs /\
  givens (board gs') = givens (board gs) /\
  difficulty gs' = difficulty gs /\ zenMode gs' = zenMode gs /\
  maxErrors gs' = maxErrors gs.

Lemma same_puzzle_refl gs : same_puzzle gs gs.
Proof. repeat split. Qed.

Lemma dispatch_game e st st' gs :
  reachable st -> gameState st = Some gs ->
  match e with
  | NewGame _ _ _ | DifficultyClick _ _ => False
  | _ => True
  end ->
  dispatch e st = Some (Done st') ->
  exists gs', gameState st' = Some gs' /\ same_puzzle gs gs' /\
    (isGameOver gs = true ->
     board gs' = board gs /\ errors gs' = errors gs /\
     isGameOver gs' = true /\ isWon gs' = isWon gs /\ time gs' = time gs /\
     history gs' = history gs).
Proof.
  intros Hr Hg He H. pose proof (reachable_inv st Hr) as Hinv.
  destruct (reachable_game st gs Hr Hg) as [Hgi _].
  assert (Hsame : exists gs', gameState st = Some gs' /\ same_puzzle gs gs' /\
    (isGameOver gs = true ->
     board gs' = board gs /\ errors gs' = errors gs /\
     isGameOver gs' = true /\ isWon gs' = isWon gs /\ time gs' = time gs /\
     history gs' = history gs)).
  { exists gs. split; [exact Hg|]. split; [apply same_puzzle_refl|].
    intros Ho. repeat split; auto. }
  destruct e as [d zen rnd|d rnd|num| | |r c| | | |open|d|];
    cbn [dispatch] in H; try contradiction; inversion H as [H']; clear H.
  - (* a number *)
    destruct (input_target st) as [[[[r c] gs0]|]| |] eqn:Et.
    + destruct (input_target_Some st r c gs0 Et) as (Hg0 & _ & _ & Hover & _).
      rewrite Hg in Hg0. inversion Hg0; subst gs0.
      destruct (input_step st r c gs num st' Hinv Et H')
        as (_ & _ & gs1 & gs' & Hup & Hg' & Hb' & _).
      destruct (input_inv st r c gs num gs1 Et Hgi Hup) as (_ & _ & Hgiv).
      rewrite (handleInput_Some st r c gs num Et), Hup in H'. cbn [bind] in H'.
      destruct (completionEffect_game _ _ gs1 H' eq_refl) as (_ & _ & Hcase).
      destruct (cell_at (board gs) r c) as [cell|] eqn:Ecell.
      2:{ destruct (input_target_Some st r c gs Et)
            as (_ & _ & _ & _ & _ & cell & Hcell & _). congruence. }
      destruct Hgi as [Hbi _]. destruct Hbi as (Hb & (Hs & _) & _).
      destruct (input_update_spec r c num (saved (board gs)) gs cell Hb Hs Ecell)
        as (b1 & Hup1 & _).
      rewrite Hup in Hup1.
      apply (f_equal (fun o => match o with Done g => g | _ => gs end)) in Hup1.
      cbv beta iota in Hup1.
      exists gs'. split; [exact Hg'|]. split.
      * assert (Hsp : same_puzzle gs gs1).
        { subst gs1. split; [reflexivity|]. split; [exact Hgiv|].
          repeat split. }
        destruct Hcase as [E|E]; rewrite Hg' in E; inversion E; subst gs';
          [exact Hsp|].
        destruct Hsp as (H1 & H2 & H3 & H4 & H5). repeat split; assumption.
      * intros Ho. congruence.
    + inversion H'; subst st'. exact Hsame.
    + unfold handleInput in H'. rewrite Et in H'. discriminate.
    + unfold handleInput in H'. rewrite Et in H'. discriminate.
  - (* a hint *)
    assert (Hin : forall num, bind (handleInput num st) completionEffect = Done st' ->
              exists gs', gameState st' = Some gs' /\ same_puzzle gs gs' /\
                (isGameOver gs = true ->
                 board gs' = board gs /\ errors gs' = errors gs /\
                 isGameOver gs' = true /\ isWon gs' = isWon gs /\
                 time gs' = time gs /\ history gs' = history gs)).
    { intros num Hb.
      destruct (input_target st) as [[[[r c] gs0]|]| |] eqn:Et.
      - destruct (input_target_Some st r c gs0 Et) as (Hg0 & _ & _ & Hover & _).
        rewrite Hg in Hg0. inversion Hg0; subst gs0.
        destruct (input_step st r c gs num st' Hinv Et Hb)
          as (_ & _ & gs1 & gs' & Hup & Hg' & Hb' & _).
        destruct (input_inv st r c gs num gs1 Et Hgi Hup) as (_ & _ & Hgiv).
        rewrite (handleInput_Some st r c gs num Et), Hup in Hb.
        cbn [bind] in Hb.
        destruct (completionEffect_game _ _ gs1 Hb eq_refl) as (_ & _ & Hcase).
        destruct (cell_at (board gs) r c) as [cell|] eqn:Ecell.
        2:{ destruct (input_target_Some st r c gs Et)
              as (_ & _ & _ & _ & _ & cell & Hcell & _). congruence. }
        destruct Hgi as [Hbi _]. destruct Hbi as (Hb0 & (Hs & _) & _).
        destruct (input_update_spec r c num (saved (board gs)) gs cell Hb0 Hs Ecell)
          as (b1 & Hup1 & _).
        rewrite Hup in Hup1.
        apply (f_equal (fun o => match o with Done g => g | _ => gs end)) in Hup1.
        cbv beta iota in Hup1.
        exists gs'. split; [exact Hg'|]. split.
        + assert (Hsp : same_puzzle gs gs1).
          { subst gs1. split; [reflexivity|]. split; [exact Hgiv|].
            repeat split. }
          destruct Hcase as [E|E]; rewrite Hg' in E; inversion E; subst gs';
            [exact Hsp|].
          destruct Hsp as (H1 & H2 & H3 & H4 & H5). repeat split; assumption.
        + intros Ho. congruence.
      - rewrite (input_target_None st Et) in Hb. cbn [bind] in Hb.
        destruct (completionEffect_again st st' Hinv Hb) as (_ & E & _).
        rewrite E. exact Hsame.
      - unfold handleInput in Hb. rewrite Et in Hb. discriminate.
      - unfold handleInput in Hb. rewrite Et in Hb. discriminate. }
    destruct (input_target st) as [[[[r c] gs0]|]| |] eqn:Et.
    + destruct (hint st) as [st1| |] eqn:Eh; try discriminate.
      cbn [bind] in H'. destruct (hint_Done st st1 Eh)
        as [->|(gs0' & r0 & c0 & num & _ & _ & _ & Hi)].
      * destruct (completionEffect_again st st' Hinv H') as (_ & E & _).
        rewrite E. exact Hsame.
      * apply (Hin num). now rewrite Hi.
    + rewrite (hint_None st st' Et H'). exact Hsame.
    + destruct (hint st) as [st1| |] eqn:Eh; try discriminate.
      cbn [bind] in H'. destruct (hint_Done st st1 Eh)
        as [->|(gs0' & r0 & c0 & num & _ & _ & _ & Hi)].
      * destruct (completionEffect_again st st' Hinv H') as (_ & E & _).
        rewrite E. exact Hsame.
      * apply (Hin num). now rewrite Hi.
    + destruct (hint st) as [st1| |] eqn:Eh; try discriminate.
      cbn [bind] in H'. destruct (hint_Done st st1 Eh)
        as [->|(gs0' & r0 & c0 & num & _ & _ & _ & Hi)].
      * destruct (completionEffect_again st st' Hinv H') as (_ & E & _).
        rewrite E. exact Hsame.
      * apply (Hin num). now rewrite Hi.
  - (* undo *)
    rewrite Hg in H'.
    destruct (history gs) as [|snap rest] eqn:Eh.
    + inversion H'; subst st'. exact Hsame.
    + destruct (undo_run st gs Hr Hg) as [_ Ht]. rewrite Eh in Ht.
      rewrite Ht in H' by discriminate. discriminate.
  - (* selecting *)
    subst st'. unfold handleCellSelect. rewrite Hg.
    destruct (isPaused gs || isGameOver gs || isNewGameModalOpen st) eqn:Eb;
      [exact Hsame|].
    eexists. split; [reflexivity|]. split; [repeat split|].
    intros Ho. rewrite Ho in Eb. rewrite orb_true_r in Eb. discriminate.
  - subst st'. unfold togglePause. rewrite Hg.
    eexists. split; [reflexivity|]. split; [repeat split|].
    intros Ho. repeat split; assumption.
  - subst st'. unfold resume. rewrite Hg.
    eexists. split; [reflexivity|]. split; [repeat split|].
    intros Ho. repeat split; assumption.
  - subst st'. unfold toggleNoteMode. rewrite Hg.
    eexists. split; [reflexivity|]. split; [repeat split|].
    intros Ho. repeat split; assumption.
  - subst st'. exact Hsame.
  - subst st'. exact Hsame.
  - subst st'. unfold tick. rewrite Hg.
    destruct (negb (isPaused gs) && negb (isGameOver gs) && negb (isWon gs)
              && negb (zenMode gs) && negb (isNewGameModalOpen st)) eqn:Eb;
      [|exact Hsame].
    eexists. split; [reflexivity|]. split; [repeat split|].
    intros Ho. rewrite Ho in Eb. cbn in Eb.
    rewrite andb_false_r in Eb. discriminate.
Qed.

(** ** What an entry does *)

Lemma CellData_ext (x y : CellData) :
  value x = value y -> fixed x = fixed y -> notes x = notes y ->
  error x = error y -> x = y.
Proof. destruct x, y. cbn. now intros -> -> -> ->. Qed.

Lemma has_toggle ns n m :
  has (toggle ns n) m = (if Z.eqb m n then negb (has ns n) else has ns m).
Proof.
  unfold toggle. destruct (has ns n) eqn:Eh.
  - rewrite has_delete. destruct (Z.eqb_spec m n) as [->|Hne].
    + rewrite Z.eqb_refl. cbn. apply andb_false_r.
    + replace (Z.eqb n m) with false
        by (symmetry; apply Z.eqb_neq; congruence).
      apply andb_true_r.
  - rewrite has_app. cbn [has existsb]. rewrite orb_false_r.
    destruct (Z.eqb_spec m n) as [->|Hne]; [rewrite Eh; reflexivity|].
    apply orb_false_r.
Qed.

Lemma isRelated_same_unitb gs r c r' c' :
  selectedCell gs = Some (r, c) -> isRelated gs r' c' = same_unitb r c r' c'.
Proof.
  intros Hs. unfold isRelated, same_unitb. rewrite Hs.
  rewrite !box_origin.
  rewrite (Nat.eqb_sym r' r), (Nat.eqb_sym c' c).
  assert (E : forall a b, (3 * a =? 3 * b) = (a =? b)).
  { intros a b. destruct (Nat.eqb_spec a b) as [->|Hne].
    - apply Nat.eqb_refl.
    - apply Nat.eqb_neq. lia. }
  now rewrite !E.
Qed.

(** The entry of [num] on the cell the input goes to: the state it leads
    to, cell by cell. *)
Lemma input_run st r c gs num :
  reachable st -> input_target st = Done (Some (r, c, gs)) ->
  let note := match num with Some _ => noteMode gs | None => false end in
  let wrong :=
    negb (noteMode gs) &&
    match num with
    | Some n => negb (holds (solution gs) r c n)
    | None => false
    end in
  let right :=
    match num with
    | Some n => negb (noteMode gs) && holds (solution gs) r c n
    | None => false
    end in
  exists cell st' gs',
    cell_at (board gs) r c = Some cell /\ fixed cell = false /\
    dispatch (Input num) st = Some (Done st') /\
    gameState st' = Some gs' /\
    errors gs' = (if wrong then errors gs + 1 else errors gs) /\
    history gs' = firstn 20 (saved (board gs) :: history gs) /\
    (exists x', cell_at (board gs') r c = Some x' /\ fixed x' = false /\
       value x' = (if note then None else num) /\
       error x' = (if note then error cell else wrong) /\
       notes x' = (if note then match num with
                                | Some n => toggle (notes cell) n
                                | None => []
                                end
                   else [])) /\
    (forall r' c' x, (r', c') <> (r, c) ->
       cell_at (board gs) r' c' = Some x ->
       exists x', cell_at (board gs') r' c' = Some x' /\
         value x' = value x /\ fixed x' = fixed x /\ error x' = error x /\
         notes x' = (if right && same_unitb r c r' c'
                     then match num with
                          | Some n => delete (notes x) n
                          | None => notes x
                          end
                     else notes x)).
Proof.
  intros Hr Ht note wrong right.
  destruct (input_target_Some st r c gs Ht)
    as (Hg & _ & _ & _ & _ & cell & Hcell & Hfix).
  destruct (reachable_game st gs Hr Hg) as [Hgi _].
  pose proof Hgi as [Hbi _]. destruct Hbi as (Hb & (Hs & _) & _).
  destruct (input_update_spec r c num (saved (board gs)) gs cell Hb Hs Hcell)
    as (b1 & Hup & _ & Hx & Hothers).
  destruct (input_inv st r c gs num _ Ht Hgi Hup) as (Hb1 & Hw1 & _).
  match type of Hup with _ = Done ?g => set (gs1 := g) in * end.
  destruct (completionEffect_inv (with_game st gs1) gs1 eq_refl Hb1 Hw1)
    as (st' & Hst' & _ & _ & gs' & Hg' & Hbd & He & Hh).
  exists cell, st', gs'. split; [exact Hcell|]. split; [exact Hfix|]. split.
  { cbn [dispatch]. rewrite Ht.
    rewrite (handleInput_Some st r c gs num Ht), Hup. cbn [bind].
    now rewrite Hst'. }
  split; [exact Hg'|]. split; [exact He|]. split; [exact Hh|].
  rewrite Hbd. cbn [gs1 with_input board]. split.
  - destruct Hx as (x' & H1 & H2 & H3). exists x'. split; [exact H1|].
    split; [congruence|exact H3].
  - exact Hothers.
Qed.

(** ** Theorems *)

(** X7. In every state of a run: the game is won exactly when the numbers on
    the board make a full valid grid. *)
Theorem won_iff_solved st gs :
  reachable st -> gameState st = Some gs ->
  (isWon gs = true <-> solved (values (board gs))).
Proof.
  intros Hr Hg. destruct (won_values st gs Hr Hg) as [H1 H2].
  now rewrite H1.
Qed.

(** X8. In every state of a run: a number on the board carries the error flag
    exactly when it is not the solution's, and a fixed cell carries the
    solution's number, no note and no flag. *)
Theorem flags_tell_errors st gs r c x :
  reachable st -> gameState st = Some gs ->
  cell_at (board gs) r c = Some x ->
  (forall v, value x = Some v ->
     (error x = true <-> get (solution gs) r c <> Some (Some v))) /\
  (fixed x = true ->
     error x = false /\ notes x = [] /\
     exists v, value x = Some v /\ get (solution gs) r c = Some (Some v)).
Proof.
  intros Hr Hg Hx. destruct (reachable_game st gs Hr Hg) as [[Hinv _] _].
  destruct Hinv as (_ & _ & _ & _ & Hflags & _).
  destruct (Hflags r c x Hx) as [Hfix Hval]. split.
  - intros v Hv. specialize (Hval v Hv). destruct (error x); split.
    + intros _ E. apply Hval in E. discriminate.
    + reflexivity.
    + discriminate.
    + intros H. exfalso. apply H. now apply Hval.
  - intros Hf. destruct (Hfix Hf) as (He & Hne & Hno). split; [exact He|].
    split; [exact Hno|].
    destruct (value x) as [v|] eqn:Ev; [|contradiction].
    exists v. split; [reflexivity|]. now apply (Hval v).
Qed.

(** X9. In every state of a run: the errors never pass their limit (3, or 999
    in zen mode), and the game is over exactly when it is won or the limit
    is reached. *)
Theorem errors_within_limit st gs :
  reachable st -> gameState st = Some gs ->
  maxErrors gs = (if zenMode gs then 999 else 3) /\
  errors gs <= maxErrors gs /\
  (isGameOver gs = true <-> isWon gs = true \/ errors gs = maxErrors gs).
Proof.
  intros Hr Hg. destruct (reachable_game st gs Hr Hg) as [[Hinv _] _].
  destruct Hinv as (_ & _ & _ & _ & _ & Hle & Hmax & Hover & _).
  split; [exact Hmax|]. split; [exact Hle|]. rewrite Hover.
  rewrite orb_true_iff, Nat.leb_le. split; intros [H|H]; auto; right; lia.
Qed.

(** X10. In every state of a run the history holds at most 20 boards, and an
    input that is accepted puts the board it found at its head. *)
Theorem history_bounded st :
  reachable st ->
  (forall gs, gameState st = Some gs -> length (history gs) <= 20) /\
  (forall r c gs num,
     input_target st = Done (Some (r, c, gs)) ->
     exists st' gs', dispatch (Input num) st = Some (Done st') /\
       gameState st' = Some gs' /\
       history gs' = firstn 20 (saved (board gs) :: history gs)).
Proof.
  intros Hr. split.
  - intros gs Hg. destruct (reachable_game st gs Hr Hg) as [[Hinv _] _].
    apply Hinv.
  - intros r c gs num Ht.
    destruct (input_run st r c gs num Hr Ht)
      as (cell & st' & gs' & _ & _ & Hd & Hg' & _ & Hh & _).
    exists st', gs'. auto.
Qed.

(** X11. In every state of a run [undo] does nothing when the history is empty
    and throws when it is not: it never brings a board back.  In
    particular it throws after every input that was accepted. *)
Theorem undo_never_restores st :
  reachable st ->
  (forall gs, gameState st = Some gs ->
     (history gs = [] -> undo st = Done st) /\
     (history gs <> [] -> undo st = Throws)) /\
  (forall r c gs num,
     input_target st = Done (Some (r, c, gs)) ->
     exists st', dispatch (Input num) st = Some (Done st') /\
                 undo st' = Throws).
Proof.
  intros Hr. split; [intros gs; now apply undo_run|].
  intros r c gs num Ht.
  destruct (input_run st r c gs num Hr Ht)
    as (cell & st' & gs' & _ & _ & Hd & Hg' & _ & Hh & _).
  exists st'. split; [exact Hd|].
  assert (Hr' : reachable st').
  { apply (reach_step (Input num) st st' Hr I Hd). }
  apply (undo_run st' gs' Hr' Hg'). rewrite Hh. discriminate.
Qed.

(** X12. In every state of a run: once the game is won, each of the numbers 1
    to 9 is marked as completed. *)
Theorem won_completes_all st gs :
  reachable st -> gameState st = Some gs -> isWon gs = true ->
  completedNumbers st = digits.
Proof.
  intros Hr Hg Hw. destruct (reachable_game st gs Hr Hg) as [_ Hn].
  rewrite Hn. unfold completed.
  assert (Hs : solved (values (board gs))).
  { destruct (won_values st gs Hr Hg) as [H1 H2]. apply H2. now apply H1. }
  assert (H : forall l, incl l digits ->
            filter (fun num => count_value (board gs) num =? 9) l = l).
  { induction l as [|a l IH]; intros Hi; [reflexivity|]. simpl.
    rewrite (count_value_solved (board gs) a Hs) by (apply Hi; now left).
    simpl. rewrite IH; [reflexivity|]. intros x Hx. apply Hi. now right. }
  apply H. apply incl_refl.
Qed.

(** X13. In a run, an event that starts no new game keeps the puzzle: the
    solution and the numbers of the fixed cells stay as they are, like the
    difficulty and the limit of errors. *)
Theorem puzzle_stays e st st' gs :
  reachable st -> gameState st = Some gs ->
  (forall d zen rnd, e <> NewGame d zen rnd) ->
  (forall d rnd, e <> DifficultyClick d rnd) ->
  dispatch e st = Some (Done st') ->
  exists gs', gameState st' = Some gs' /\
    solution gs' = solution gs /\ givens (board gs') = givens (board gs) /\
    difficulty gs' = difficulty gs /\ maxErrors gs' = maxErrors gs.
Proof.
  intros Hr Hg Hn Hd H.
  destruct (dispatch_game e st st' gs Hr Hg) as (gs' & Hg' & Hsp & _).
  - destruct e; auto; [eapply Hn|eapply Hd]; reflexivity.
  - exact H.
  - destruct Hsp as (H1 & H2 & H3 & _ & H5). exists gs'. auto.
Qed.

(** X14. In a run, once the game is over (won, or lost by the errors) no event
    but a new game changes the board, the errors, the clock or the
    history. *)
Theorem game_over_freezes e st st' gs :
  reachable st -> gameState st = Some gs -> isGameOver gs = true ->
  (forall d zen rnd, e <> NewGame d zen rnd) ->
  (forall d rnd, e <> DifficultyClick d rnd) ->
  dispatch e st = Some (Done st') ->
  exists gs', gameState st' = Some gs' /\
    board gs' = board gs /\ errors gs' = errors gs /\ time gs' = time gs /\
    history gs' = history gs /\ isGameOver gs' = true /\
    isWon gs' = isWon gs.
Proof.
  intros Hr Hg Ho Hn Hd H.
  destruct (dispatch_game e st st' gs Hr Hg) as (gs' & Hg' & _ & Hf).
  - destruct e; auto; [eapply Hn|eapply Hd]; reflexivity.
  - exact H.
  - destruct (Hf Ho) as (H1 & H2 & H3 & H4 & H5 & H6). exists gs'.
    repeat split; assumption.
Qed.


Lemma cells_unchanged (b b' : list (list CellData)) r c :
  rect9 b -> rect9 b' ->
  (forall r' c' x, (r', c') <> (r, c) -> cell_at b r' c' = Some x ->
     exists x', cell_at b' r' c' = Some x' /\
       value x' = value x /\ fixed x' = fixed x /\ error x' = error x /\
       notes x' = notes x) ->
  forall r' c', (r', c') <> (r, c) -> cell_at b' r' c' = cell_at b r' c'.
Proof.
  intros Hb Hb' H r' c' Hne.
  destruct (cell_at b r' c') as [x|] eqn:Ex.
  - destruct (H r' c' x Hne Ex) as (x' & Hx' & H1 & H2 & H3 & H4).
    rewrite Hx'. f_equal. now apply CellData_ext.
  - destruct (cell_at b' r' c') as [x'|] eqn:Ex'; [|reflexivity].
    destruct (cell_at_bound _ _ _ _ _ Hb' Ex') as [Hr Hc].
    destruct (rect9_cell _ b r' c' Hb Hr Hc) as (x & Hx). congruence.
Qed.

Lemma reachable_rect9 st gs :
  reachable st -> gameState st = Some gs -> rect9 (board gs).
Proof.
  intros Hr Hg. destruct (reachable_game st gs Hr Hg) as [[Hinv _] _].
  apply Hinv.
Qed.

(** X15. In a run, a number that is not the solution's, entered outside note
    mode on the cell the input goes to: the entry is accepted, the cell
    shows the number with the error flag, the errors go up by one, no other
    cell changes, and the game is over exactly when the errors have reached
    their limit. *)
Theorem wrong_entry_counts st r c gs n :
  reachable st -> input_target st = Done (Some (r, c, gs)) ->
  noteMode gs = false -> get (solution gs) r c <> Some (Some n) ->
  exists st' gs' x',
    dispatch (Input (Some n)) st = Some (Done st') /\
    gameState st' = Some gs' /\
    errors gs' = errors gs + 1 /\
    cell_at (board gs') r c = Some x' /\
    value x' = Some n /\ error x' = true /\ notes x' = [] /\
    (forall r' c', (r', c') <> (r, c) ->
       cell_at (board gs') r' c' = cell_at (board gs) r' c') /\
    (isGameOver gs' = true <-> errors gs + 1 = maxErrors gs).
Proof.
  intros Hr Ht Hn Hw.
  destruct (input_target_Some st r c gs Ht) as (Hg & _).
  assert (Hh : holds (solution gs) r c n = false).
  { unfold holds. destruct (get (solution gs) r c) as [[v|]|] eqn:Eg;
      try reflexivity.
    apply Z.eqb_neq. intros ->. now apply Hw. }
  destruct (input_run st r c gs (Some n) Hr Ht)
    as (cell & st' & gs' & Hcell & _ & Hd & Hg' & He & _ & Hx & Hothers).
  rewrite Hn, Hh in He, Hx, Hothers. cbn [negb andb] in He, Hx, Hothers.
  destruct Hx as (x' & Hx' & _ & Hv & Her & Hno).
  assert (Hr' : reachable st').
  { apply (reach_step (Input (Some n)) st st' Hr I Hd). }
  exists st', gs', x'. repeat (split; [assumption|]). split.
  - apply (cells_unchanged (board gs) (board gs') r c);
      [apply (reachable_rect9 st gs Hr Hg)
      |apply (reachable_rect9 st' gs' Hr' Hg')|exact Hothers].
  - destruct (reachable_game st' gs' Hr' Hg') as [[Hinv _] _].
    destruct Hinv as (_ & _ & _ & _ & Hflags & _ & _ & Hover & _).
    destruct (dispatch_game (Input (Some n)) st st' gs Hr Hg I Hd)
      as (gs2 & Hg2 & (Hsol & _ & _ & _ & Hmax) & _).
    rewrite Hg' in Hg2. inversion Hg2; subst gs2.
    assert (Hlost : isWon gs' = false).
    { destruct (isWon gs') eqn:Ew; [|reflexivity]. exfalso.
      destruct (won_values st' gs' Hr' Hg') as [H1 _].
      apply H1 in Ew.
      destruct (Hflags r c x' Hx') as [_ Hval].
      specialize (Hval n Hv). rewrite Her in Hval.
      apply Hw. rewrite <- Hsol, <- Ew, get_values, Hx'. cbn.
      now rewrite Hv. }
    rewrite Hover, Hlost, He, Hmax. cbn [orb]. rewrite Nat.leb_le.
    destruct (reachable_game st gs Hr Hg) as [[Hinv0 _] _].
    destruct Hinv0 as (_ & _ & _ & _ & _ & Hle & _ & Hover0 & _).
    destruct (input_target_Some st r c gs Ht) as (_ & _ & _ & Hno0 & _).
    rewrite Hno0 in Hover0. symmetry in Hover0.
    apply orb_false_iff in Hover0. destruct Hover0 as [_ Hlt].
    apply Nat.leb_gt in Hlt. lia.
Qed.

(** X16. In a run, when a cell that is not fixed is selected, the game is
    neither paused nor over and the modal is closed ([input_target] then
    names the cell), the solution's number entered outside note mode is
    accepted: the cell shows the number without the error flag and without
    notes, the errors stay, and the number leaves the notes of the cells
    that [isRelated] marks (the row, the column and the box of the cell);
    nothing else changes on the board. *)
Theorem right_entry_sweeps st r c gs n :
  reachable st -> input_target st = Done (Some (r, c, gs)) ->
  noteMode gs = false -> get (solution gs) r c = Some (Some n) ->
  exists st' gs' x',
    dispatch (Input (Some n)) st = Some (Done st') /\
    gameState st' = Some gs' /\
    errors gs' = errors gs /\
    cell_at (board gs') r c = Some x' /\
    value x' = Some n /\ error x' = false /\ notes x' = [] /\
    (forall r' c' x, (r', c') <> (r, c) ->
       cell_at (board gs) r' c' = Some x ->
       exists y, cell_at (board gs') r' c' = Some y /\
         value y = value x /\ fixed y = fixed x /\ error y = error x /\
         notes y = (if isRelated gs r' c' then delete (notes x) n
                    else notes x)).
Proof.
  intros Hr Ht Hn Hs.
  destruct (input_target_Some st r c gs Ht) as (Hg & Hsel & _).
  assert (Hh : holds (solution gs) r c n = true).
  { unfold holds. rewrite Hs. apply Z.eqb_refl. }
  destruct (input_run st r c gs (Some n) Hr Ht)
    as (cell & st' & gs' & Hcell & _ & Hd & Hg' & He & _ & Hx & Hothers).
  rewrite Hn, Hh in He, Hx, Hothers. cbn [negb andb] in He, Hx, Hothers.
  destruct Hx as (x' & Hx' & _ & Hv & Her & Hno).
  exists st', gs', x'. repeat (split; [assumption|]).
  intros r' c' x Hne Hcx.
  destruct (Hothers r' c' x Hne Hcx) as (y & Hy & H1 & H2 & H3 & H4).
  exists y. rewrite (isRelated_same_unitb gs r c r' c' Hsel). auto.
Qed.

(** X17. In a run, when a cell that is not fixed is selected, the game is
    neither paused nor over and the modal is closed ([input_target] then
    names the cell), a number entered in note mode is accepted and toggles
    the number among the notes of the cell; the cell loses the number it
    showed, the errors stay, and no other cell changes. *)
Theorem note_entry_toggles st r c gs n :
  reachable st -> input_target st = Done (Some (r, c, gs)) ->
  noteMode gs = true ->
  exists cell st' gs' x',
    cell_at (board gs) r c = Some cell /\
    dispatch (Input (Some n)) st = Some (Done st') /\
    gameState st' = Some gs' /\
    errors gs' = errors gs /\
    cell_at (board gs') r c = Some x' /\
    value x' = None /\
    (forall m, has (notes x') m =
               if Z.eqb m n then negb (has (notes cell) n)
               else has (notes cell) m) /\
    (forall r' c', (r', c') <> (r, c) ->
       cell_at (board gs') r' c' = cell_at (board gs) r' c').
Proof.
  intros Hr Ht Hn.
  destruct (input_target_Some st r c gs Ht) as (Hg & _).
  destruct (input_run st r c gs (Some n) Hr Ht)
    as (cell & st' & gs' & Hcell & _ & Hd & Hg' & He & _ & Hx & Hothers).
  rewrite Hn in He, Hx, Hothers. cbn [negb andb] in He, Hx, Hothers.
  destruct Hx as (x' & Hx' & _ & Hv & _ & Hno).
  assert (Hr' : reachable st').
  { apply (reach_step (Input (Some n)) st st' Hr I Hd). }
  exists cell, st', gs', x'. repeat (split; [assumption|]). split.
  - intros m. rewrite Hno. apply has_toggle.
  - apply (cells_unchanged (board gs) (board gs') r c);
      [apply (reachable_rect9 st gs Hr Hg)
      |apply (reachable_rect9 st' gs' Hr' Hg')|exact Hothers].
Qed.

(** X18. In a run, when a cell that is not fixed is selected, the game is
    neither paused nor over and the modal is closed ([input_target] then
    names the cell), erasing (the input [null]), in note mode or not,
    leaves the cell without number, notes and error flag; the errors stay,
    also when the number erased was wrong, and no other cell changes. *)
Theorem erase_entry_clears st r c gs :
  reachable st -> input_target st = Done (Some (r, c, gs)) ->
  exists st' gs' x',
    dispatch (Input None) st = Some (Done st') /\
    gameState st' = Some gs' /\
    errors gs' = errors gs /\
    cell_at (board gs') r c = Some x' /\
    value x' = None /\ error x' = false /\ notes x' = [] /\
    (forall r' c', (r', c') <> (r, c) ->
       cell_at (board gs') r' c' = cell_at (board gs) r' c').
Proof.
  intros Hr Ht.
  destruct (input_target_Some st r c gs Ht) as (Hg & _).
  destruct (input_run st r c gs None Hr Ht)
    as (cell & st' & gs' & Hcell & _ & Hd & Hg' & He & _ & Hx & Hothers).
  rewrite andb_false_r in He, Hx. cbn [andb] in Hothers.
  destruct Hx as (x' & Hx' & _ & Hv & Her & Hno).
  assert (Hr' : reachable st').
  { apply (reach_step (Input None) st st' Hr I Hd). }
  exists st', gs', x'. repeat (split; [assumption|]).
  apply (cells_unchanged (board gs) (board gs') r c);
    [apply (reachable_rect9 st gs Hr Hg)
    |apply (reachable_rect9 st' gs' Hr' Hg')|exact Hothers].
Qed.

Lemma hint_as_input st r c gs :
  reachable st -> input_target st = Done (Some (r, c, gs)) ->
  exists v, get (solution gs) r c = Some (Some v) /\
            hint st = handleInput (Some v) st.
Proof.
  intros Hr Ht.
  destruct (input_target_Some st r c gs Ht)
    as (Hg & Hsel & _ & Hover & _ & cell0 & Hcell0 & _).
  destruct (reachable_game st gs Hr Hg) as [[Hinv _] _].
  destruct Hinv as (Hb & Hsol & _).
  destruct (cell_at_bound _ _ _ _ _ Hb Hcell0) as [Hr9 Hc9].
  destruct Hsol as (Hshape & Hfull & _).
  destruct (Hfull r c Hr9 Hc9) as (v & Hv).
  exists v. split; [exact Hv|].
  unfold hint. rewrite Hg, Hsel, Hover. unfold get in Hv.
  destruct (nth_error (solution gs) r) as [line|]; [|discriminate].
  now rewrite Hv.
Qed.

(** X19. In a run, when a cell that is not fixed is selected, the game is
    neither paused nor over and the modal is closed ([input_target] then
    names the cell), a hint is accepted and the errors stay: outside note
    mode the cell gets the solution's number, without the error flag and
    without notes; in note mode the hint clears the number of the cell and
    toggles the solution's number among its notes. *)
Theorem hint_gives_solution st r c gs :
  reachable st -> input_target st = Done (Some (r, c, gs)) ->
  exists v cell st' gs' x',
    get (solution gs) r c = Some (Some v) /\
    cell_at (board gs) r c = Some cell /\
    dispatch Hint st = Some (Done st') /\
    gameState st' = Some gs' /\
    errors gs' = errors gs /\
    cell_at (board gs') r c = Some x' /\
    (noteMode gs = false ->
     value x' = Some v /\ error x' = false /\ notes x' = []) /\
    (noteMode gs = true ->
     value x' = None /\ notes x' = toggle (notes cell) v).
Proof.
  intros Hr Ht.
  destruct (hint_as_input st r c gs Hr Ht) as (v & Hv & Ehint).
  assert (Hh : holds (solution gs) r c v = true).
  { unfold holds. rewrite Hv. apply Z.eqb_refl. }
  destruct (input_run st r c gs (Some v) Hr Ht)
    as (cell & st' & gs' & Hcell & _ & Hd & Hg' & He & _ & Hx & _).
  rewrite Hh in He, Hx. cbn [negb] in He, Hx. rewrite andb_false_r in He, Hx.
  destruct Hx as (x' & Hx' & _ & Hval & Her & Hno).
  exists v, cell, st', gs', x'. split; [exact Hv|]. split; [exact Hcell|].
  split.
  { cbn [dispatch] in Hd |- *. rewrite Ht in Hd |- *. now rewrite Ehint. }
  split; [exact Hg'|]. split; [exact He|]. split; [exact Hx'|].
  split; intros En; rewrite En in Hval, Her, Hno; auto.
Qed.

(** X20. In a run with the selection on the board, no event throws but [undo]
    with a board in the history: every other event that starts no new game
    is accepted. *)
Theorem only_undo_throws e st gs :
  reachable st -> gameState st = Some gs ->
  (forall r c, selectedCell gs = Some (r, c) -> r < 9 /\ c < 9) ->
  (forall d zen rnd, e <> NewGame d zen rnd) ->
  (forall d rnd, e <> DifficultyClick d rnd) ->
  (e = Undo /\ history gs <> [] /\ dispatch e st = Some Throws) \/
  (exists st', dispatch e st = Some (Done st')).
Proof.
  intros Hr Hg Hsel Hn Hd.
  destruct (reachable_game st gs Hr Hg) as [[Hinv _] _].
  destruct Hinv as (Hb & Hsol & _).
  assert (Ht : input_target st = Done None \/
               exists r c, input_target st = Done (Some (r, c, gs))).
  { unfold input_target. rewrite Hg.
    destruct (selectedCell gs) as [[r c]|] eqn:Es; [|now left].
    destruct (isPaused gs || isGameOver gs || isNewGameModalOpen st);
      [now left|].
    destruct (Hsel r c eq_refl) as [Hr9 Hc9].
    destruct (rect9_cell _ (board gs) r c Hb Hr9 Hc9) as (x & ->).
    destruct (fixed x); [now left|]. right. now exists r, c. }
  destruct e as [d zen rnd|d rnd|num| | |r c| | | |open|d|];
    try (right; eexists; reflexivity).
  - exfalso. now apply (Hn d zen rnd).
  - exfalso. now apply (Hd d rnd).
  - right. destruct Ht as [Ht|(r & c & Ht)].
    + exists st. cbn [dispatch]. now rewrite Ht.
    + destruct (input_run st r c gs num Hr Ht)
        as (cell & st' & gs' & _ & _ & Hdi & _). now exists st'.
  - right. destruct Ht as [Ht|(r & c & Ht)].
    + exists st. cbn [dispatch]. rewrite Ht. unfold hint. rewrite Hg.
      destruct (selectedCell gs) as [[r c]|] eqn:Es; [|reflexivity].
      destruct (isGameOver gs); [reflexivity|].
      destruct (Hsel r c eq_refl) as [Hr9 Hc9].
      destruct (shape_get (solution gs) r c (proj1 Hsol) Hr9 Hc9)
        as (w & Hw).
      unfold get in Hw.
      destruct (nth_error (solution gs) r) as [line|]; [|discriminate].
      rewrite Hw. now rewrite (input_target_None st Ht).
    + destruct (hint_as_input st r c gs Hr Ht) as (v & _ & Ehint).
      destruct (input_run st r c gs (Some v) Hr Ht)
        as (cell & st' & gs' & _ & _ & Hdi & _).
      exists st'. cbn [dispatch] in Hdi |- *. rewrite Ht in Hdi |- *.
      now rewrite Ehint.
  - cbn [dispatch]. rewrite Hg.
    destruct (history gs) as [|snap rest] eqn:Eh.
    + right. now exists st.
    + left. split; [reflexivity|]. split; [discriminate|].
      destruct (undo_run st gs Hr Hg) as [_ Hth].
      rewrite Hth by (rewrite Eh; discriminate). reflexivity.
Qed.

(** ** A new game *)

Lemma hasProgress_initialBoard puzzle st :
  gameState st = None \/
  (exists gs, gameState st = Some gs /\ board gs = initialBoard puzzle) ->
  hasProgress st = false.
Proof.
  unfold hasProgress. intros [->|(gs & -> & ->)]; [reflexivity|].
  unfold initialBoard.
  induction puzzle as [|row puzzle IH]; [reflexivity|].
  cbn [map existsb]. rewrite IH, orb_false_r. clear IH.
  induction row as [|v row IH]; [reflexivity|].
  cbn [map existsb]. rewrite IH, orb_false_r.
  destruct v; reflexivity.
Qed.

Lemma fixed_cells_initialBoard puzzle :
  fixed_cells (initialBoard puzzle) = filled_cells puzzle.
Proof.
  unfold fixed_cells, filled_cells. apply filter_ext. intros [r c].
  unfold initialBoard. rewrite cell_at_map, <- get_cell_at. cbn [fst snd].
  destruct (get puzzle r c) as [[v|]|]; reflexivity.
Qed.

(** X21. A new game that the generator delivers: the solution is a full valid
    grid; the board has 81 cells less the number the difficulty removes as
    fixed cells, each with the solution's number, and the others empty;
    there are no notes, flags, errors or history, the game is neither won
    nor over, and there is no progress to lose. *)
Theorem new_game_board d zen rnd st0 st :
  draws_ok rnd -> dispatch (NewGame d zen rnd) st0 = Some (Done st) ->
  exists gs,
    gameState st = Some gs /\ solved (solution gs) /\
    (forall r c, r < 9 -> c < 9 ->
       exists x, cell_at (board gs) r c = Some x /\
         notes x = [] /\ error x = false /\
         (fixed x = true -> Some (value x) = get (solution gs) r c) /\
         (fixed x = false -> value x = None)) /\
    length (fixed_cells (board gs)) + cellsToRemove d = 81 /\
    errors gs = 0 /\ maxErrors gs = (if zen then 999 else 3) /\
    time gs = 0 /\ history gs = [] /\ selectedCell gs = None /\
    isWon gs = false /\ isGameOver gs = false /\
    hasProgress st = false.
Proof.
  intros Hok H. cbn [dispatch] in H.
  destruct (startNewGame d zen rnd) as [st1|] eqn:Es; [|discriminate].
  cbn [option_map] in H. inversion H as [He]. clear H.
  pose proof Es as Es'. unfold startNewGame in Es'.
  destruct (generateSudoku d rnd) as [[puzzle sol]|] eqn:Eg; [|discriminate].
  destruct (generated_pair d rnd puzzle sol Hok Eg)
    as (Hs & Hsol & Hext & _ & Hcount).
  destruct (startNewGame_inv d zen rnd st1 Hok Es)
    as (puzzle' & gs & _ & Hg & _ & _ & _ & _ & _ & _ & _ & _ & _ & _ & _
        & Hinv).
  inversion Es' as [E1]. rewrite <- E1 in Hg, He. cbn [gameState] in Hg.
  inversion Hg as [Egs]. clear Hg.
  assert (Hb : board gs = initialBoard puzzle) by (now rewrite <- Egs).
  assert (Hso : solution gs = sol) by (now rewrite <- Egs).
  assert (Hw : isWon gs = false) by (now rewrite <- Egs).
  destruct Hinv as (Hrect & _).
  destruct (isComplete_spec gs Hrect) as (ok & Hc & Hiff).
  { rewrite Hso. apply Hsol. }
  assert (Hno : ok = false).
  { destruct ok; [|reflexivity]. exfalso.
    assert (E : values (board gs) = solution gs) by (now apply Hiff).
    rewrite Hb, values_initialBoard, Hso in E. subst puzzle.
    rewrite (filled_cells_full sol) in Hcount by apply Hsol.
    destruct d; cbn in Hcount; lia. }
  subst ok. unfold completionEffect in He. cbn [gameState] in He.
  rewrite Egs, Hc in He. cbn [bind andb] in He.
  inversion He as [Est]. clear He.
  exists gs. split; [reflexivity|]. split; [now rewrite Hso|]. split.
  { intros r c Hr Hc9. destruct (rect9_cell _ (board gs) r c Hrect Hr Hc9)
      as (x & Hx).
    exists x. split; [exact Hx|]. rewrite Hb in Hx.
    destruct (cell_at_initialBoard puzzle r c x Hx) as (Hg & Hf & Hn & Her).
    split; [exact Hn|]. split; [exact Her|]. rewrite Hf. split.
    - destruct (value x) as [v|] eqn:Ev; [|discriminate]. intros _.
      rewrite Hso. symmetry. now apply Hext.
    - destruct (value x); [discriminate|reflexivity]. }
  split; [now rewrite Hb, fixed_cells_initialBoard|].
  rewrite <- Egs. cbn [errors maxErrors time history selectedCell isWon
                       isGameOver].
  repeat (split; [reflexivity|]).
  apply (hasProgress_initialBoard puzzle). right. eexists.
  split; [reflexivity|]. reflexivity.
Qed.

(** ** Example runs *)

Lemma event_okb_sound e : event_okb e = true -> event_ok e.
Proof.
  assert (H : forall rnd, forallb (fun x => x <? 9) rnd = true -> draws_ok rnd).
  { intros rnd Hb. apply Forall_forall. intros x Hx.
    rewrite forallb_forall in Hb. apply Nat.ltb_lt. now apply Hb. }
  destruct e; cbn; auto.
Qed.

Lemma run_reachable es :
  forallb event_okb es = true ->
  forall st st', reachable st -> run es st = Some st' -> reachable st'.
Proof.
  induction es as [|e es IH]; intros Hok st st' Hr H.
  - inversion H. now subst.
  - cbn [forallb] in Hok. apply andb_true_iff in Hok. destruct Hok as [He Hes].
    cbn [run] in H.
    destruct (dispatch e st) as [[st1| |]|] eqn:Ed; try discriminate.
    apply (IH Hes st1 st'); [|exact H].
    apply (reach_step e st st1 Hr (event_okb_sound e He) Ed).
Qed.

Lemma state_after_reachable es :
  forallb event_okb es = true -> reachable (state_after es).
Proof.
  intros Hok. unfold state_after.
  destruct (run es initial) as [st|] eqn:E; [|apply reach_initial].
  apply (run_reachable es Hok initial st reach_initial E).
Qed.

(** ** Examples *)

Lemma won_iff_solved_witness :
  reachable (state_after winning) /\
  gameState (state_after winning) = Some (game_after winning) /\
  (isWon (game_after winning) = true <->
   solved (values (board (game_after winning)))).
Proof.
  assert (Hr : reachable (state_after winning))
    by (apply state_after_reachable; vm_compute; reflexivity).
  assert (Hg : gameState (state_after winning) = Some (game_after winning))
    by (vm_compute; reflexivity).
  split; [exact Hr|]. split; [exact Hg|].
  apply (won_iff_solved (state_after winning) (game_after winning) Hr Hg).
Defined.

Lemma flags_tell_errors_witness :
  reachable (state_after erring) /\
  gameState (state_after erring) = Some (game_after erring) /\
  cell_at (board (game_after erring)) 0 2 =
    Some {| value := Some 9%Z; fixed := false; notes := []; error := true |} /\
  (forall v, Some 9%Z = Some v ->
     (true = true <-> get (solution (game_after erring)) 0 2 <> Some (Some v))) /\
  (false = true ->
     true = false /\ @nil Z = [] /\
     exists v, Some 9%Z = Some v /\
       get (solution (game_after erring)) 0 2 = Some (Some v)).
Proof.
  assert (Hr : reachable (state_after erring))
    by (apply state_after_reachable; vm_compute; reflexivity).
  assert (Hg : gameState (state_after erring) = Some (game_after erring))
    by (vm_compute; reflexivity).
  assert (Hx : cell_at (board (game_after erring)) 0 2 =
    Some {| value := Some 9%Z; fixed := false; notes := []; error := true |})
    by (vm_compute; reflexivity).
  split; [exact Hr|]. split; [exact Hg|]. split; [exact Hx|].
  apply (flags_tell_errors (state_after erring) (game_after erring) 0 2
           {| value := Some 9%Z; fixed := false; notes := []; error := true |}
           Hr Hg Hx).
Defined.

Lemma errors_within_limit_witness :
  reachable (state_after losing) /\
  gameState (state_after losing) = Some (game_after losing) /\
  maxErrors (game_after losing) =
    (if zenMode (game_after losing) then 999 else 3) /\
  errors (game_after losing) <= maxErrors (game_after losing) /\
  (isGameOver (game_after losing) = true <->
   isWon (game_after losing) = true \/
   errors (game_after losing) = maxErrors (game_after losing)).
Proof.
  assert (Hr : reachable (state_after losing))
    by (apply state_after_reachable; vm_compute; reflexivity).
  assert (Hg : gameState (state_after losing) = Some (game_after losing))
    by (vm_compute; reflexivity).
  split; [exact Hr|]. split; [exact Hg|].
  apply (errors_within_limit (state_after losing) (game_after losing) Hr Hg).
Defined.

Lemma history_bounded_witness :
  reachable (state_after opening) /\
  (forall gs, gameState (state_after opening) = Some gs ->
     length (history gs) <= 20) /\
  (forall r c gs num,
     input_target (state_after opening) = Done (Some (r, c, gs)) ->
     exists st' gs',
       dispatch (Input num) (state_after opening) = Some (Done st') /\
       gameState st' = Some gs' /\
       history gs' = firstn 20 (saved (board gs) :: history gs)).
Proof.
  assert (Hr : reachable (state_after opening))
    by (apply state_after_reachable; vm_compute; reflexivity).
  split; [exact Hr|].
  apply (history_bounded (state_after opening) Hr).
Defined.

Lemma undo_never_restores_witness :
  reachable (state_after erring) /\
  gameState (state_after erring) = Some (game_after erring) /\
  history (game_after erring) <> [] /\
  undo (state_after erring) = Throws.
Proof.
  assert (Hr : reachable (state_after erring))
    by (apply state_after_reachable; vm_compute; reflexivity).
  assert (Hg : gameState (state_after erring) = Some (game_after erring))
    by (vm_compute; reflexivity).
  assert (Hh : history (game_after erring) <> [])
    by (vm_compute; discriminate).
  split; [exact Hr|]. split; [exact Hg|]. split; [exact Hh|].
  apply (proj1 (undo_never_restores (state_after erring) Hr)
           (game_after erring) Hg).
  exact Hh.
Defined.

Lemma won_completes_all_witness :
  reachable (state_after winning) /\
  gameState (state_after winning) = Some (game_after winning) /\
  isWon (game_after winning) = true /\
  completedNumbers (state_after winning) = digits.
Proof.
  assert (Hr : reachable (state_after winning))
    by (apply state_after_reachable; vm_compute; reflexivity).
  assert (Hg : gameState (state_after winning) = Some (game_after winning))
    by (vm_compute; reflexivity).
  assert (Hw : isWon (game_after winning) = true)
    by (vm_compute; reflexivity).
  split; [exact Hr|]. split; [exact Hg|]. split; [exact Hw|].
  apply (won_completes_all (state_after winning) (game_after winning)
           Hr Hg Hw).
Defined.

Lemma puzzle_stays_witness :
  reachable (state_after opening) /\
  gameState (state_after opening) = Some (game_after opening) /\
  dispatch (Input (Some 9%Z)) (state_after opening) =
    Some (Done (state_after erring)) /\
  exists gs', gameState (state_after erring) = Some gs' /\
    solution gs' = solution (game_after opening) /\
    givens (board gs') = givens (board (game_after opening)) /\
    difficulty gs' = difficulty (game_after opening) /\
    maxErrors gs' = maxErrors (game_after opening).
Proof.
  assert (Hr : reachable (state_after opening))
    by (apply state_after_reachable; vm_compute; reflexivity).
  assert (Hg : gameState (state_after opening) = Some (game_after opening))
    by (vm_compute; reflexivity).
  assert (Hd : dispatch (Input (Some 9%Z)) (state_after opening) =
               Some (Done (state_after erring)))
    by (vm_compute; reflexivity).
  split; [exact Hr|]. split; [exact Hg|]. split; [exact Hd|].
  apply (puzzle_stays (Input (Some 9%Z)) (state_after opening)
           (state_after erring) (game_after opening) Hr Hg);
    [discriminate|discriminate|exact Hd].
Defined.

Lemma game_over_freezes_witness :
  reachable (state_after losing) /\
  gameState (state_after losing) = Some (game_after losing) /\
  isGameOver (game_after losing) = true /\
  dispatch (Input (Some 1%Z)) (state_after losing) =
    Some (Done (state_after losing)) /\
  exists gs', gameState (state_after losing) = Some gs' /\
    board gs' = board (game_after losing) /\
    errors gs' = errors (game_after losing) /\
    time gs' = time (game_after losing) /\
    history gs' = history (game_after losing) /\
    isGameOver gs' = true /\ isWon gs' = isWon (game_after losing).
Proof.
  assert (Hr : reachable (state_after losing))
    by (apply state_after_reachable; vm_compute; reflexivity).
  assert (Hg : gameState (state_after losing) = Some (game_after losing))
    by (vm_compute; reflexivity).
  assert (Ho : isGameOver (game_after losing) = true)
    by (vm_compute; reflexivity).
  assert (Hd : dispatch (Input (Some 1%Z)) (state_after losing) =
               Some (Done (state_after losing)))
    by (vm_compute; reflexivity).
  split; [exact Hr|]. split; [exact Hg|]. split; [exact Ho|].
  split; [exact Hd|].
  apply (game_over_freezes (Input (Some 1%Z)) (state_after losing)
           (state_after losing) (game_after losing) Hr Hg Ho);
    [discriminate|discriminate|exact Hd].
Defined.

Lemma wrong_entry_counts_witness :
  reachable (state_after opening) /\
  input_target (state_after opening) =
    Done (Some (0, 2, game_after opening)) /\
  noteMode (game_after opening) = false /\
  get (solution (game_after opening)) 0 2 <> Some (Some 9%Z) /\
  exists st' gs' x',
    dispatch (Input (Some 9%Z)) (state_after opening) = Some (Done st') /\
    gameState st' = Some gs' /\
    errors gs' = errors (game_after opening) + 1 /\
    cell_at (board gs') 0 2 = Some x' /\
    value x' = Some 9%Z /\ error x' = true /\ notes x' = [] /\
    (forall r' c', (r', c') <> (0, 2) ->
       cell_at (board gs') r' c' =
       cell_at (board (game_after opening)) r' c') /\
    (isGameOver gs' = true <->
     errors (game_after opening) + 1 = maxErrors (game_after opening)).
Proof.
  assert (Hr : reachable (state_after opening))
    by (apply state_after_reachable; vm_compute; reflexivity).
  assert (Ht : input_target (state_after opening) =
               Done (Some (0, 2, game_after opening)))
    by (vm_compute; reflexivity).
  assert (Hn : noteMode (game_after opening) = false)
    by (vm_compute; reflexivity).
  assert (Hw : get (solution (game_after opening)) 0 2 <> Some (Some 9%Z))
    by (vm_compute; discriminate).
  split; [exact Hr|]. split; [exact Ht|]. split; [exact Hn|].
  split; [exact Hw|].
  apply (wrong_entry_counts (state_after opening) 0 2 (game_after opening)
           9%Z Hr Ht Hn Hw).
Defined.

Lemma right_entry_sweeps_witness :
  reachable (state_after opening) /\
  input_target (state_after opening) =
    Done (Some (0, 2, game_after opening)) /\
  noteMode (game_after opening) = false /\
  get (solution (game_after opening)) 0 2 = Some (Some 1%Z) /\
  exists st' gs' x',
    dispatch (Input (Some 1%Z)) (state_after opening) = Some (Done st') /\
    gameState st' = Some gs' /\
    errors gs' = errors (game_after opening) /\
    cell_at (board gs') 0 2 = Some x' /\
    value x' = Some 1%Z /\ error x' = false /\ notes x' = [] /\
    (forall r' c' x, (r', c') <> (0, 2) ->
       cell_at (board (game_after opening)) r' c' = Some x ->
       exists y, cell_at (board gs') r' c' = Some y /\
         value y = value x /\ fixed y = fixed x /\ error y = error x /\
         notes y = (if isRelated (game_after opening) r' c'
                    then delete (notes x) 1%Z else notes x)).
Proof.
  assert (Hr : reachable (state_after opening))
    by (apply state_after_reachable; vm_compute; reflexivity).
  assert (Ht : input_target (state_after opening) =
               Done (Some (0, 2, game_after opening)))
    by (vm_compute; reflexivity).
  assert (Hn : noteMode (game_after opening) = false)
    by (vm_compute; reflexivity).
  assert (Hs : get (solution (game_after opening)) 0 2 = Some (Some 1%Z))
    by (vm_compute; reflexivity).
  split; [exact Hr|]. split; [exact Ht|]. split; [exact Hn|].
  split; [exact Hs|].
  apply (right_entry_sweeps (state_after opening) 0 2 (game_after opening)
           1%Z Hr Ht Hn Hs).
Defined.

Lemma note_entry_toggles_witness :
  reachable (state_after noting) /\
  input_target (state_after noting) =
    Done (Some (0, 2, game_after noting)) /\
  noteMode (game_after noting) = true /\
  exists cell st' gs' x',
    cell_at (board (game_after noting)) 0 2 = Some cell /\
    dispatch (Input (Some 5%Z)) (state_after noting) = Some (Done st') /\
    gameState st' = Some gs' /\
    errors gs' = errors (game_after noting) /\
    cell_at (board gs') 0 2 = Some x' /\
    value x' = None /\
    (forall m, has (notes x') m =
               if Z.eqb m 5 then negb (has (notes cell) 5%Z)
               else has (notes cell) m) /\
    (forall r' c', (r', c') <> (0, 2) ->
       cell_at (board gs') r' c' =
       cell_at (board (game_after noting)) r' c').
Proof.
  assert (Hr : reachable (state_after noting))
    by (apply state_after_reachable; vm_compute; reflexivity).
  assert (Ht : input_target (state_after noting) =
               Done (Some (0, 2, game_after noting)))
    by (vm_compute; reflexivity).
  assert (Hn : noteMode (game_after noting) = true)
    by (vm_compute; reflexivity).
  split; [exact Hr|]. split; [exact Ht|]. split; [exact Hn|].
  apply (note_entry_toggles (state_after noting) 0 2 (game_after noting)
           5%Z Hr Ht Hn).
Defined.

Lemma erase_entry_clears_witness :
  reachable (state_after erring) /\
  input_target (state_after erring) =
    Done (Some (0, 2, game_after erring)) /\
  exists st' gs' x',
    dispatch (Input None) (state_after erring) = Some (Done st') /\
    gameState st' = Some gs' /\
    errors gs' = errors (game_after erring) /\
    cell_at (board gs') 0 2 = Some x' /\
    value x' = None /\ error x' = false /\ notes x' = [] /\
    (forall r' c', (r', c') <> (0, 2) ->
       cell_at (board gs') r' c' =
       cell_at (board (game_after erring)) r' c').
Proof.
  assert (Hr : reachable (state_after erring))
    by (apply state_after_reachable; vm_compute; reflexivity).
  assert (Ht : input_target (state_after erring) =
               Done (Some (0, 2, game_after erring)))
    by (vm_compute; reflexivity).
  split; [exact Hr|]. split; [exact Ht|].
  apply (erase_entry_clears (state_after erring) 0 2 (game_after erring)
           Hr Ht).
Defined.

Lemma hint_gives_solution_witness :
  reachable (state_after opening) /\
  input_target (state_after opening) =
    Done (Some (0, 2, game_after opening)) /\
  exists v cell st' gs' x',
    get (solution (game_after opening)) 0 2 = Some (Some v) /\
    cell_at (board (game_after opening)) 0 2 = Some cell /\
    dispatch Hint (state_after opening) = Some (Done st') /\
    gameState st' = Some gs' /\
    errors gs' = errors (game_after opening) /\
    cell_at (board gs') 0 2 = Some x' /\
    (noteMode (game_after opening) = false ->
     value x' = Some v /\ error x' = false /\ notes x' = []) /\
    (noteMode (game_after opening) = true ->
     value x' = None /\ notes x' = toggle (notes cell) v).
Proof.
  assert (Hr : reachable (state_after opening))
    by (apply state_after_reachable; vm_compute; reflexivity).
  assert (Ht : input_target (state_after opening) =
               Done (Some (0, 2, game_after opening)))
    by (vm_compute; reflexivity).
  split; [exact Hr|]. split; [exact Ht|].
  apply (hint_gives_solution (state_after opening) 0 2 (game_after opening)
           Hr Ht).
Defined.

Lemma only_undo_throws_witness :
  reachable (state_after erring) /\
  gameState (state_after erring) = Some (game_after erring) /\
  (forall r c, selectedCell (game_after erring) = Some (r, c) ->
     r < 9 /\ c < 9) /\
  ((Undo = Undo /\ history (game_after erring) <> [] /\
    dispatch Undo (state_after erring) = Some Throws) \/
   (exists st', dispatch Undo (state_after erring) = Some (Done st'))).
Proof.
  assert (Hr : reachable (state_after erring))
    by (apply state_after_reachable; vm_compute; reflexivity).
  assert (Hg : gameState (state_after erring) = Some (game_after erring))
    by (vm_compute; reflexivity).
  assert (Hs : forall r c, selectedCell (game_after erring) = Some (r, c) ->
                 r < 9 /\ c < 9).
  { intros r c H. vm_compute in H. inversion H. lia. }
  split; [exact Hr|]. split; [exact Hg|]. split; [exact Hs|].
  apply (only_undo_throws Undo (state_after erring) (game_after erring)
           Hr Hg Hs); discriminate.
Defined.

Lemma new_game_board_witness :
  draws_ok easy_draws /\
  dispatch (NewGame EASY false easy_draws) initial =
    Some (Done (state_after [NewGame EASY false easy_draws])) /\
  exists gs,
    gameState (state_after [NewGame EASY false easy_draws]) = Some gs /\
    solved (solution gs) /\
    (forall r c, r < 9 -> c < 9 ->
       exists x, cell_at (board gs) r c = Some x /\
         notes x = [] /\ error x = false /\
         (fixed x = true -> Some (value x) = get (solution gs) r c) /\
         (fixed x = false -> value x = None)) /\
    length (fixed_cells (board gs)) + cellsToRemove EASY = 81 /\
    errors gs = 0 /\ maxErrors gs = (if false then 999 else 3) /\
    time gs = 0 /\ history gs = [] /\ selectedCell gs = None /\
    isWon gs = false /\ isGameOver gs = false /\
    hasProgress (state_after [NewGame EASY false easy_draws]) = false.
Proof.
  assert (Hd : dispatch (NewGame EASY false easy_draws) initial =
               Some (Done (state_after [NewGame EASY false easy_draws])))
    by (vm_compute; reflexivity).
  split; [apply easy_draws_ok|]. split; [exact Hd|].
  apply (new_game_board EASY false easy_draws initial
           (state_after [NewGame EASY false easy_draws]) easy_draws_ok Hd).
Defined.
